(** * The staged-IR front end: desugaring, extern collection and grouping

    A shallow embedding of [src/sugar.ts], [src/compile/compile.ts] and
    [src/compile/ir.ts].  JavaScript arrays that are used as identity-keyed
    tables (the type table, the extern table, the per-quote grouping) are
    modelled with their holes and their [length]; exceptions are modelled by
    an explicit result type; the type table that the desugaring passes share
    with the elaborator is threaded as state.

    The functions that these files import from files outside the sources
    ([util.ts], [visit.ts], [type_elaborate.ts]) are modelled from the
    specification, each under a comment that says so; the passes of
    [compile/scope.ts], [compile/defuse.ts] and [compile/lift.ts] are
    parameters of the semantic analysis.  The part of the GLSL backend
    ([backends/glsl.ts]) that reads the IR comes after the front end. *)

From stdpp Require Import gmap strings pretty list fin_maps.
From Stdlib Require Import ZArith Ascii.

(** ** JavaScript arrays with holes *)

(** An array is the list of its slots [0 .. length-1]; a slot is either a
    value or a hole, and reading a hole (or past the end) gives
    [undefined], here [None]. *)
Module JSArray.
Section ops.
Context {A : Type}.

(** [a[i]] *)
Definition get (a : list (option A)) (i : nat) : option A :=
  mjoin (a !! i).

(** [a[i] = v]: in place below [length], otherwise the array is extended
    and the slots in between become holes. *)
Definition store (a : list (option A)) (i : nat) (v : A) : list (option A) :=
  if decide (i < length a) then <[i := Some v]> a
  else a ++ replicate (i - length a) None ++ [Some v].

(** The defined elements in index order: what a [for ... of] loop that
    skips [undefined] sees. *)
Definition defined (a : list (option A)) : list A := omap (λ x, x) a.
End ops.
End JSArray.

(** ** Outcomes of a call that may throw *)

Inductive error : Type :=
  | TypeError         (* the JavaScript runtime: a property of undefined or null *)
  | ElaborationError. (* raised by the elaborator on a synthesized subtree *)

Inductive result (A : Type) : Type :=
  | OK (a : A)
  | Throw (e : error).
Arguments OK {A} a.
Arguments Throw {A} e.

(** ** Syntax trees ([ast.ts])

    One constructor per node kind that the visitors of the sources name
    ([visit_literal] ... [visit_persist] in the GLSL rules, [visit_macrocall]
    in [sugar.ts]), with the fields the sources read.  Every node carries its
    identity, absent on a node that has just been synthesized and not yet
    stamped by the elaborator.  The [count] of an escape is the number that
    the desugarer copies from [stack_lookup], [undefined] when the lookup
    found nothing. *)

Record ParamNode : Type := mkParam {
  param_id : option nat;
  param_name : string;
}.

#[warnings="-register-all"]
Inductive SyntaxNode : Type :=
  | LiteralNode (id : option nat) (value : Z)
  | SeqNode (id : option nat) (lhs rhs : SyntaxNode)
  | LetNode (id : option nat) (ident : string) (expr : SyntaxNode)
  | AssignNode (id : option nat) (ident : string) (expr : SyntaxNode)
  | LookupNode (id : option nat) (ident : string)
  | UnaryNode (id : option nat) (op : string) (expr : SyntaxNode)
  | BinaryNode (id : option nat) (op : string) (lhs rhs : SyntaxNode)
  | QuoteNode (id : option nat) (expr : SyntaxNode) (annotation : string)
  | EscapeNode (id : option nat) (kind : string) (expr : SyntaxNode)
      (count : option nat)
  | RunNode (id : option nat) (expr : SyntaxNode)
  | FunNode (id : option nat) (params : list ParamNode) (body : SyntaxNode)
  | CallNode (id : option nat) (fn : SyntaxNode) (args : list SyntaxNode)
      (* [fn] is the field [fun] *)
  | ExternNode (id : option nat) (name : string) (expansion : option string)
  | PersistNode (id : option nat) (index : nat)
  | MacroCallNode (id : option nat) (macro : string) (args : list SyntaxNode).

(** [tree.id] *)
Definition node_id (tree : SyntaxNode) : option nat :=
  match tree with
  | LiteralNode i _ | SeqNode i _ _ | LetNode i _ _ | AssignNode i _ _
  | LookupNode i _ | UnaryNode i _ _ | BinaryNode i _ _ _ | QuoteNode i _ _
  | EscapeNode i _ _ _ | RunNode i _ | FunNode i _ _ | CallNode i _ _
  | ExternNode i _ _ | PersistNode i _ | MacroCallNode i _ _ => i
  end.

(** ** The mid-level IR ([compile/ir.ts]) *)

Record ProgEscape : Type := mkProgEscape {
  escape_id : nat;
  escape_body : SyntaxNode;
}.

Record Scope : Type := mkScope {
  scope_id : option nat;          (* [id: number], or null for top-level *)
  body : SyntaxNode;
  free : list nat;
  bound : list nat;
  persist : list ProgEscape;
  splice : list ProgEscape;
  parent : option nat;
  children : list nat;
  quote_parent : option nat;
  quote_children : list nat;
}.

Record Proc : Type := mkProc {
  proc_scope :> Scope;
  params : list nat;
}.

Record Prog : Type := mkProg {
  prog_scope :> Scope;
  annotation : string;
}.

(** ** Grouping procedures by their quote ([group_by_prog]) *)

Definition grouping : Type :=
  (list (option nat) * list (option (list (option nat))))%type.

(** The first loop: [quoted[prog.id] = []] for every defined prog.  A null
    [id] names a property of the array object and no slot of it. *)
Definition init_quoted_step (quoted : list (option (list (option nat))))
    (prog : option Prog) : list (option (list (option nat))) :=
  match prog with
  | Some p =>
      match scope_id p with
      | Some i => JSArray.store quoted i []
      | None => quoted
      end
  | None => quoted
  end.

Definition init_quoted (progs : list (option Prog))
    : list (option (list (option nat))) :=
  foldl init_quoted_step [] progs.

(** One iteration of the second loop.  [quoted[quote_id].push(proc.id)]
    throws when [quoted[quote_id]] is undefined. *)
Definition insert_proc (st : grouping) (proc : option Proc) : result grouping :=
  let '(toplevel, quoted) := st in
  match proc with
  | None => OK (toplevel, quoted)
  | Some p =>
      match quote_parent p with
      | None => OK (toplevel ++ [scope_id p], quoted)
      | Some quote_id =>
          match JSArray.get quoted quote_id with
          | Some l => OK (toplevel, JSArray.store quoted quote_id (l ++ [scope_id p]))
          | None => Throw TypeError
          end
      end
  end.

Fixpoint insert_procs (st : grouping) (procs : list (option Proc))
    : result grouping :=
  match procs with
  | [] => OK st
  | proc :: rest =>
      match insert_proc st proc with
      | OK st' => insert_procs st' rest
      | Throw e => Throw e
      end
  end.

Definition group_by_prog (procs : list (option Proc)) (progs : list (option Prog))
    (scopes : list (option nat)) : result grouping :=
  insert_procs ([], init_quoted progs) procs.

(** ** Type environments and the type table *)

(** The fields of a type environment that [sugar.ts] reads: plain objects
    used as maps from names, the map holding the own properties. *)
Record TypeEnv (Ty : Type) : Type := mkTypeEnv {
  stack : list (gmap string Ty);
  externs : gmap string Ty;
}.
Arguments mkTypeEnv {Ty} stack externs.
Arguments stack {Ty} _.
Arguments externs {Ty} _.

(** The properties that every plain object inherits from
    [Object.prototype]. *)
Definition Object_prototype : list string :=
  [ "constructor"; "hasOwnProperty"; "isPrototypeOf"; "propertyIsEnumerable";
    "toLocaleString"; "toString"; "valueOf"; "__proto__";
    "__defineGetter__"; "__defineSetter__";
    "__lookupGetter__"; "__lookupSetter__" ].

(** [key in obj] on a plain object: true of an own property and of an
    inherited one. *)
Definition js_in {V} (key : string) (obj : gmap string V) : Prop :=
  key ∈ dom obj ∨ key ∈ Object_prototype.

#[global] Instance js_in_dec {V} (key : string) (obj : gmap string V) :
  Decision (js_in key obj).
Proof. unfold js_in. apply _. Defined.

(** [TypeTable]: an array indexed by node identity whose entries are pairs
    [[Type, TypeEnv]]; the environment of an intrinsic is [null]. *)
Abbreviation TypeTable Ty := (list (option (Ty * option (TypeEnv Ty)))).

(** Computations that read and extend the shared type table and may throw. *)
Definition M (Ty A : Type) : Type := TypeTable Ty → result (A * TypeTable Ty).

Definition ret {Ty A} (a : A) : M Ty A := λ tt, OK (a, tt).

Definition bind {Ty A B} (m : M Ty A) (f : A → M Ty B) : M Ty B :=
  λ tt, match m tt with
        | OK (a, tt') => f a tt'
        | Throw e => Throw e
        end.

Definition throw {Ty A} (e : error) : M Ty A := λ _, Throw e.

Declare Scope M_scope.
Delimit Scope M_scope with M.
Notation "x <- m ;; k" := (bind m (λ x, k))
  (at level 100, m at next level, right associativity) : M_scope.

Fixpoint mapM {Ty A B} (f : A → M Ty B) (l : list A) : M Ty (list B) :=
  match l with
  | [] => ret []
  | x :: xs => (y <- f x ;; ys <- mapM f xs ;; ret (y :: ys))%M
  end.

(** [let [type, env] = type_table[tree.id]]: destructuring [undefined]
    throws. *)
Definition type_table_get {Ty} (i : option nat) : M Ty (Ty * option (TypeEnv Ty)) :=
  λ tt, match i with
        | Some n =>
            match JSArray.get tt n with
            | Some entry => OK (entry, tt)
            | None => Throw TypeError
            end
        | None => Throw TypeError
        end.

(** Reading a field of [env]: throws when [env] is [null]. *)
Definition nonnull {Ty A} (o : option A) : M Ty A :=
  match o with
  | Some a => ret a
  | None => throw TypeError
  end.

(** ** Helpers that the passes import *)

(** Modelled from the spec: [stack_lookup] of util.ts is missing from the
    sources.  Section 4.1: the stage distance of a name is found by looking
    it up in the captured stage environment, distance 0 when it is bound in
    the current stage and distance k when it is bound k stages outward.  The
    result is the pair [[value, index]] that the callers destructure.  A
    name that no stage binds does not make the helper throw: its caller in
    the GLSL type mixin tests the value it gets back against [undefined]
    ([t !== undefined && pos > 0]), so the pair is returned then as well,
    with nothing in it. *)
Fixpoint stack_lookup {T} (mapstack : list (gmap string T)) (ident : string)
    : option T * option nat :=
  match mapstack with
  | [] => (None, None)
  | map :: rest =>
      match map !! ident with
      | Some value => (Some value, Some 0)
      | None =>
          let found := stack_lookup rest ident in
          (found.1, S <$> found.2)
      end
  end.

(** [index > 0] on a number that may be [undefined]: a comparison with
    [undefined] is false. *)
Definition greater_than_0 (index : option nat) : bool :=
  match index with
  | Some n => bool_decide (0 < n)
  | None => false
  end.

(** Modelled from the spec: [gen_translate] / [ast_translate_rules] of
    visit.ts are missing from the sources.  Section 4.1: the shared base
    traversal copies a node, recursing into its children (through [fself])
    unless a pass overrides the node kind.  A copy keeps the identity. *)
Definition gen_translate {Ty} (fself : SyntaxNode → M Ty SyntaxNode)
    (tree : SyntaxNode) : M Ty SyntaxNode :=
  match tree with
  | LiteralNode i v => ret (LiteralNode i v)
  | SeqNode i l r =>
      (l' <- fself l ;; r' <- fself r ;; ret (SeqNode i l' r'))%M
  | LetNode i x e => (e' <- fself e ;; ret (LetNode i x e'))%M
  | AssignNode i x e => (e' <- fself e ;; ret (AssignNode i x e'))%M
  | LookupNode i x => ret (LookupNode i x)
  | UnaryNode i op e => (e' <- fself e ;; ret (UnaryNode i op e'))%M
  | BinaryNode i op l r =>
      (l' <- fself l ;; r' <- fself r ;; ret (BinaryNode i op l' r'))%M
  | QuoteNode i e ann => (e' <- fself e ;; ret (QuoteNode i e' ann))%M
  | EscapeNode i k e n => (e' <- fself e ;; ret (EscapeNode i k e' n))%M
  | RunNode i e => (e' <- fself e ;; ret (RunNode i e'))%M
  | FunNode i ps b => (b' <- fself b ;; ret (FunNode i ps b'))%M
  | CallNode i f args =>
      (args' <- mapM fself args ;; f' <- fself f ;; ret (CallNode i f' args'))%M
  | ExternNode i n x => ret (ExternNode i n x)
  | PersistNode i n => ret (PersistNode i n)
  | MacroCallNode i m args =>
      (args' <- mapM fself args ;; ret (MacroCallNode i m args'))%M
  end.

(** Modelled from the spec: [ast_fold_rules] of visit.ts is missing from the
    sources.  Sections 2 and 4.4: a fold walks the tree once, threading the
    accumulator through the children of every node (through [fself]); a leaf
    hands the accumulator back as it is. *)
Definition ast_fold_rules {T} (fself : SyntaxNode → T → T)
    (tree : SyntaxNode) (p : T) : T :=
  match tree with
  | LiteralNode _ _ | LookupNode _ _ | ExternNode _ _ _ | PersistNode _ _ => p
  | SeqNode _ l r | BinaryNode _ _ l r => fself r (fself l p)
  | LetNode _ _ e | AssignNode _ _ e | UnaryNode _ _ e | QuoteNode _ e _
  | EscapeNode _ _ e _ | RunNode _ e => fself e p
  | FunNode _ _ b => fself b p
  | CallNode _ f args => fself f (foldl (λ p1 arg, fself arg p1) p args)
  | MacroCallNode _ _ args => foldl (λ p1 arg, fself arg p1) p args
  end.

(** ** The elaborator's entry point for synthesized subtrees *)

(** Fresh identities for a synthesized subtree: consecutive numbers from
    [start], each node before its children.  Returns the stamped tree and
    the next unused number. *)
Definition stamp_params (ps : list ParamNode) (start : nat) : list ParamNode * nat :=
  (imap (λ k p, mkParam (Some (start + k)) (param_name p)) ps, start + length ps).

Fixpoint stamp (tree : SyntaxNode) (start : nat) : SyntaxNode * nat :=
  let stamp_list := fix go (l : list SyntaxNode) (n : nat) : list SyntaxNode * nat :=
    match l with
    | [] => ([], n)
    | t :: ts => let '(t', n1) := stamp t n in
                 let '(ts', n2) := go ts n1 in (t' :: ts', n2)
    end in
  let i := Some start in
  let n := S start in
  match tree with
  | LiteralNode _ v => (LiteralNode i v, n)
  | SeqNode _ l r =>
      let '(l', n1) := stamp l n in
      let '(r', n2) := stamp r n1 in (SeqNode i l' r', n2)
  | LetNode _ x e => let '(e', n1) := stamp e n in (LetNode i x e', n1)
  | AssignNode _ x e => let '(e', n1) := stamp e n in (AssignNode i x e', n1)
  | LookupNode _ x => (LookupNode i x, n)
  | UnaryNode _ op e => let '(e', n1) := stamp e n in (UnaryNode i op e', n1)
  | BinaryNode _ op l r =>
      let '(l', n1) := stamp l n in
      let '(r', n2) := stamp r n1 in (BinaryNode i op l' r', n2)
  | QuoteNode _ e ann => let '(e', n1) := stamp e n in (QuoteNode i e' ann, n1)
  | EscapeNode _ k e c => let '(e', n1) := stamp e n in (EscapeNode i k e' c, n1)
  | RunNode _ e => let '(e', n1) := stamp e n in (RunNode i e', n1)
  | FunNode _ ps b =>
      let '(ps', n1) := stamp_params ps n in
      let '(b', n2) := stamp b n1 in (FunNode i ps' b', n2)
  | CallNode _ f args =>
      let '(f', n1) := stamp f n in
      let '(args', n2) := stamp_list args n1 in (CallNode i f' args', n2)
  | ExternNode _ nm x => (ExternNode i nm x, n)
  | PersistNode _ ix => (PersistNode i ix, n)
  | MacroCallNode _ m args =>
      let '(args', n1) := stamp_list args n in (MacroCallNode i m args', n1)
  end.

(** The checker handed to the passes ([check: Gen<TypeCheck>]), seen through
    the elaborator: for a stamped subtree and the environment it is to be
    elaborated in, the (type, captured environment) resolved for each of its
    identities in allocation order, or the failure it raises. *)
Abbreviation TypeCheck Ty :=
  (SyntaxNode → TypeEnv Ty → result (list (Ty * TypeEnv Ty))).

(** Modelled from the spec: [elaborate_subtree] of type_elaborate.ts is
    missing from the sources.  Sections 3, 5 and 6: the elaborator gives the
    nodes of a synthesized subtree fresh identities (monotonically allocated,
    never reused), resolves a type and a captured environment for each, and
    appends them to the type table, never overwriting or removing an entry;
    section 7: a failure it raises is propagated. *)
Definition elaborate_subtree {Ty} (tree : SyntaxNode) (env : TypeEnv Ty)
    (check : TypeCheck Ty) : M Ty SyntaxNode :=
  λ type_table,
    let stamped := (stamp tree (length type_table)).1 in
    match check stamped env with
    | OK entries =>
        OK (stamped, type_table ++ ((λ te, Some (te.1, Some te.2)) <$> entries))
    | Throw e => Throw e
    end.

(** ** Desugaring ([sugar.ts]) *)

Definition is_lookup (tree : SyntaxNode) : bool :=
  match tree with LookupNode _ _ => true | _ => false end.

(** The inheritance layer that desugars auto-persists.  The type table that
    the source closes over is the state of [M]. *)
Definition gen_desugar_cross_stage {Ty} (check : TypeCheck Ty)
    (fsuper : SyntaxNode → M Ty SyntaxNode) (tree : SyntaxNode) : M Ty SyntaxNode :=
  match tree with
  | LookupNode i ident =>
      (entry <- type_table_get i ;;
       env <- nonnull entry.2 ;;
       if decide (js_in ident (externs env)) then    (* [tree.ident in env.externs] *)
         (* Extern accesses are not desugared. *)
         fsuper tree
       else
         let index := (stack_lookup (stack env) ident).2 in
         if decide (index = Some 0) then    (* [index === 0] *)
           (* A variable from the current stage. *)
           fsuper tree
         else
           (* A persist escape that looks up [index] stages. *)
           let lookup := LookupNode None ident in
           let escape := EscapeNode None "persist" lookup index in
           elaborate_subtree escape env check)%M
  | _ => fsuper tree
  end.

(** [fix(compose(gen_desugar_cross_stage(type_table, check), gen_translate))] *)
Fixpoint desugar_cross_stage {Ty} (check : TypeCheck Ty) (tree : SyntaxNode)
    {struct tree} : M Ty SyntaxNode :=
  gen_desugar_cross_stage check (gen_translate (desugar_cross_stage check)) tree.

(** The rule for macro invocations.  (The source also logs the node and the
    table to the console.) *)
Definition visit_macrocall {Ty} (check : TypeCheck Ty)
    (i : option nat) (macro : string) : M Ty SyntaxNode :=
  (entry <- type_table_get i ;;
   env <- nonnull entry.2 ;;
   let index := (stack_lookup (stack env) macro).2 in
   let call := CallNode None (LookupNode None macro) [] in
   let out := if greater_than_0 index    (* [index > 0] *)
              then EscapeNode None "splice" call index
              else call in
   elaborate_subtree out env check)%M.

(** [compose_visit(ast_translate_rules(fself), { visit_macrocall })] *)
Definition macro_rules {Ty} (check : TypeCheck Ty)
    (fself : SyntaxNode → M Ty SyntaxNode) (tree : SyntaxNode) : M Ty SyntaxNode :=
  match tree with
  | MacroCallNode i macro _ => visit_macrocall check i macro
  | _ => gen_translate fself tree
  end.

Fixpoint _desugar_macros {Ty} (check : TypeCheck Ty) (tree : SyntaxNode)
    {struct tree} : M Ty SyntaxNode :=
  macro_rules check (_desugar_macros check) tree.

Definition desugar_macros {Ty} (tree : SyntaxNode) (type_table : TypeTable Ty)
    (check : TypeCheck Ty) : result (SyntaxNode * TypeTable Ty) :=
  _desugar_macros check tree type_table.

(** ** Finding externs ([gen_find_externs]) *)

(** [a || b] on strings: [a] when it is a non-empty string, [b] when [a] is
    undefined, null or empty. *)
Definition js_or (a : option string) (b : string) : string :=
  match a with
  | Some s => if decide (s = "") then b else s
  | None => b
  end.

(** The rule for extern nodes, on array values.  An undefined [id] names a
    property of the array object and no slot of it. *)
Definition visit_extern (i : option nat) (name : string)
    (expansion : option string) (externs : list (option string))
    : list (option string) :=
  let e := externs in   (* [externs.slice(0)] *)
  match i with
  | Some n => JSArray.store e n (js_or expansion name)
  | None => e
  end.

Definition gen_find_externs
    (fself : SyntaxNode → list (option string) → list (option string))
    (tree : SyntaxNode) (externs : list (option string)) : list (option string) :=
  match tree with
  | ExternNode i name expansion => visit_extern i name expansion externs
  | _ => ast_fold_rules fself tree externs
  end.

(** [let find_externs = fix(gen_find_externs)] *)
Fixpoint find_externs (tree : SyntaxNode) {struct tree}
    : list (option string) → list (option string) :=
  gen_find_externs find_externs tree.

(** *** The same fold over array references

    To speak about which array object is written, arrays live in a heap
    and the fold passes references.  An accumulator is a computation that
    yields the reference, so that [ast_fold_rules] is used as it is. *)
Abbreviation heap := (gmap nat (list (option string))).

Definition Ref : Type := heap → nat * heap.

Definition ref_ret (r : nat) : Ref := λ h, (r, h).

(** [a.slice(0)]: a new array object with the slots of [a]. *)
Definition slice0 (r : nat) (h : heap) : nat * heap :=
  let r' := fresh (dom h) in
  (r', <[r' := default [] (h !! r)]> h).

(** [e[i] = v] on the array object that [e] refers to. *)
Definition store_at (e : nat) (i : nat) (v : string) (h : heap) : heap :=
  alter (λ a, JSArray.store a i v) e h.

Definition visit_extern_ref (i : option nat) (name : string)
    (expansion : option string) (externs : Ref) : Ref :=
  λ h,
    let '(r, h0) := externs h in
    let '(e, h1) := slice0 r h0 in
    match i with
    | Some n => (e, store_at e n (js_or expansion name) h1)
    | None => (e, h1)
    end.

Definition gen_find_externs_ref (fself : SyntaxNode → Ref → Ref)
    (tree : SyntaxNode) (externs : Ref) : Ref :=
  match tree with
  | ExternNode i name expansion => visit_extern_ref i name expansion externs
  | _ => ast_fold_rules fself tree externs
  end.

Fixpoint find_externs_ref (tree : SyntaxNode) {struct tree} : Ref → Ref :=
  gen_find_externs_ref find_externs_ref tree.

(** ** Semantic analysis ([semantically_analyze]) *)

(** A JavaScript object used as a map from names: its own properties in
    enumeration order, with distinct keys. *)
Fixpoint obj_set {V} (o : list (string * V)) (k : string) (v : V)
    : list (string * V) :=
  match o with
  | [] => [(k, v)]
  | (k', v') :: o' =>
      if decide (k' = k) then (k, v) :: o' else (k', v') :: obj_set o' k v
  end.

(** The object that [semantically_analyze] returns.  [ir.ts] declares
    [defuse], [procs], [main], [progs], [type_table] and [externs].  The
    tables indexed by identity are arrays with holes; [toplevel_procs] and
    the lists inside [quoted_procs] are dense lists of identities, an
    identity being null for the top level. *)
Record CompilerIR (Ty : Type) : Type := mkIR {
  ir_defuse : list (option nat);
  ir_procs : list (option Proc);
  ir_progs : list (option Prog);
  ir_main : Proc;
  ir_toplevel_procs : list (option nat);
  ir_quoted_procs : list (option (list (option nat)));
  ir_type_table : TypeTable Ty;
  ir_externs : list (option string);
  ir_scopes : list (option nat);
}.
Arguments mkIR {Ty}.
Arguments ir_defuse {Ty} _.
Arguments ir_procs {Ty} _.
Arguments ir_progs {Ty} _.
Arguments ir_main {Ty} _.
Arguments ir_toplevel_procs {Ty} _.
Arguments ir_quoted_procs {Ty} _.
Arguments ir_type_table {Ty} _.
Arguments ir_externs {Ty} _.
Arguments ir_scopes {Ty} _.

(** Give IDs to the intrinsics and add them to the type table. *)
Definition register_intrinsic {Ty}
    (st : TypeTable Ty * list (string * nat)) (intrinsic : string * Ty)
    : TypeTable Ty * list (string * nat) :=
  let id := length st.1 in
  (JSArray.store st.1 id (intrinsic.2, None), obj_set st.2 intrinsic.1 id).

Definition register_intrinsics {Ty} (type_table : TypeTable Ty)
    (intrinsics : list (string * Ty)) : TypeTable Ty * list (string * nat) :=
  foldl register_intrinsic (type_table, []) intrinsics.

(** Add the intrinsics to the extern map. *)
Definition add_intrinsics (externs : list (option string))
    (intrinsics_map : list (string * nat)) : list (option string) :=
  foldl (λ e entry, JSArray.store e entry.2 entry.1) externs intrinsics_map.

Definition lifted : Type :=
  (list (option Proc) * Proc * list (option Prog))%type.

Section analysis.
Context {Ty : Type}.

(** The passes of [compile/scope.ts], [compile/defuse.ts] and
    [compile/lift.ts] and [index_tree], which the sources do not include;
    any of them may throw. *)
Variable find_scopes : SyntaxNode → result (list (option nat)).
Variable find_def_use :
  SyntaxNode → list (string * nat) → result (list (option nat)).
Variable index_tree : SyntaxNode → result (list (option SyntaxNode)).
Variable lift :
  SyntaxNode → list (option nat) → list (option nat) →
  list (option SyntaxNode) → result lifted.

Definition semantically_analyze (tree : SyntaxNode)
    (type_table : TypeTable Ty) (intrinsics : list (string * Ty))
    : result (CompilerIR Ty) :=
  let '(type_table, intrinsics_map) :=
    register_intrinsics type_table intrinsics in
  match find_scopes tree with
  | Throw e => Throw e
  | OK scopes =>
  match find_def_use tree intrinsics_map with
  | Throw e => Throw e
  | OK defuse =>
  let externs := find_externs tree [] in
  let externs := add_intrinsics externs intrinsics_map in
  match index_tree tree with
  | Throw e => Throw e
  | OK index =>
  match lift tree defuse scopes index with
  | Throw e => Throw e
  | OK (procs, main, progs) =>
  match group_by_prog procs progs scopes with
  | Throw e => Throw e
  | OK (toplevel_procs, quoted_procs) =>
      OK (mkIR defuse procs progs main toplevel_procs quoted_procs
               type_table externs scopes)
  end end end end end.
End analysis.

(** ** Vocabulary of the statements about grouping *)

(** The identities of the defined procedures, in array order. *)
Definition proc_ids (procs : list (option Proc)) : list (option nat) :=
  (λ p : Proc, scope_id p) <$> JSArray.defined procs.

(** The identities of the defined staged programs. *)
Definition prog_ids (progs : list (option Prog)) : list nat :=
  omap (λ p : Prog, scope_id p) (JSArray.defined progs).

(** The identities of the procedures without a quote parent, and of those
    whose quote parent is [q], in array order. *)
Definition toplevel_of (procs : list (option Proc)) : list (option nat) :=
  (λ p : Proc, scope_id p)
    <$> filter (λ p : Proc, quote_parent p = None) (JSArray.defined procs).

Definition quoted_of (q : nat) (procs : list (option Proc)) : list (option nat) :=
  (λ p : Proc, scope_id p)
    <$> filter (λ p : Proc, quote_parent p = Some q) (JSArray.defined procs).

(** The quote parent of a procedure, when it has one, is the identity of a
    defined staged program; and so for every defined procedure. *)
Definition quote_parent_known (progs : list (option Prog)) (p : Proc) : Prop :=
  match quote_parent p with
  | Some q => q ∈ prog_ids progs
  | None => True
  end.

#[global] Instance quote_parent_known_dec progs p :
  Decision (quote_parent_known progs p).
Proof. unfold quote_parent_known. destruct (quote_parent p); apply _. Defined.

Definition quote_parents_known (procs : list (option Proc))
    (progs : list (option Prog)) : Prop :=
  Forall (quote_parent_known progs) (JSArray.defined procs).

(** ** Vocabulary of the statements about trees *)

(** The children of a node, and all the nodes of a tree (the tree itself
    first). *)
Definition child_nodes (tree : SyntaxNode) : list SyntaxNode :=
  match tree with
  | LiteralNode _ _ | LookupNode _ _ | ExternNode _ _ _ | PersistNode _ _ => []
  | SeqNode _ l r | BinaryNode _ _ l r => [l; r]
  | LetNode _ _ e | AssignNode _ _ e | UnaryNode _ _ e | QuoteNode _ e _
  | EscapeNode _ _ e _ | RunNode _ e => [e]
  | FunNode _ _ b => [b]
  | CallNode _ f args => f :: args
  | MacroCallNode _ _ args => args
  end.

Fixpoint nodes (tree : SyntaxNode) : list SyntaxNode :=
  tree ::
  match tree with
  | LiteralNode _ _ | LookupNode _ _ | ExternNode _ _ _ | PersistNode _ _ => []
  | SeqNode _ l r | BinaryNode _ _ l r => nodes l ++ nodes r
  | LetNode _ _ e | AssignNode _ _ e | UnaryNode _ _ e | QuoteNode _ e _
  | EscapeNode _ _ e _ | RunNode _ e => nodes e
  | FunNode _ _ b => nodes b
  | CallNode _ f args => nodes f ++ (args ≫= nodes)
  | MacroCallNode _ _ args => args ≫= nodes
  end.

(** Induction on trees: a property holds of every tree when it holds of a
    node whose children have it. *)
Section SyntaxNode_children_ind.
Variable P : SyntaxNode → Prop.
Hypothesis step : ∀ tree, Forall P (child_nodes tree) → P tree.

Fixpoint SyntaxNode_children_ind (tree : SyntaxNode) : P tree :=
  let all := fix all (l : list SyntaxNode) : Forall P l :=
    match l with
    | [] => Forall_nil_2 P
    | t :: ts => Forall_cons_2 P t ts (SyntaxNode_children_ind t) (all ts)
    end in
  step tree
    match tree return Forall P (child_nodes tree) with
    | LiteralNode _ _ | LookupNode _ _ | ExternNode _ _ _ | PersistNode _ _ =>
        Forall_nil_2 P
    | SeqNode _ l r | BinaryNode _ _ l r =>
        Forall_cons_2 P _ _ (SyntaxNode_children_ind l)
          (Forall_cons_2 P _ _ (SyntaxNode_children_ind r) (Forall_nil_2 P))
    | LetNode _ _ e | AssignNode _ _ e | UnaryNode _ _ e | QuoteNode _ e _
    | EscapeNode _ _ e _ | RunNode _ e =>
        Forall_cons_2 P _ _ (SyntaxNode_children_ind e) (Forall_nil_2 P)
    | FunNode _ _ b =>
        Forall_cons_2 P _ _ (SyntaxNode_children_ind b) (Forall_nil_2 P)
    | CallNode _ f args =>
        Forall_cons_2 P _ _ (SyntaxNode_children_ind f) (all args)
    | MacroCallNode _ _ args => all args
    end.
End SyntaxNode_children_ind.

(** The identities of the extern nodes of a tree. *)
Definition extern_id (tree : SyntaxNode) : option nat :=
  match tree with
  | ExternNode i _ _ => i
  | _ => None
  end.

Definition extern_ids (tree : SyntaxNode) : list nat :=
  omap extern_id (nodes tree).

(** Array contents reachable before a call are reachable, unchanged, after
    it. *)
Definition heap_preserved (h h' : heap) : Prop :=
  ∀ r a, h !! r = Some a → h' !! r = Some a.

(** What a fold over references does on a tree: from a reference to an
    array it yields a reference to an array with the fold's result, and
    leaves every existing array as it was. *)
Definition ref_fold_ok (tree : SyntaxNode) : Prop :=
  ∀ (p : Ref) h r0 h0 a0,
    p h = (r0, h0) → h0 !! r0 = Some a0 →
    ∃ r1 h1,
      find_externs_ref tree p h = (r1, h1)
      ∧ heap_preserved h0 h1
      ∧ h1 !! r1 = Some (find_externs tree a0).

(** The children of a node in the order in which a fold visits them. *)
Definition fold_order (tree : SyntaxNode) : list SyntaxNode :=
  match tree with
  | CallNode _ f args => args ++ [f]
  | _ => child_nodes tree
  end.

(** A node with its children replaced, the children given in the order in
    which a traversal visits them. *)
Definition rebuild (tree : SyntaxNode) (cs : list SyntaxNode) : SyntaxNode :=
  match tree, cs with
  | SeqNode i _ _, [l; r] => SeqNode i l r
  | LetNode i x _, [e] => LetNode i x e
  | AssignNode i x _, [e] => AssignNode i x e
  | UnaryNode i op _, [e] => UnaryNode i op e
  | BinaryNode i op _ _, [l; r] => BinaryNode i op l r
  | QuoteNode i _ ann, [e] => QuoteNode i e ann
  | EscapeNode i k _ n, [e] => EscapeNode i k e n
  | RunNode i _, [e] => RunNode i e
  | FunNode i ps _, [b] => FunNode i ps b
  | CallNode i _ _, _ =>
      match reverse cs with
      | f :: rargs => CallNode i f (reverse rargs)
      | [] => tree
      end
  | MacroCallNode i m _, _ => MacroCallNode i m cs
  | _, _ => tree
  end.

(** ** The rewrites as the specification words them *)

(** A node with a function applied to each child. *)
Definition map_children (f : SyntaxNode → SyntaxNode) (tree : SyntaxNode)
    : SyntaxNode :=
  match tree with
  | LiteralNode _ _ | LookupNode _ _ | ExternNode _ _ _ | PersistNode _ _ => tree
  | SeqNode i l r => SeqNode i (f l) (f r)
  | LetNode i x e => LetNode i x (f e)
  | AssignNode i x e => AssignNode i x (f e)
  | UnaryNode i op e => UnaryNode i op (f e)
  | BinaryNode i op l r => BinaryNode i op (f l) (f r)
  | QuoteNode i e ann => QuoteNode i (f e) ann
  | EscapeNode i k e n => EscapeNode i k (f e) n
  | RunNode i e => RunNode i (f e)
  | FunNode i ps b => FunNode i ps (f b)
  | CallNode i fn args => CallNode i (f fn) (f <$> args)
  | MacroCallNode i m args => MacroCallNode i m (f <$> args)
  end.

(** A node with its own identity replaced. *)
Definition with_id (i : option nat) (tree : SyntaxNode) : SyntaxNode :=
  match tree with
  | LiteralNode _ v => LiteralNode i v
  | SeqNode _ l r => SeqNode i l r
  | LetNode _ x e => LetNode i x e
  | AssignNode _ x e => AssignNode i x e
  | LookupNode _ x => LookupNode i x
  | UnaryNode _ op e => UnaryNode i op e
  | BinaryNode _ op l r => BinaryNode i op l r
  | QuoteNode _ e ann => QuoteNode i e ann
  | EscapeNode _ k e n => EscapeNode i k e n
  | RunNode _ e => RunNode i e
  | FunNode _ ps b => FunNode i ps b
  | CallNode _ fn args => CallNode i fn args
  | ExternNode _ n x => ExternNode i n x
  | PersistNode _ n => PersistNode i n
  | MacroCallNode _ m args => MacroCallNode i m args
  end.

(** Forgetting the identities that were allocated at or after [n]: the
    nodes of a tree that the elaborator stamped after the table had [n]
    slots become nodes without an identity again. *)
Definition forget_from (n : nat) (i : option nat) : option nat :=
  match i with
  | Some k => if decide (k < n) then Some k else None
  | None => None
  end.

Fixpoint erase_from (n : nat) (tree : SyntaxNode) : SyntaxNode :=
  with_id (forget_from n (node_id tree)) (map_children (erase_from n) tree).

(** Every node of the tree has an identity below [n]: the tree was
    elaborated into a table with [n] slots. *)
Definition ids_below (n : nat) (tree : SyntaxNode) : Prop :=
  Forall (λ node, ∃ i, node_id node = Some i ∧ i < n) (nodes tree).

(** The environment captured for an identity. *)
Definition env_at {Ty} (tt : TypeTable Ty) (i : option nat) : option (TypeEnv Ty) :=
  match i with
  | Some n =>
      match JSArray.get tt n with
      | Some entry => entry.2
      | None => None
      end
  | None => None
  end.

(** The stage distance of a name in an environment, when it is bound. *)
Definition stage_distance {Ty} (env : TypeEnv Ty) (ident : string) : option nat :=
  (stack_lookup (stack env) ident).2.

(** The nodes that the desugarer synthesizes, before elaboration. *)
Definition persist_escape (ident : string) (k : nat) : SyntaxNode :=
  EscapeNode None "persist" (LookupNode None ident) (Some k).

Definition macro_call (macro : string) : SyntaxNode :=
  CallNode None (LookupNode None macro) [].

Definition splice_escape (macro : string) (k : nat) : SyntaxNode :=
  EscapeNode None "splice" (macro_call macro) (Some k).

(** What macro expansion hands to the elaborator at distance [k]. *)
Definition macro_out (macro : string) (k : nat) : SyntaxNode :=
  if decide (0 < k) then splice_escape macro k else macro_call macro.

(** Auto-persist, section 4.1: external references are never rewritten,
    distance 0 is left unchanged, distance k > 0 becomes a persist escape
    with count k wrapping the read.  An external reference is a name that the
    environment declares external.  (A read without an environment or
    without a distance is left as it is here.) *)
Definition auto_persist_lookup {Ty} (tt : TypeTable Ty)
    (i : option nat) (ident : string) : SyntaxNode :=
  match env_at tt i with
  | Some env =>
      if decide (ident ∈ dom (externs env)) then LookupNode i ident
      else match stage_distance env ident with
           | Some (S k) => persist_escape ident (S k)
           | _ => LookupNode i ident
           end
  | None => LookupNode i ident
  end.

Fixpoint auto_persist {Ty} (tt : TypeTable Ty) (tree : SyntaxNode) : SyntaxNode :=
  match tree with
  | LookupNode i ident => auto_persist_lookup tt i ident
  | _ => map_children (auto_persist tt) tree
  end.

(** Macro expansion, section 4.1: the invocation becomes a zero-argument
    call to the macro's name, left as it is at distance 0 and wrapped in a
    splice escape with count k at distance k > 0; without a distance there is
    nothing to wrap the call in.  (An invocation without an environment is
    left as it is here.) *)
Definition expand_macrocall {Ty} (tt : TypeTable Ty)
    (i : option nat) (macro : string) (args : list SyntaxNode) : SyntaxNode :=
  match env_at tt i with
  | Some env =>
      match stage_distance env macro with
      | Some 0 => macro_call macro
      | Some (S k) => splice_escape macro (S k)
      | None => macro_call macro
      end
  | None => MacroCallNode i macro args
  end.

Fixpoint expand_macros {Ty} (tt : TypeTable Ty) (tree : SyntaxNode) : SyntaxNode :=
  match tree with
  | MacroCallNode i macro args => expand_macrocall tt i macro args
  | _ => map_children (expand_macros tt) tree
  end.

(** The macro invocations that the macro pass comes to: those that are not
    inside the arguments of another invocation. *)
Fixpoint macro_sites (tree : SyntaxNode) : list SyntaxNode :=
  match tree with
  | MacroCallNode _ _ _ => [tree]
  | LiteralNode _ _ | LookupNode _ _ | ExternNode _ _ _ | PersistNode _ _ => []
  | SeqNode _ l r | BinaryNode _ _ l r => macro_sites l ++ macro_sites r
  | LetNode _ _ e | AssignNode _ _ e | UnaryNode _ _ e | QuoteNode _ e _
  | EscapeNode _ _ e _ | RunNode _ e => macro_sites e
  | FunNode _ _ b => macro_sites b
  | CallNode _ f args => macro_sites f ++ (args ≫= macro_sites)
  end.

(** The type table only grows: every recorded entry is still there, under
    the same identity. *)
Definition table_grows {Ty} (tt tt' : TypeTable Ty) : Prop :=
  ∀ n entry, JSArray.get tt n = Some entry → JSArray.get tt' n = Some entry.

Definition is_macrocall (tree : SyntaxNode) : bool :=
  match tree with MacroCallNode _ _ _ => true | _ => false end.

(** A read that auto-persist leaves alone: an external reference, or a
    name bound in the current stage. *)
Definition current_stage_read {Ty} (tt : TypeTable Ty) (node : SyntaxNode) : Prop :=
  ∀ i x, node = LookupNode i x →
    ∃ env, env_at tt i = Some env ∧
      (x ∈ dom (externs env) ∨ stage_distance env x = Some 0).

(** A read of a name that is not external and is bound in the current
    stage. *)
Definition stage0_read {Ty} (tt : TypeTable Ty) (node : SyntaxNode) : Prop :=
  ∀ i x, node = LookupNode i x →
    ∃ env, env_at tt i = Some env ∧
      (x ∉ dom (externs env)) ∧ stage_distance env x = Some 0.


(** ** Sample programs *)

Module Sample.
(** Types are named by strings in the samples. *)

(** [< let y = 1; y + x >] with [x] bound one stage out: the environment
    outside the quotation and the one inside it. *)
Definition env_out : TypeEnv string :=
  mkTypeEnv [ {[ "x" := "Int" ]} ] {[ "f" := "Int -> Int" ]}.
Definition env_in : TypeEnv string :=
  mkTypeEnv [ {[ "y" := "Int" ]}; {[ "x" := "Int" ]} ] {[ "f" := "Int -> Int" ]}.

Definition quote_tree : SyntaxNode :=
  QuoteNode (Some 0)
    (SeqNode (Some 1)
       (LetNode (Some 2) "y" (LiteralNode (Some 3) 1))
       (BinaryNode (Some 4) "+" (LookupNode (Some 5) "y") (LookupNode (Some 6) "x")))
    "".

Definition quote_table : TypeTable string :=
  [ Some ("<Int>", Some env_out);
    Some ("Int", Some env_in); Some ("Int", Some env_in);
    Some ("Int", Some env_in); Some ("Int", Some env_in);
    Some ("Int", Some env_in); Some ("Int", Some env_in) ].

(** What auto-persist makes of it with [check_int] below: the read of
    [x] becomes a persist escape with count 1, stamped 7 and 8, and the
    table gets an entry for each. *)
Definition quote_tree_desugared : SyntaxNode :=
  QuoteNode (Some 0)
    (SeqNode (Some 1)
       (LetNode (Some 2) "y" (LiteralNode (Some 3) 1))
       (BinaryNode (Some 4) "+" (LookupNode (Some 5) "y")
          (EscapeNode (Some 7) "persist" (LookupNode (Some 8) "x") (Some 1))))
    "".

Definition quote_table_desugared : TypeTable string :=
  quote_table ++ [ Some ("Int", Some env_in); Some ("Int", Some env_in) ].

(** The same body with the outer read left out. *)
Definition stage0_tree : SyntaxNode :=
  QuoteNode (Some 0)
    (SeqNode (Some 1)
       (LetNode (Some 2) "y" (LiteralNode (Some 3) 1))
       (BinaryNode (Some 4) "+" (LookupNode (Some 5) "y") (LookupNode (Some 6) "y")))
    "".

(** The same quotation reading [toString] where it read [x], with
    [toString] bound one stage out as [x] was: [var toString = 1;
    < let y = 1; y + toString >]. *)
Definition inherited_env_out : TypeEnv string :=
  mkTypeEnv [ {[ "toString" := "Int" ]} ] {[ "f" := "Int -> Int" ]}.
Definition inherited_env_in : TypeEnv string :=
  mkTypeEnv [ {[ "y" := "Int" ]}; {[ "toString" := "Int" ]} ]
    {[ "f" := "Int -> Int" ]}.

Definition inherited_tree : SyntaxNode :=
  QuoteNode (Some 0)
    (SeqNode (Some 1)
       (LetNode (Some 2) "y" (LiteralNode (Some 3) 1))
       (BinaryNode (Some 4) "+" (LookupNode (Some 5) "y")
          (LookupNode (Some 6) "toString")))
    "".

Definition inherited_table : TypeTable string :=
  [ Some ("<Int>", Some inherited_env_out);
    Some ("Int", Some inherited_env_in); Some ("Int", Some inherited_env_in);
    Some ("Int", Some inherited_env_in); Some ("Int", Some inherited_env_in);
    Some ("Int", Some inherited_env_in); Some ("Int", Some inherited_env_in) ].

(** The tree with that read rewritten into a persist escape with
    count 1. *)
Definition inherited_tree_persisted : SyntaxNode :=
  QuoteNode (Some 0)
    (SeqNode (Some 1)
       (LetNode (Some 2) "y" (LiteralNode (Some 3) 1))
       (BinaryNode (Some 4) "+" (LookupNode (Some 5) "y")
          (EscapeNode None "persist" (LookupNode None "toString") (Some 1))))
    "".

(** A macro [m] bound at the outer stage, invoked inside the quotation and
    at the top level. *)
Definition macro_env_out : TypeEnv string :=
  mkTypeEnv [ {[ "m" := "Macro" ]} ] ∅.
Definition macro_env_in : TypeEnv string :=
  mkTypeEnv [ ∅; {[ "m" := "Macro" ]} ] ∅.

Definition macro_tree : SyntaxNode :=
  SeqNode (Some 0)
    (MacroCallNode (Some 1) "m" [])
    (QuoteNode (Some 2) (MacroCallNode (Some 3) "m" [LiteralNode (Some 4) 7]) "").

Definition macro_table : TypeTable string :=
  [ Some ("Int", Some macro_env_out); Some ("Int", Some macro_env_out);
    Some ("<Int>", Some macro_env_out);
    Some ("Int", Some macro_env_in); Some ("Int", Some macro_env_in) ].

(** What macro expansion makes of it: a bare call at the top level
    (stamped 5 and 6), a splice escape with count 1 around the call inside
    the quotation (stamped 7, 8 and 9); the argument is dropped. *)
Definition macro_tree_desugared : SyntaxNode :=
  SeqNode (Some 0)
    (CallNode (Some 5) (LookupNode (Some 6) "m") [])
    (QuoteNode (Some 2)
       (EscapeNode (Some 7) "splice"
          (CallNode (Some 8) (LookupNode (Some 9) "m") []) (Some 1)) "").

Definition macro_table_desugared : TypeTable string :=
  macro_table
    ++ [ Some ("Int", Some macro_env_out); Some ("Int", Some macro_env_out) ]
    ++ [ Some ("Int", Some macro_env_in); Some ("Int", Some macro_env_in);
         Some ("Int", Some macro_env_in) ].

(** A checker that resolves every node of a synthesized subtree to [Int]
    in the environment it is given. *)
Definition check_int : TypeCheck string :=
  λ tree env, OK ((λ _, ("Int", env)) <$> nodes tree).

(** Two externs, the second renamed; one whose rename is empty. *)
Definition extern_tree : SyntaxNode :=
  SeqNode (Some 0)
    (ExternNode (Some 1) "sin" None)
    (ExternNode (Some 2) "abs" (Some "Math.abs")).

Definition empty_rename_tree : SyntaxNode :=
  ExternNode (Some 0) "f" (Some "").

Definition extern_table : TypeTable string :=
  [ Some ("Int", Some env_out); Some ("Int", Some env_out);
    Some ("Int", Some env_out) ].

Definition intrinsics : list (string * string) :=
  [ ("vtx", "<Int> -> Int"); ("frag", "<Int> -> Int") ].

(** Scopes, procedures and staged programs. *)
Definition scope (i q : option nat) (b : SyntaxNode) : Scope :=
  mkScope i b [] [] [] [] None [] q [].

Definition procs : list (option Proc) :=
  [ None;
    Some (mkProc (scope (Some 1) None (LiteralNode (Some 5) 0)) [4]);
    Some (mkProc (scope (Some 2) (Some 0) (LiteralNode (Some 6) 0)) []);
    None;
    Some (mkProc (scope (Some 4) (Some 0) (LiteralNode (Some 7) 0)) []) ].

Definition progs : list (option Prog) :=
  [ Some (mkProg (scope (Some 0) None (LiteralNode (Some 8) 0)) "");
    None; None;
    Some (mkProg (scope (Some 3) None (LiteralNode (Some 9) 0)) "s") ].

(** A procedure whose quote parent is not a staged program. *)
Definition orphan_procs : list (option Proc) :=
  [ Some (mkProc (scope (Some 1) (Some 5) (LiteralNode (Some 5) 0)) []) ].

(** Stand-ins for the passes that the sources do not include. *)
Definition no_scopes (tree : SyntaxNode) : result (list (option nat)) := OK [].
Definition no_def_use (tree : SyntaxNode) (intrinsics_map : list (string * nat))
    : result (list (option nat)) := OK [].
Definition no_index (tree : SyntaxNode) : result (list (option SyntaxNode)) :=
  OK [].
Definition main_proc (tree : SyntaxNode) : Proc :=
  mkProc (scope None None tree) [].
Definition lift_nothing (tree : SyntaxNode) (defuse scopes : list (option nat))
    (index : list (option SyntaxNode)) : result lifted :=
  OK ([], main_proc tree, []).
End Sample.

(** * The GLSL backend ([backends/glsl.ts])

    The backend reads the IR that the semantic analysis returns.  The
    helpers that it takes from [backends/emitutil.ts] ([emit_body],
    [indent], [paren]) and the constants [INT] and [FLOAT] of [type.ts] are
    parameters of the rules that use them. *)

(** ** Types, as the backend inspects them

    The backend tells types apart with [instanceof PrimitiveType] and
    [instanceof InstanceType], reads [name], [cons] and [arg], and compares
    type objects by reference.  A type object is created once where it is
    declared ([const FLOAT3 = new PrimitiveType("Float3")]); the embedding
    identifies a primitive type or a type constructor with its class and
    its name.  [OtherType] stands for the classes of type.ts that this file
    does not inspect. *)
Inductive Type_ : Type :=
  | PrimitiveType (name : string)
  | ConstructorType (name : string)
  | InstanceType (cons : Type_) (arg : Type_)
  | OtherType (n : nat).

#[global] Instance Type__eq_dec : EqDecision Type_.
Proof. solve_decision. Defined.

Definition FLOAT3 : Type_ := PrimitiveType "Float3".
Definition FLOAT4 : Type_ := PrimitiveType "Float4".
Definition FLOAT3X3 : Type_ := PrimitiveType "Float3x3".
Definition FLOAT4X4 : Type_ := PrimitiveType "Float4x4".
Definition ARRAY : Type_ := ConstructorType "Array".
Definition INT3 : Type_ := PrimitiveType "Int3".
Definition INT4 : Type_ := PrimitiveType "Int4".

Definition GL_TYPES : gmap string Type_ :=
  list_to_map
    [ ("Float3", FLOAT3); ("Float4", FLOAT4);
      ("Vec3", FLOAT3); ("Vec4", FLOAT4);
      ("Float3x3", FLOAT3X3); ("Float4x4", FLOAT4X4);
      ("Mat3", FLOAT3X3); ("Mat4", FLOAT4X4);
      ("Int3", INT3); ("Int4", INT4);
      ("Array", ARRAY);
      ("Mesh", PrimitiveType "Mesh") ].

(** ** Strings *)

Definition newline : string := String "010" EmptyString.

(** [s.indexOf(sub)]: the position of the first occurrence, or -1. *)
Definition indexOf (s sub : string) : Z :=
  match String.index 0 sub s with
  | Some n => Z.of_nat n
  | None => -1
  end.

(** [a[i]] where the index may be [undefined] or [null]: it names no slot
    then, and the read gives [undefined]. *)
Definition at_id {A} (a : list (option A)) (i : option nat) : option A :=
  match i with
  | Some n => JSArray.get a n
  | None => None
  end.

(** An identity converted to a string by [+]: a natural number prints in
    decimal (as JavaScript prints the integers below 10^21), [null] prints
    as its name. *)
Definition id_toString (i : option nat) : string :=
  match i with
  | Some n => pretty n
  | None => "null"
  end.

Module GLSL.

Definition NUMERIC_TYPES : list Type_ :=
  [FLOAT3; FLOAT4; FLOAT3X3; FLOAT4X4; INT3; INT4].

(** A plain object read with [TYPE_NAMES[name]]: the own properties are
    modelled (inherited properties are not). *)
Definition TYPE_NAMES : gmap string string :=
  list_to_map
    [ ("Int", "int"); ("Int3", "ivec3"); ("Int4", "ivec4");
      ("Float", "float"); ("Float3", "vec3"); ("Float4", "vec4");
      ("Float3x3", "mat3"); ("Float4x4", "mat4") ].

(** *** What a call returns or throws

    The backend throws strings; the runtime throws a [TypeError] on a
    property of [undefined] or [null]. *)
Inductive thrown : Type :=
  | Exception (e : error)
  | Message (s : string)        (* [throw "error: ..."] *)
  | Unsupported (t : Type_).
      (* [throw "error: type unsupported in GLSL: " + type] *)

Inductive outcome (A : Type) : Type :=
  | Return (a : A)
  | Raise (e : thrown).
Arguments Return {A} a.
Arguments Raise {A} e.

Definition outcome_bind {A B} (m : outcome A) (f : A → outcome B) : outcome B :=
  match m with
  | Return a => f a
  | Raise e => Raise e
  end.

Declare Scope outcome_scope.
Delimit Scope outcome_scope with O.
Notation "x <- m ;; k" := (outcome_bind m (λ x, k))
  (at level 100, m at next level, right associativity) : outcome_scope.

(** A loop that pushes the result of [f] for each element. *)
Fixpoint for_each {A B} (f : A → outcome B) (l : list A) : outcome (list B) :=
  match l with
  | [] => Return []
  | x :: xs => (y <- f x ;; ys <- for_each f xs ;; Return (y :: ys))%O
  end.

(** [let [t, _] = ir.type_table[id]]: destructuring [undefined] throws. *)
Definition type_at {Ty} (ir : CompilerIR Ty) (id : option nat) : outcome Ty :=
  match at_id (ir_type_table ir) id with
  | Some entry => Return entry.1
  | None => Raise (Exception TypeError)
  end.

(** *** Naming *)

(** A naming convention for the variables that shaders communicate
    through: ["s" + scopeid + "v" + varid]. *)
Definition shadervarsym (scopeid : option nat) (varid : nat) : string :=
  "s" +:+ id_toString scopeid +:+ "v" +:+ pretty varid.

(** *** The [vtx] and [frag] intrinsics *)

(** [is_intrinsic(tree, name)], on the callee [tree.fun] of the call. *)
Definition is_intrinsic (fn : SyntaxNode) (name : string) : bool :=
  match fn with
  | LookupNode _ ident => bool_decide (ident = name)
  | _ => false
  end.

Definition is_intrinsic_call (tree : SyntaxNode) (name : string) : bool :=
  match tree with
  | CallNode _ fn _ => is_intrinsic fn name
  | _ => false
  end.

Definition frag_expr (tree : SyntaxNode) : bool :=
  is_intrinsic_call tree "frag".

(** [name] is [undefined] when the extern table has no such slot. *)
Definition emit_extern (name : option string) (type : option Type_)
    : option string :=
  name.

(** *** Array types *)

(** Unwraps array types; other types are unaffected. *)
Definition _unwrap_array (t : Type_) : Type_ :=
  match t with
  | InstanceType cons' arg => if decide (cons' = ARRAY) then arg else t
  | _ => t
  end.

(** *** The rules for literals, calls and externs ([compile_rules]) *)

Definition Compile : Type := SyntaxNode → outcome string.

Section compile_rules.
Context {number : Type}.

(** [value.toString()] on the number of a literal; [INT] and [FLOAT] of
    type.ts; [paren] of emitutil.ts. *)
Variable toString : number → string.
Variables INT FLOAT : Type_.
Variable paren : string → outcome string.

Definition visit_literal (ir : CompilerIR Type_)
    (id : option nat) (value : number) : outcome string :=
  (t <- type_at ir id ;;
   if decide (t = INT) then Return (toString value)
   else if decide (t = FLOAT) then
     (* Whole numbers are emitted as floating-point literals too. *)
     let out := toString value in
     if decide (indexOf out "." = (-1)%Z) then Return (out +:+ ".0")
     else Return out
   else Raise (Message "error: unknown literal type"))%O.

Definition visit_call {Ty} (fself : Compile) (ir : CompilerIR Ty)
    (id : option nat) (fn : SyntaxNode) (args : list SyntaxNode)
    : outcome string :=
  if frag_expr (CallNode id fn args) then
    (* The argument must be a literal quote node. *)
    match args !! 0 with
    | None => Raise (Exception TypeError)
    | Some (QuoteNode qid _ _) =>
        match at_id (ir_progs ir) qid with
        | None => Raise (Exception TypeError)
        | Some subprog =>
            (* Assign to all the variables corresponding to persists
               and free variables for the fragment shader's quotation. *)
            (a1 <- for_each (λ esc,
               let varname :=
                 shadervarsym (scope_id subprog) (escape_id esc) in
               value <- fself (escape_body esc) ;;
               p <- paren value ;;
               Return (varname +:+ " = " +:+ p)) (persist subprog) ;;
             a2 <- for_each (λ fv,
               let destvar := shadervarsym (scope_id subprog) fv in
               match at_id (ir_progs ir) (quote_parent subprog) with
               | Some parprog =>
                   let srcvar := shadervarsym (scope_id parprog) fv in
                   Return (destvar +:+ " = " +:+ srcvar)
               | None => Raise (Exception TypeError)
               end) (free subprog) ;;
             let assignments := a1 ++ a2 in
             if decide (assignments ≠ []) then
               Return ("/* pass to fragment shader */" +:+ newline +:+
                       String.concat ("," +:+ newline) assignments)
             else Return "")%O
        end
    | Some _ => Raise (Message "error: non-quote used with frag")
    end
  else
    (* Check that it's a static call. *)
    match fn with
    | LookupNode _ _ =>
        (fun_ <- fself fn ;;
         args' <- for_each fself args ;;
         Return (fun_ +:+ "(" +:+ String.concat ", " args' +:+ ")"))%O
    | _ => Raise (Message "error: GLSL backend is not higher-order")
    end.

(** [ir.defuse[tree.id]], then [ir.externs[defid]]: reads of array
    slots, [undefined] when there is none. *)
Definition visit_extern {Ty} (ir : CompilerIR Ty) (id : option nat)
    : option string :=
  let defid := at_id (ir_defuse ir) id in
  let name := at_id (ir_externs ir) defid in
  emit_extern name None.
End compile_rules.

(** *** Declarations *)

Definition emit_decl (qualifier type name : string) : string :=
  qualifier +:+ " " +:+ type +:+ " " +:+ name +:+ ";".

Definition emit_type (type : Type_) : outcome string :=
  match type with
  | PrimitiveType name =>
      match TYPE_NAMES !! name with
      | None =>
          Raise (Message ("error: primitive type " +:+ name +:+
                          " unsupported in GLSL"))
      | Some name' => Return name'
      end
  | _ => Raise (Unsupported type)
  end.

Inductive ProgKind : Type :=
  | ordinary
  | render
  | vertex
  | fragment.

#[global] Instance ProgKind_eq_dec : EqDecision ProgKind.
Proof. solve_decision. Defined.

(** A declaration for a variable going into or out of the current shader
    program. *)
Definition persist_decl (ir : CompilerIR Type_) (progid : option nat)
    (valueid : option nat) (varid : nat) (kind : ProgKind) (out : bool)
    : outcome string :=
  (type <- type_at ir valueid ;;
   (* Array types indicate an attribute.  Use the element type. *)
   let decl_type := type in
   let element_type := _unwrap_array decl_type in
   let attribute := bool_decide (element_type ≠ decl_type) in
   let decl_type := element_type in
   qual <- match kind with
           | vertex =>
               if out then Return "varying"
               else if attribute then Return "attribute"
               else Return "uniform"
           | fragment =>
               if out then Raise (Message "error: fragment outputs not allowed")
               else Return "varying"
           | _ => Raise (Message "error: unknown shader kind")
           end ;;
   type' <- emit_type decl_type ;;
   Return (emit_decl qual type' (shadervarsym progid varid)))%O.

(** *** The kind of a program *)

Definition prog_kind {Ty} (ir : CompilerIR Ty) (progid : nat)
    : outcome ProgKind :=
  match JSArray.get (ir_progs ir) progid with
  | None => Raise (Exception TypeError)
  | Some prog =>
      if decide (annotation prog = "f") then Return render
      else if decide (annotation prog = "s") then
        match quote_parent prog with
        | None => Return vertex
        | Some q =>
            match JSArray.get (ir_progs ir) q with
            | None => Raise (Exception TypeError)
            | Some parprog =>
                if decide (annotation parprog = "f") then Return vertex
                else Return fragment
            end
        end
      else Return ordinary
  end.

(** *** Compiling a shader program *)

Section compile_prog.
(** [emit_body] and [indent] of emitutil.ts. *)
Variable emit_body : Compile → SyntaxNode → string → outcome string.
Variable indent : string → bool → outcome string.

Definition compile_prog (compile : Compile) (ir : CompilerIR Type_)
    (progid : nat) : outcome string :=
  (* Check whether this is a vertex or fragment shader. *)
  (kind <- prog_kind ir progid ;;
   if decide (kind ≠ vertex ∧ kind ≠ fragment) then
     Raise (Message "error: unexpected program kind")
   else
   match JSArray.get (ir_progs ir) progid with
   | None => Raise (Exception TypeError)
   | Some prog =>
   (* Declare [in] variables for the persists and free variables. *)
   d1 <- for_each (λ esc,
           persist_decl ir (Some progid) (node_id (escape_body esc))
             (escape_id esc) kind false) (persist prog) ;;
   d2 <- for_each (λ fv,
           persist_decl ir (Some progid) (Some fv) fv kind false)
           (free prog) ;;
   (* Declare [out] variables for the persists (and free variables) in
      the subprogram.  There can be at most one subprogram. *)
   decls_out <-
     match quote_children prog with
     | [] => Return []
     | [child] =>
         match JSArray.get (ir_progs ir) child with
         | None => Raise (Exception TypeError)
         | Some subprog =>
             d3 <- for_each (λ esc,
                     persist_decl ir (scope_id subprog)
                       (node_id (escape_body esc)) (escape_id esc) kind true)
                     (persist subprog) ;;
             d4 <- for_each (λ fv,
                     persist_decl ir (scope_id subprog) (Some fv) fv kind true)
                     (free subprog) ;;
             Return (d3 ++ d4)
         end
     | _ => Raise (Message "error: too many subprograms")
     end ;;
   let decls := d1 ++ d2 ++ decls_out in
   (* Emit the bound variable declarations. *)
   local_decls <- for_each (λ id,
       t <- type_at ir (Some id) ;;
       type' <- emit_type t ;;
       Return (type' +:+ " " +:+ shadervarsym (Some progid) id +:+ ";"
               +:+ newline)) (bound prog) ;;
   let local_decls_s := String.concat "" local_decls in
   (* Wrap the code in a "main" function. *)
   code <- emit_body compile (body prog) "" ;;
   let code := local_decls_s +:+ code in
   indented <- indent code true ;;
   let main := "void main() {" +:+ newline +:+ indented +:+ newline +:+ "}" in
   let out := "precision mediump float;" +:+ newline in
   let out := if decide (decls ≠ [])
              then out +:+ String.concat newline decls +:+ newline
              else out in
   Return (out +:+ main)
   end)%O.
End compile_prog.
End GLSL.

(** ** Vocabulary of the further properties *)

(** An identity that has no environment in the table nor in any table that
    extends it: the node has no identity, or its slot is a hole of the
    table or holds a null environment. *)
Definition no_env_at {Ty} (tt : TypeTable Ty) (i : option nat) : Prop :=
  match i with
  | Some n => n < length tt ∧ env_at tt (Some n) = None
  | None => True
  end.

(** A read, or a macro invocation, that was not elaborated into the table. *)
Definition unelaborated_read {Ty} (tt : TypeTable Ty) (node : SyntaxNode) : Prop :=
  ∃ i x, node = LookupNode i x ∧ no_env_at tt i.

Definition unelaborated_macrocall {Ty} (tt : TypeTable Ty) (node : SyntaxNode)
    : Prop :=
  ∃ i m args, node = MacroCallNode i m args ∧ no_env_at tt i.

(** A read of a name that the environment declares external, or of a name
    that objects do not inherit and that some stage binds. *)
Definition plain_read {Ty} (tt : TypeTable Ty) (node : SyntaxNode) : Prop :=
  ∀ i x env, node = LookupNode i x → env_at tt i = Some env →
    x ∈ dom (externs env)
    ∨ (x ∉ Object_prototype) ∧ is_Some (stage_distance env x).

(** The length that an array needs to hold the identities [ids]. *)
Definition length_for (ids : list nat) : nat := max_list_with S ids.

(** The number of extern nodes of a tree, with or without an identity. *)
Definition is_extern (tree : SyntaxNode) : bool :=
  match tree with ExternNode _ _ _ => true | _ => false end.

Definition extern_count (tree : SyntaxNode) : nat :=
  length (filter (λ node, is_extern node = true) (nodes tree)).

(** What the fold over references allocates on a tree: one array per
    extern node; without extern nodes it hands back the reference and the
    heap it was given. *)
Definition ref_fold_allocates (tree : SyntaxNode) : Prop :=
  ∀ (p : Ref) h r0 h0,
    p h = (r0, h0) → is_Some (h0 !! r0) →
    ∃ r1 h1,
      find_externs_ref tree p h = (r1, h1)
      ∧ is_Some (h1 !! r1)
      ∧ dom h0 ⊆ dom h1
      ∧ size (dom h1) = size (dom h0) + extern_count tree
      ∧ ((extern_count tree = 0 ∧ r1 = r0 ∧ h1 = h0)
         ∨ (0 < extern_count tree ∧ h0 !! r1 = None)).

(** A string in which the character [c] does not occur. *)
Fixpoint avoids (c : ascii) (s : string) : Prop :=
  match s with
  | EmptyString => True
  | String c' s' => c' ≠ c ∧ avoids c s'
  end.

(** Every quote parent that a defined program names is a defined program. *)
Definition progs_closed (progs : list (option Prog)) : Prop :=
  ∀ i (p : Prog) q, JSArray.get progs i = Some p → quote_parent p = Some q →
    is_Some (JSArray.get progs q).

(** ** More sample programs *)

Module Raw.
(** [y + x] and a macro invocation as the parser leaves them: no node has
    an identity yet. *)
Definition sum_tree : SyntaxNode :=
  BinaryNode None "+" (LookupNode None "y") (LookupNode None "x").

Definition macro_tree : SyntaxNode :=
  SeqNode None (LiteralNode None 1) (MacroCallNode None "m" []).

(** A table whose only entry is that of an intrinsic: its environment is
    null. *)
Definition intrinsic_table : TypeTable string := [ Some ("Int -> Int", None) ].
End Raw.

Module Analysis.
(** Stand-ins for the def/use pass and for the Lifter: a def/use table
    that sends the uses 1 and 2 to the externs of [Sample.extern_tree] and
    the use 3 to the first intrinsic; the procedures and the programs of
    [Sample], and a procedure whose quote parent is no program. *)
Definition def_use (tree : SyntaxNode) (intrinsics_map : list (string * nat))
    : result (list (option nat)) :=
  OK [None; Some 1; Some 2; Some 3].

Definition lift_procs (tree : SyntaxNode) (defuse scopes : list (option nat))
    (index : list (option SyntaxNode)) : result lifted :=
  OK (Sample.procs, Sample.main_proc tree, Sample.progs).

Definition lift_orphan (tree : SyntaxNode) (defuse scopes : list (option nat))
    (index : list (option SyntaxNode)) : result lifted :=
  OK (Sample.orphan_procs, Sample.main_proc tree, Sample.progs).
End Analysis.

(** ** A sample shader pipeline *)

Module Shader.
(** A render program that holds a vertex shader, which holds a fragment
    shader: [f< ... s< ... s< ... > ... > ... >], with identities 0, 1 and
    2.  The vertex shader reads the mesh positions (an array, identity
    6) through the persist 5 and binds the variable 7; the fragment shader
    takes the vertex shader's variable 7 as a free variable. *)
Definition render_prog : Prog :=
  mkProg (mkScope (Some 0) (LiteralNode (Some 10) 0) [] [] [] []
                  None [] None [1]) "f".

Definition vertex_prog : Prog :=
  mkProg (mkScope (Some 1) (LiteralNode (Some 11) 0) [] [7]
                  [mkProgEscape 5 (LookupNode (Some 6) "position")] []
                  None [] (Some 0) [2]) "s".

Definition fragment_prog : Prog :=
  mkProg (mkScope (Some 2) (LiteralNode (Some 12) 0) [7] [] [] []
                  None [] (Some 1) []) "s".

Definition progs : list (option Prog) :=
  [Some render_prog; Some vertex_prog; Some fragment_prog].

Definition main_proc : Proc :=
  mkProc (mkScope None (LiteralNode (Some 13) 0) [] [] [] []
                  None [] None [0]) [].

Definition type_table : TypeTable Type_ :=
  [ None; None; None; None; None; None;
    Some (InstanceType ARRAY FLOAT3, None);
    Some (FLOAT4, None) ].

Definition ir : CompilerIR Type_ :=
  mkIR [] [] progs main_proc [] [Some []; Some []; Some []] type_table [] [].

(** A fragment shader that holds a further shader, 3, with a free
    variable. *)
Definition fragment_prog' : Prog :=
  mkProg (mkScope (Some 2) (LiteralNode (Some 12) 0) [7] [] [] []
                  None [] (Some 1) [3]) "s".

Definition inner_prog : Prog :=
  mkProg (mkScope (Some 3) (LiteralNode (Some 14) 0) [7] [] [] []
                  None [] (Some 2) []) "s".

Definition ir' : CompilerIR Type_ :=
  mkIR [] []
    [Some render_prog; Some vertex_prog; Some fragment_prog'; Some inner_prog]
    main_proc [] [Some []; Some []; Some []; Some []] type_table [] [].

(** A body emitter that emits one statement, and an indenter that leaves
    the code as it is. *)
Definition emit_body (compile : GLSL.Compile) (tree : SyntaxNode) (sep : string)
    : GLSL.outcome string :=
  GLSL.Return "gl_Position = s1v7".

Definition indent (s : string) (first : bool) : GLSL.outcome string :=
  GLSL.Return s.

Definition compile (tree : SyntaxNode) : GLSL.outcome string :=
  GLSL.Return "0".

Definition paren (s : string) : GLSL.outcome string :=
  GLSL.Return ("(" +:+ s +:+ ")").

(** Literals: the types [Int] and [Float], numbers in [Z] printed in
    decimal, and a table with a literal of each type. *)
Definition INT : Type_ := PrimitiveType "Int".
Definition FLOAT : Type_ := PrimitiveType "Float".

Definition literal_ir : CompilerIR Type_ :=
  mkIR [] [] [] main_proc [] [] [Some (INT, None); Some (FLOAT, None)] [] [].
End Shader.

(** * Properties of the embedding *)

(** ** Arrays with holes *)

Section array_lemmas.
Context {A : Type}.
Implicit Types (a : list (option A)) (i j : nat) (v : A).

Lemma get_store_eq a i v : JSArray.get (JSArray.store a i v) i = Some v.
Proof.
  unfold JSArray.get, JSArray.store. case_decide as Hi.
  - by rewrite list_lookup_insert_eq.
  - rewrite lookup_app_r by lia. rewrite lookup_app_r; rewrite length_replicate; [|lia].
    by replace (i - length a - (i - length a)) with 0 by lia.
Qed.

Lemma get_store_ne a i j v :
  i ≠ j → JSArray.get (JSArray.store a i v) j = JSArray.get a j.
Proof.
  intros Hne. unfold JSArray.get, JSArray.store. case_decide as Hi.
  - by rewrite list_lookup_insert_ne.
  - destruct (decide (j < length a)) as [Hj|Hj].
    + by rewrite lookup_app_l.
    + rewrite (lookup_ge_None_2 a j) by lia. rewrite lookup_app_r by lia.
      destruct (decide (j - length a < i - length a)) as [Hlt|Hge].
      * rewrite lookup_app_l by (rewrite length_replicate; lia).
        by rewrite lookup_replicate_2.
      * rewrite lookup_app_r by (rewrite length_replicate; lia).
        rewrite length_replicate.
        rewrite lookup_ge_None_2; [done|]. simpl. lia.
Qed.

Lemma get_store a i j v :
  JSArray.get (JSArray.store a i v) j
  = if decide (i = j) then Some v else JSArray.get a j.
Proof.
  case_decide; [subst; apply get_store_eq | by apply get_store_ne].
Qed.

Lemma length_store a i v :
  length (JSArray.store a i v) = length a `max` S i.
Proof.
  unfold JSArray.store. case_decide.
  - rewrite length_insert. lia.
  - rewrite !length_app, length_replicate. simpl. lia.
Qed.

Lemma store_length_push a v : JSArray.store a (length a) v = a ++ [Some v].
Proof.
  unfold JSArray.store. case_decide; [lia|].
  by rewrite Nat.sub_diag.
Qed.

Lemma get_ge a i : length a ≤ i → JSArray.get a i = None.
Proof. intros. unfold JSArray.get. by rewrite lookup_ge_None_2. Qed.

Lemma get_Some_lookup a i v : JSArray.get a i = Some v ↔ a !! i = Some (Some v).
Proof.
  unfold JSArray.get. destruct (a !! i) as [[x|]|]; simpl; naive_solver.
Qed.

Lemma store_defined_slot a i v w :
  JSArray.get a i = Some w → JSArray.store a i v = <[i := Some v]> a.
Proof.
  intros Hg%get_Some_lookup. apply lookup_lt_Some in Hg.
  unfold JSArray.store. by case_decide.
Qed.

Lemma elem_of_defined a v :
  v ∈ JSArray.defined a ↔ ∃ i, JSArray.get a i = Some v.
Proof.
  unfold JSArray.defined. rewrite list_elem_of_omap. split.
  - intros (o & Ho & ->). apply list_elem_of_lookup in Ho as [i Hi].
    exists i. by apply get_Some_lookup.
  - intros [i Hi%get_Some_lookup]. exists (Some v). split; [|done].
    by eapply list_elem_of_lookup_2.
Qed.
End array_lemmas.

(** ** Grouping *)

Lemma defined_cons {A} (x : A) (a : list (option A)) :
  JSArray.defined (Some x :: a) = x :: JSArray.defined a.
Proof. done. Qed.

Lemma defined_cons_hole {A} (a : list (option A)) :
  JSArray.defined (None :: a) = JSArray.defined a.
Proof. done. Qed.

Lemma filter_none {A} (P : A → Prop) `{∀ x, Decision (P x)} (l : list A) :
  Forall (λ x, ¬ P x) l → filter P l = [].
Proof.
  induction 1 as [|x l Hx _ IH]; [done|]. by rewrite filter_cons_False.
Qed.

Lemma prog_ids_cons_hole progs : prog_ids (None :: progs) = prog_ids progs.
Proof. done. Qed.

Lemma prog_ids_cons (p : Prog) progs :
  prog_ids (Some p :: progs)
  = match scope_id p with
    | Some i => i :: prog_ids progs
    | None => prog_ids progs
    end.
Proof. unfold prog_ids. simpl. by destruct (scope_id p). Qed.

Lemma init_quoted_fold_get (progs : list (option Prog)) acc q :
  JSArray.get (foldl init_quoted_step acc progs) q
  = if decide (q ∈ prog_ids progs) then Some [] else JSArray.get acc q.
Proof.
  revert acc. induction progs as [|o progs IH]; intros acc.
  - done.
  - destruct o as [p|]; cbn [foldl]; rewrite IH.
    + rewrite prog_ids_cons. unfold init_quoted_step.
      destruct (scope_id p) as [i|] eqn:Hid; [|done].
      rewrite get_store.
      destruct (decide (q ∈ prog_ids progs)) as [Hin|Hin].
      * rewrite decide_True; [done|]. by apply elem_of_cons; right.
      * destruct (decide (i = q)) as [->|Hne].
        -- rewrite decide_True; [done|]. by apply elem_of_cons; left.
        -- rewrite decide_False; [done|].
           intros [?|?]%elem_of_cons; congruence.
    + by rewrite prog_ids_cons_hole.
Qed.

Lemma init_quoted_get progs q :
  JSArray.get (init_quoted progs) q
  = if decide (q ∈ prog_ids progs) then Some [] else None.
Proof.
  unfold init_quoted. rewrite init_quoted_fold_get.
  case_decide; [done|]. unfold JSArray.get. by rewrite lookup_nil.
Qed.

Lemma concat_defined_nil (a : list (option (list (option nat)))) :
  (∀ i l, JSArray.get a i = Some l → l = []) →
  concat (JSArray.defined a) = [].
Proof.
  induction a as [|o a IH]; intros H; [done|]. destruct o as [l|].
  - rewrite defined_cons. cbn [concat]. rewrite (H 0 l eq_refl). simpl.
    apply IH. intros i. apply (H (S i)).
  - rewrite defined_cons_hole. apply IH. intros i. apply (H (S i)).
Qed.

Lemma concat_defined_insert (a : list (option (list (option nat)))) i l x :
  a !! i = Some (Some l) →
  concat (JSArray.defined (<[i := Some (l ++ [x])]> a))
  ≡ₚ x :: concat (JSArray.defined a).
Proof.
  revert i. induction a as [|o a IH]; intros i Hi; [done|].
  destruct i as [|i]; simpl in Hi.
  - injection Hi as ->. cbn [insert list_insert]. rewrite !defined_cons.
    cbn [concat]. rewrite <- app_assoc. simpl.
    by rewrite <- Permutation_middle.
  - cbn [insert list_insert]. destruct o as [l'|].
    + rewrite !defined_cons. cbn [concat].
      rewrite (IH i Hi). by rewrite <- Permutation_middle.
    + rewrite !defined_cons_hole. by apply IH.
Qed.

(** The second loop, from any state in which the targeted lists exist. *)
Lemma insert_procs_ok (procs : list (option Proc)) toplevel quoted :
  Forall (λ p : Proc, ∀ q, quote_parent p = Some q → is_Some (JSArray.get quoted q))
         (JSArray.defined procs) →
  ∃ quoted',
    insert_procs (toplevel, quoted) procs
      = OK (toplevel ++ toplevel_of procs, quoted')
    ∧ (∀ q, JSArray.get quoted' q
            = (λ l, l ++ quoted_of q procs) <$> JSArray.get quoted q)
    ∧ concat (JSArray.defined quoted')
      ≡ₚ concat (JSArray.defined quoted) ++
         ((λ p : Proc, scope_id p)
            <$> filter (λ p : Proc, quote_parent p ≠ None) (JSArray.defined procs)).
Proof.
  revert toplevel quoted.
  induction procs as [|o procs IH]; intros toplevel quoted Hk.
  - exists quoted. unfold toplevel_of, quoted_of. simpl.
    rewrite !app_nil_r. split_and!; [done| |done].
    intros q. destruct (JSArray.get quoted q); simpl; by rewrite ?app_nil_r.
  - destruct o as [p|].
    2:{ rewrite defined_cons_hole in Hk. apply (IH toplevel quoted Hk). }
    rewrite defined_cons in Hk. apply Forall_cons in Hk as [Hp Hk].
    unfold toplevel_of, quoted_of. rewrite defined_cons.
    cbn [insert_procs insert_proc].
    destruct (quote_parent p) as [q0|] eqn:Hqp.
    + destruct (Hp q0 eq_refl) as [l Hl]. rewrite Hl.
      destruct (IH toplevel (JSArray.store quoted q0 (l ++ [scope_id p])))
        as (quoted' & Hrun & Hget & Hperm).
      { eapply Forall_impl; [exact Hk|]. intros p' Hp' q Hq.
        rewrite get_store. case_decide; [done|]. by apply Hp'. }
      exists quoted'. rewrite Hrun. split_and!.
      * rewrite filter_cons_False; [done|]. by rewrite Hqp.
      * intros q. rewrite Hget, get_store. unfold quoted_of.
        destruct (decide (q0 = q)) as [<-|Hq].
        -- rewrite Hl. simpl. rewrite filter_cons_True by done.
           simpl. by rewrite <- app_assoc.
        -- rewrite filter_cons_False; [done|]. rewrite Hqp. congruence.
      * rewrite Hperm.
        rewrite (filter_cons_True (λ p : Proc, quote_parent p ≠ None))
          by (rewrite Hqp; done).
        rewrite (store_defined_slot _ _ _ _ Hl).
        rewrite concat_defined_insert by (by apply get_Some_lookup).
        simpl. by rewrite <- Permutation_middle.
    + destruct (IH (toplevel ++ [scope_id p]) quoted Hk)
        as (quoted' & Hrun & Hget & Hperm).
      exists quoted'. rewrite Hrun. split_and!.
      * rewrite <- app_assoc. by rewrite filter_cons_True.
      * intros q. rewrite Hget. unfold quoted_of.
        rewrite filter_cons_False; [done|]. by rewrite Hqp.
      * rewrite Hperm.
        rewrite (filter_cons_False (λ p : Proc, quote_parent p ≠ None));
          [done|]. rewrite Hqp. naive_solver.
Qed.

(** The second loop stops with a [TypeError] at the first procedure whose
    quote parent has no list. *)
Lemma insert_procs_throw (procs : list (option Proc)) toplevel quoted :
  ¬ Forall (λ p : Proc, ∀ q, quote_parent p = Some q → is_Some (JSArray.get quoted q))
           (JSArray.defined procs) →
  insert_procs (toplevel, quoted) procs = Throw TypeError.
Proof.
  revert toplevel quoted.
  induction procs as [|o procs IH]; intros toplevel quoted Hk.
  - destruct Hk. constructor.
  - destruct o as [p|].
    2:{ rewrite defined_cons_hole in Hk. apply (IH toplevel quoted Hk). }
    rewrite defined_cons in Hk. cbn [insert_procs insert_proc].
    destruct (quote_parent p) as [q0|] eqn:Hqp.
    + destruct (JSArray.get quoted q0) as [l|] eqn:Hl; [|done].
      apply IH. intros Hall. apply Hk. constructor.
      * intros q Hq. rewrite Hqp in Hq. injection Hq as <-. by rewrite Hl.
      * eapply Forall_impl; [exact Hall|]. intros p' Hp' q Hq.
        specialize (Hp' q Hq). rewrite get_store in Hp'.
        destruct (decide (q0 = q)) as [<-|]; [by rewrite Hl|done].
    + apply IH. intros Hall. apply Hk. constructor; [|done].
      intros q Hq. by rewrite Hqp in Hq.
Qed.

Lemma quote_parents_known_init procs progs :
  quote_parents_known procs progs ↔
  Forall (λ p : Proc, ∀ q, quote_parent p = Some q →
                            is_Some (JSArray.get (init_quoted progs) q))
         (JSArray.defined procs).
Proof.
  unfold quote_parents_known. apply Forall_proper; [|done].
  intros p. unfold quote_parent_known. split.
  - intros H q Hq. rewrite Hq in H. rewrite init_quoted_get.
    by rewrite decide_True.
  - intros H. destruct (quote_parent p) as [q|]; [|done].
    specialize (H q eq_refl). rewrite init_quoted_get in H.
    case_decide; [done|]. by destruct H.
Qed.

Lemma toplevel_quoted_partition (procs : list (option Proc)) :
  toplevel_of procs ++
    ((λ p : Proc, scope_id p)
       <$> filter (λ p : Proc, quote_parent p ≠ None) (JSArray.defined procs))
  ≡ₚ proc_ids procs.
Proof.
  unfold toplevel_of, proc_ids. rewrite <- fmap_app.
  apply fmap_Permutation. apply filter_app_complement.
Qed.

Lemma group_by_prog_ok_known procs progs scopes st :
  group_by_prog procs progs scopes = OK st → quote_parents_known procs progs.
Proof.
  intros Hrun. destruct (decide (quote_parents_known procs progs)) as [|Hn]; [done|].
  unfold group_by_prog in Hrun.
  rewrite insert_procs_throw in Hrun; [done|].
  by rewrite <- quote_parents_known_init.
Qed.

Lemma group_by_prog_known procs progs scopes :
  quote_parents_known procs progs →
  ∃ quoted,
    group_by_prog procs progs scopes = OK (toplevel_of procs, quoted)
    ∧ (∀ q, JSArray.get quoted q
            = if decide (q ∈ prog_ids progs) then Some (quoted_of q procs) else None)
    ∧ concat (JSArray.defined quoted)
      ≡ₚ (λ p : Proc, scope_id p)
           <$> filter (λ p : Proc, quote_parent p ≠ None) (JSArray.defined procs).
Proof.
  intros Hk%quote_parents_known_init.
  destruct (insert_procs_ok procs [] (init_quoted progs) Hk)
    as (quoted & Hrun & Hget & Hperm).
  exists quoted. split_and!; [done| |].
  - intros q. rewrite Hget, init_quoted_get. by case_decide.
  - rewrite Hperm, concat_defined_nil; [done|].
    intros i l. rewrite init_quoted_get. case_decide; congruence.
Qed.

Lemma insert_procs_defined (procs : list (option Proc)) st :
  insert_procs st (Some <$> JSArray.defined procs) = insert_procs st procs.
Proof.
  revert st. induction procs as [|o procs IH]; intros st; [done|].
  destruct o as [p|].
  - rewrite defined_cons. cbn [fmap list_fmap insert_procs].
    destruct (insert_proc st (Some p)); [apply IH|done].
  - rewrite defined_cons_hole. cbn [insert_procs]. destruct st. apply IH.
Qed.

Lemma init_quoted_defined (progs : list (option Prog)) :
  init_quoted (Some <$> JSArray.defined progs) = init_quoted progs.
Proof.
  unfold init_quoted. generalize (@nil (option (list (option nat)))).
  induction progs as [|o progs IH]; intros acc; [done|].
  destruct o as [p|]; [rewrite defined_cons|rewrite defined_cons_hole]; apply IH.
Qed.

(** ** Trees *)

Lemma nodes_children tree :
  nodes tree = tree :: (child_nodes tree ≫= nodes).
Proof. destruct tree; simpl; by rewrite ?app_nil_r. Qed.

Lemma fold_order_children tree : fold_order tree ≡ₚ child_nodes tree.
Proof.
  destruct tree; try done. simpl. by rewrite Permutation_app_comm.
Qed.

Lemma ast_fold_rules_children {T} (fself : SyntaxNode → T → T) tree p :
  ast_fold_rules fself tree p = foldl (λ p1 c, fself c p1) p (fold_order tree).
Proof. destruct tree; try done. simpl. by rewrite foldl_app. Qed.

Lemma elem_of_nodes_children node tree :
  node ∈ nodes tree ↔
  node = tree ∨ ∃ c, c ∈ child_nodes tree ∧ node ∈ nodes c.
Proof.
  rewrite nodes_children, elem_of_cons, list_elem_of_bind.
  split; (intros [?|(c & ? & ?)]; [by left|right; by exists c]).
Qed.

(** ** Finding externs *)

Lemma find_externs_extern i name x a :
  find_externs (ExternNode i name x) a = visit_extern i name x a.
Proof. done. Qed.

Lemma extern_or_not tree :
  (∃ i s x, tree = ExternNode i s x) ∨ (∀ i s x, tree ≠ ExternNode i s x).
Proof. destruct tree; try (by right); left; eauto. Qed.

Lemma find_externs_children tree a :
  (∀ n s x, tree ≠ ExternNode n s x) →
  find_externs tree a = foldl (λ p c, find_externs c p) a (fold_order tree).
Proof.
  intros Hne. destruct tree; try (by rewrite <- ast_fold_rules_children).
  by destruct (Hne id name expansion).
Qed.

Lemma extern_ids_children tree :
  extern_ids tree
  = option_list (extern_id tree) ++ (child_nodes tree ≫= extern_ids).
Proof.
  unfold extern_ids. rewrite nodes_children. cbn [omap list_omap].
  assert (omap extern_id (child_nodes tree ≫= nodes)
          = child_nodes tree ≫= λ t, omap extern_id (nodes t)) as ->.
  { induction (child_nodes tree) as [|c cs IH]; [done|].
    rewrite !bind_cons, omap_app. by rewrite IH. }
  by destruct (extern_id tree).
Qed.

Lemma extern_ids_child n c tree :
  c ∈ child_nodes tree → n ∈ extern_ids c → n ∈ extern_ids tree.
Proof.
  intros Hc Hn. rewrite extern_ids_children. apply elem_of_app. right.
  apply list_elem_of_bind. by exists c.
Qed.

Lemma elem_of_extern_ids n tree :
  n ∈ extern_ids tree ↔ ∃ s x, ExternNode (Some n) s x ∈ nodes tree.
Proof.
  unfold extern_ids. rewrite list_elem_of_omap. split.
  - intros (node & Hin & Hid). destruct node; try done. simpl in Hid. subst. eauto.
  - intros (s & x & Hin). eexists. split; [exact Hin|done].
Qed.

Lemma foldl_find_externs_frame n (cs : list SyntaxNode) a :
  Forall (λ c, ∀ a, n ∉ extern_ids c →
                 JSArray.get (find_externs c a) n = JSArray.get a n) cs →
  Forall (λ c, n ∉ extern_ids c) cs →
  JSArray.get (foldl (λ p c, find_externs c p) a cs) n = JSArray.get a n.
Proof.
  intros HIH. revert a. induction HIH as [|c cs Hc _ IH]; intros a Hn; [done|].
  apply Forall_cons in Hn as [Hn1 Hn2]. simpl. rewrite IH by done. by apply Hc.
Qed.

(** Slots that are not the identity of an extern node are not written. *)
Lemma find_externs_frame tree : ∀ a n,
  n ∉ extern_ids tree →
  JSArray.get (find_externs tree a) n = JSArray.get a n.
Proof.
  induction tree as [tree IH] using SyntaxNode_children_ind. intros a n Hn.
  destruct (extern_or_not tree) as [(i & s & x & ->)|Hne].
  - rewrite find_externs_extern. unfold visit_extern. destruct i as [m|]; [|done].
    apply get_store_ne. intros ->. apply Hn. apply elem_of_extern_ids.
    exists s, x. simpl. by left.
  - rewrite find_externs_children by done.
    apply foldl_find_externs_frame.
    + rewrite fold_order_children. eapply Forall_impl; [exact IH|]. naive_solver.
    + rewrite fold_order_children. apply Forall_forall. intros c Hc Hin.
      apply Hn. by eapply extern_ids_child.
Qed.

(** The slot of every extern node holds its expansion or its name. *)
Lemma find_externs_hit tree : ∀ a n s x,
  NoDup (extern_ids tree) →
  ExternNode (Some n) s x ∈ nodes tree →
  JSArray.get (find_externs tree a) n = Some (js_or x s).
Proof.
  induction tree as [tree IH] using SyntaxNode_children_ind.
  intros a n s x Hnd Hin.
  destruct (extern_or_not tree) as [(i & s' & x' & ->)|Hne].
  - simpl in Hin. apply list_elem_of_singleton in Hin.
    injection Hin as <- <- <-. apply get_store_eq.
  - apply elem_of_nodes_children in Hin as [Heq|(c & Hc & Hin)];
      [by destruct (Hne (Some n) s x)|].
    rewrite find_externs_children by done.
    rewrite extern_ids_children in Hnd.
    assert (extern_id tree = None) as Hid.
    { destruct tree; try done. by destruct (Hne id name expansion). }
    rewrite Hid in Hnd. simpl in Hnd.
    rewrite <- fold_order_children in Hnd, Hc, IH.
    apply list_elem_of_split in Hc as (cs1 & cs2 & Hsplit).
    rewrite Hsplit in *. clear Hsplit.
    rewrite foldl_app. cbn [foldl].
    rewrite bind_app, bind_cons in Hnd.
    apply NoDup_app in Hnd as (_ & _ & Hnd).
    apply NoDup_app in Hnd as (Hndc & Hdisj & _).
    apply Forall_app in IH as [_ IH]. apply Forall_cons in IH as [IHc IH2].
    rewrite foldl_find_externs_frame.
    + by apply IHc.
    + eapply Forall_impl; [exact IH2|]. intros c' _ a' Hn'.
      by apply find_externs_frame.
    + apply Forall_forall. intros c' Hc' Hn'.
      apply (Hdisj n).
      * apply elem_of_extern_ids. eauto.
      * apply list_elem_of_bind. eauto.
Qed.

(** ** The fold over array references *)

Lemma heap_preserved_refl h : heap_preserved h h.
Proof. by intros r a. Qed.

Lemma heap_preserved_trans h1 h2 h3 :
  heap_preserved h1 h2 → heap_preserved h2 h3 → heap_preserved h1 h3.
Proof. intros H12 H23 r a Hr. by apply H23, H12. Qed.

Lemma fresh_ref_unused (h : heap) r a : h !! r = Some a → r ≠ fresh (dom h).
Proof.
  intros Hr ->. apply (is_fresh (dom h)). apply elem_of_dom. by exists a.
Qed.

(** Visiting an extern node writes to a new array object only. *)
Lemma visit_extern_ref_spec i s x (p : Ref) h r0 h0 a0 :
  p h = (r0, h0) → h0 !! r0 = Some a0 →
  ∃ h1,
    visit_extern_ref i s x p h = (fresh (dom h0), h1)
    ∧ heap_preserved h0 h1
    ∧ h1 !! fresh (dom h0) = Some (visit_extern i s x a0).
Proof.
  intros Hp Ha. unfold visit_extern_ref, slice0. rewrite Hp, Ha. simpl.
  destruct i as [n|]; eexists; (split; [reflexivity|]); split.
  - intros r a Hr. unfold store_at.
    rewrite lookup_alter_ne by (symmetry; by eapply fresh_ref_unused).
    rewrite lookup_insert_ne by (symmetry; by eapply fresh_ref_unused). done.
  - unfold store_at. rewrite lookup_alter_eq, lookup_insert_eq. done.
  - intros r a Hr.
    rewrite lookup_insert_ne by (symmetry; by eapply fresh_ref_unused). done.
  - by rewrite lookup_insert_eq.
Qed.

Lemma find_externs_ref_children tree (p : Ref) :
  (∀ n s x, tree ≠ ExternNode n s x) →
  find_externs_ref tree p
  = foldl (λ p1 c, find_externs_ref c p1) p (fold_order tree).
Proof.
  intros Hne. destruct tree; try (by rewrite <- ast_fold_rules_children).
  by destruct (Hne id name expansion).
Qed.

Lemma foldl_find_externs_ref (cs : list SyntaxNode) :
  Forall ref_fold_ok cs →
  ∀ (p : Ref) h r0 h0 a0,
    p h = (r0, h0) → h0 !! r0 = Some a0 →
    ∃ r1 h1,
      foldl (λ p1 c, find_externs_ref c p1) p cs h = (r1, h1)
      ∧ heap_preserved h0 h1
      ∧ h1 !! r1 = Some (foldl (λ a c, find_externs c a) a0 cs).
Proof.
  induction 1 as [|c cs Hc _ IH]; intros p h r0 h0 a0 Hp Ha.
  - exists r0, h0. split_and!; [done|apply heap_preserved_refl|done].
  - destruct (Hc p h r0 h0 a0 Hp Ha) as (r1 & h1 & Hrun1 & Hpres1 & Hres1).
    destruct (IH _ h r1 h1 _ Hrun1 Hres1) as (r2 & h2 & Hrun2 & Hpres2 & Hres2).
    exists r2, h2. split_and!; [done| |done].
    by eapply heap_preserved_trans.
Qed.

Lemma find_externs_ref_ok tree : ref_fold_ok tree.
Proof.
  induction tree as [tree IH] using SyntaxNode_children_ind.
  intros p h r0 h0 a0 Hp Ha.
  destruct (extern_or_not tree) as [(i & s & x & ->)|Hne].
  - destruct (visit_extern_ref_spec i s x p h r0 h0 a0 Hp Ha)
      as (h1 & Hrun & Hpres & Hres).
    by exists (fresh (dom h0)), h1.
  - rewrite find_externs_ref_children, find_externs_children by done.
    assert (Forall ref_fold_ok (fold_order tree)) as Hall
      by (by rewrite fold_order_children).
    exact (foldl_find_externs_ref _ Hall p h r0 h0 a0 Hp Ha).
Qed.

(** ** Registering intrinsics *)

Lemma obj_set_fresh {V} (o : list (string * V)) k v :
  k ∉ o.*1 → obj_set o k v = o ++ [(k, v)].
Proof.
  induction o as [|[k' v'] o IH]; intros Hk; [done|].
  simpl in *. apply not_elem_of_cons in Hk as [Hne Hk].
  rewrite decide_False by done. by rewrite IH.
Qed.

(** The type table after registration: one entry appended per intrinsic. *)
Lemma register_intrinsics_fold_table {Ty} (its : list (string * Ty)) tt m :
  (foldl register_intrinsic (tt, m) its).1
  = tt ++ ((λ it, Some (it.2, None)) <$> its).
Proof.
  revert tt m. induction its as [|it its IH]; intros tt m.
  - by rewrite app_nil_r.
  - cbn [foldl]. unfold register_intrinsic at 2. cbn [fst snd].
    rewrite IH, store_length_push, <- app_assoc. done.
Qed.

Lemma register_intrinsics_table {Ty} (tt : TypeTable Ty) its :
  (register_intrinsics tt its).1 = tt ++ ((λ it, Some (it.2, None)) <$> its).
Proof. apply register_intrinsics_fold_table. Qed.

Lemma register_intrinsics_fold_map {Ty} (its : list (string * Ty)) tt m :
  NoDup its.*1 → (∀ k, k ∈ its.*1 → k ∉ m.*1) →
  (foldl register_intrinsic (tt, m) its).2
  = m ++ imap (λ k it, (it.1, length tt + k)) its.
Proof.
  revert tt m. induction its as [|it its IH]; intros tt m Hnd Hfresh.
  - by rewrite app_nil_r.
  - apply NoDup_cons in Hnd as [Hit Hnd].
    cbn [foldl]. unfold register_intrinsic at 2. cbn [fst snd].
    rewrite obj_set_fresh by (apply Hfresh; by left).
    rewrite IH; [| done |].
    + rewrite store_length_push, length_app, <- app_assoc. simpl. f_equal. f_equal.
      * f_equal. lia.
      * apply imap_ext. intros k x _. simpl. f_equal. lia.
    + intros k Hk. rewrite fmap_app. simpl. intros [?|Heq]%elem_of_app.
      * apply (Hfresh k); [by right|done].
      * apply list_elem_of_singleton in Heq. by subst.
Qed.

Lemma register_intrinsics_map {Ty} (tt : TypeTable Ty) its :
  NoDup its.*1 →
  (register_intrinsics tt its).2 = imap (λ k it, (it.1, length tt + k)) its.
Proof.
  intros Hnd. unfold register_intrinsics.
  rewrite register_intrinsics_fold_map; [done|done|].
  intros k _. apply not_elem_of_nil.
Qed.

Lemma add_intrinsics_get {Ty} (its : list (string * Ty)) base e n :
  JSArray.get (add_intrinsics e (imap (λ k it, (it.1, base + k)) its)) n
  = if decide (base ≤ n < base + length its)
    then fst <$> its !! (n - base)
    else JSArray.get e n.
Proof.
  unfold add_intrinsics. revert base e.
  induction its as [|it its IH]; intros base e.
  - simpl. rewrite decide_False by lia. done.
  - cbn [imap foldl]. cbn [fst snd].
    rewrite (imap_ext _ (λ k it, (it.1, S base + k)))
      by (intros; simpl; f_equal; lia).
    rewrite IH. cbn [length].
    destruct (decide (S base ≤ n < S base + length its)) as [Hin|Hout].
    + rewrite decide_True by lia.
      replace (n - base) with (S (n - S base)) by lia. done.
    + rewrite get_store, Nat.add_0_r.
      destruct (decide (base = n)) as [->|Hne].
      * rewrite decide_True by lia. by rewrite Nat.sub_diag.
      * rewrite decide_False by lia. done.
Qed.

(** ** Computations over the type table *)

Section monad_lemmas.
Context {Ty : Type}.
Implicit Types tt : TypeTable Ty.

Lemma bind_OK {A B} (m : M Ty A) (f : A → M Ty B) tt a tt1 :
  m tt = OK (a, tt1) → bind m f tt = f a tt1.
Proof. unfold bind. by intros ->. Qed.

Lemma bind_Throw {A B} (m : M Ty A) (f : A → M Ty B) tt e :
  m tt = Throw e → bind m f tt = Throw e.
Proof. unfold bind. by intros ->. Qed.

Lemma bind_inv {A B} (m : M Ty A) (f : A → M Ty B) tt b tt2 :
  bind m f tt = OK (b, tt2) →
  ∃ a tt1, m tt = OK (a, tt1) ∧ f a tt1 = OK (b, tt2).
Proof.
  unfold bind. destruct (m tt) as [[a tt1]|e]; [|done]. intros H. by exists a, tt1.
Qed.

Lemma mapM_app {A B} (f : A → M Ty B) (l1 l2 : list A) tt :
  mapM f (l1 ++ l2) tt
  = bind (mapM f l1) (λ r1, bind (mapM f l2) (λ r2, ret (r1 ++ r2))) tt.
Proof.
  revert tt. induction l1 as [|x l1 IH]; intros tt.
  - cbn [mapM app]. unfold bind, ret.
    destruct (mapM f l2 tt) as [[r2 tt2]|e]; reflexivity.
  - cbn [mapM app]. unfold bind, ret in *.
    destruct (f x tt) as [[y tt1]|e]; [|done].
    rewrite IH. destruct (mapM f l1 tt1) as [[r1 tt2]|e]; [|done].
    destruct (mapM f l2 tt2) as [[r2 tt3]|e]; reflexivity.
Qed.

Lemma mapM_inv {A B} (f : A → M Ty B) (l : list A) :
  ∀ tt r tt', mapM f l tt = OK (r, tt') →
  length r = length l.
Proof.
  induction l as [|x l IH]; intros tt r tt' H.
  - by injection H as <- <-.
  - cbn [mapM] in H. apply bind_inv in H as (y & tt1 & _ & H).
    apply bind_inv in H as (ys & tt2 & Hys & H). injection H as <- <-.
    simpl. f_equal. by eapply IH.
Qed.

(** The base traversal threads the table through the children in visiting
    order and rebuilds the node around the results. *)
Lemma gen_translate_children (fself : SyntaxNode → M Ty SyntaxNode) tree tt :
  gen_translate fself tree tt
  = bind (mapM fself (fold_order tree)) (λ cs, ret (rebuild tree cs)) tt.
Proof.
  destruct tree; try done; cbn [gen_translate fold_order child_nodes mapM].
  all: try (unfold bind, ret; repeat case_match; simplify_eq; done).
  unfold bind. rewrite mapM_app. unfold bind, ret.
  destruct (mapM fself args tt) as [[args' tt1]|e]; [|done].
  cbn [mapM]. unfold bind, ret. destruct (fself tree tt1) as [[f' tt2]|e]; [|done].
  unfold rebuild. rewrite reverse_app, reverse_singleton. simpl.
  by rewrite reverse_involutive.
Qed.
End monad_lemmas.

(** ** Rebuilding nodes *)

Lemma rebuild_fold_order tree : rebuild tree (fold_order tree) = tree.
Proof.
  destruct tree; try done. simpl.
  rewrite reverse_app, reverse_singleton. simpl. by rewrite reverse_involutive.
Qed.

Lemma rebuild_map_children (f : SyntaxNode → SyntaxNode) tree :
  rebuild tree (f <$> fold_order tree) = map_children f tree.
Proof.
  destruct tree; try done. simpl.
  rewrite fmap_app, reverse_app. simpl. by rewrite reverse_involutive.
Qed.

Lemma node_id_rebuild tree cs : node_id (rebuild tree cs) = node_id tree.
Proof.
  destruct tree; try done; simpl;
    repeat (match goal with |- context [match ?l with _ => _ end] => destruct l end;
            try done).
Qed.

Lemma erase_from_unfold n tree :
  erase_from n tree
  = with_id (forget_from n (node_id tree)) (map_children (erase_from n) tree).
Proof. by destruct tree. Qed.

Lemma forget_from_below n i : i < n → forget_from n (Some i) = Some i.
Proof. intros. unfold forget_from. by rewrite decide_True. Qed.

Lemma forget_from_above n i : n ≤ i → forget_from n (Some i) = None.
Proof. intros. unfold forget_from. rewrite decide_False; [done|lia]. Qed.

Lemma with_id_node_id tree : with_id (node_id tree) tree = tree.
Proof. by destruct tree. Qed.

(** Erasing a rebuilt node whose own identity is old erases the children. *)
Lemma erase_from_rebuild n tree cs i :
  node_id tree = Some i → i < n →
  length cs = length (fold_order tree) →
  erase_from n (rebuild tree cs) = rebuild tree (erase_from n <$> cs).
Proof.
  intros Hid Hi Hlen. rewrite erase_from_unfold, node_id_rebuild, Hid.
  rewrite forget_from_below by done.
  destruct tree; simpl in Hid, Hlen; subst;
    try (by destruct cs as [|? [|? [|? ?]]]).
  - revert Hlen. induction cs as [|c cs _] using rev_ind; intros Hlen.
    { rewrite length_app in Hlen. simpl in Hlen. lia. }
    unfold rebuild. rewrite fmap_app, !reverse_app. simpl.
    by rewrite !reverse_involutive.
Qed.

Lemma erase_from_old n tree : ids_below n tree → erase_from n tree = tree.
Proof.
  induction tree as [tree IH] using SyntaxNode_children_ind. intros Hb.
  unfold ids_below in Hb. rewrite nodes_children in Hb.
  apply Forall_cons in Hb as [(i & Hid & Hi) Hb].
  rewrite <- (rebuild_fold_order tree) at 1.
  rewrite (erase_from_rebuild n tree _ i) by done.
  rewrite <- (rebuild_fold_order tree) at 3. f_equal.
  rewrite <- (list_fmap_id (fold_order tree)) at 2.
  apply Forall_fmap_ext. rewrite fold_order_children.
  rewrite Forall_forall in IH |- *. intros c Hc. apply IH; [done|].
  unfold ids_below. rewrite Forall_forall in Hb |- *. intros node Hnode.
  apply Hb. apply list_elem_of_bind. eauto.
Qed.

Lemma ids_below_child n tree c :
  ids_below n tree → c ∈ child_nodes tree → ids_below n c.
Proof.
  unfold ids_below. rewrite !Forall_forall. intros Hb Hc node Hnode.
  apply Hb. apply elem_of_nodes_children. eauto.
Qed.

Lemma ids_below_here n tree :
  ids_below n tree → ∃ i, node_id tree = Some i ∧ i < n.
Proof.
  unfold ids_below. rewrite Forall_forall. intros Hb. apply Hb.
  apply elem_of_nodes_children. by left.
Qed.

(** Settles [ids_below] on a given tree by walking its nodes. *)
Ltac ids_below_by_computation :=
  unfold ids_below; simpl;
  repeat (apply Forall_cons; split; [eexists; split; [reflexivity|lia]|]);
  apply Forall_nil_2.

(** ** Passes built on the base traversal *)

Section generic_pass.
Context {Ty : Type}.
Implicit Types tt : TypeTable Ty.

Variable pass : SyntaxNode → M Ty SyntaxNode.
Variable overridden : SyntaxNode → bool.
Hypothesis pass_below : ∀ tree, overridden tree = false →
  ∀ tt, pass tree tt = gen_translate pass tree tt.

Lemma pass_children tree tt :
  overridden tree = false →
  pass tree tt
  = bind (mapM pass (fold_order tree)) (λ cs, ret (rebuild tree cs)) tt.
Proof. intros H. by rewrite pass_below, gen_translate_children. Qed.

Lemma pass_children_inv tree tt r tt' :
  overridden tree = false → pass tree tt = OK (r, tt') →
  ∃ cs, mapM pass (fold_order tree) tt = OK (cs, tt') ∧ r = rebuild tree cs.
Proof.
  intros H Hrun. rewrite pass_children in Hrun by done.
  apply bind_inv in Hrun as (cs & tt1 & Hcs & Hret).
  injection Hret as <- <-. eauto.
Qed.

(** *** The table is only extended *)
Hypothesis rule_extends : ∀ tree, overridden tree = true →
  ∀ tt r tt', pass tree tt = OK (r, tt') → tt `prefix_of` tt'.

Lemma mapM_extends (cs : list SyntaxNode) :
  Forall (λ c, ∀ tt r tt', pass c tt = OK (r, tt') → tt `prefix_of` tt') cs →
  ∀ tt rs tt', mapM pass cs tt = OK (rs, tt') → tt `prefix_of` tt'.
Proof.
  induction 1 as [|c cs Hc _ IH]; intros tt rs tt' Hrun.
  - by injection Hrun as <- <-.
  - cbn [mapM] in Hrun. apply bind_inv in Hrun as (r & tt1 & Hr & Hrun).
    apply bind_inv in Hrun as (rs' & tt2 & Hrs & Hret). injection Hret as <- <-.
    etrans; [by eapply Hc|by eapply IH].
Qed.

Lemma pass_extends tree :
  ∀ tt r tt', pass tree tt = OK (r, tt') → tt `prefix_of` tt'.
Proof.
  induction tree as [tree IH] using SyntaxNode_children_ind.
  intros tt r tt' Hrun. destruct (overridden tree) eqn:Ho.
  - by eapply rule_extends.
  - apply pass_children_inv in Hrun as (cs & Hcs & _); [|done].
    eapply mapM_extends; [|exact Hcs]. by rewrite fold_order_children.
Qed.

Lemma mapM_pass_extends cs tt rs tt' :
  mapM pass cs tt = OK (rs, tt') → tt `prefix_of` tt'.
Proof.
  apply mapM_extends. apply Forall_forall. intros c _. apply pass_extends.
Qed.

(** *** Refinement of a rewrite on trees *)
Section refines.
Variable spec : SyntaxNode → SyntaxNode.
Variable tt0 : TypeTable Ty.
Variable good : SyntaxNode → Prop.
Hypothesis spec_below : ∀ tree, overridden tree = false →
  spec tree = map_children spec tree.
Hypothesis rule_refines : ∀ tree, overridden tree = true → good tree →
  ∀ tt1 r tt2, tt0 `prefix_of` tt1 →
    (∃ i, node_id tree = Some i ∧ i < length tt0) →
    pass tree tt1 = OK (r, tt2) →
    erase_from (length tt0) r = spec tree.

Lemma mapM_refines (cs : list SyntaxNode) :
  Forall (λ c, ∀ tt1 r tt2, tt0 `prefix_of` tt1 →
            ids_below (length tt0) c → Forall good (nodes c) →
            pass c tt1 = OK (r, tt2) →
            erase_from (length tt0) r = spec c) cs →
  ∀ tt1 rs tt2, tt0 `prefix_of` tt1 → Forall (ids_below (length tt0)) cs →
    Forall (λ c, Forall good (nodes c)) cs →
    mapM pass cs tt1 = OK (rs, tt2) →
    erase_from (length tt0) <$> rs = spec <$> cs.
Proof.
  induction 1 as [|c cs Hc _ IH]; intros tt1 rs tt2 Hpre Hids Hgood Hrun.
  - by injection Hrun as <- <-.
  - apply Forall_cons in Hids as [Hid Hids].
    apply Forall_cons in Hgood as [Hg Hgood].
    cbn [mapM] in Hrun. apply bind_inv in Hrun as (r & tt3 & Hr & Hrun).
    apply bind_inv in Hrun as (rs' & tt4 & Hrs & Hret). injection Hret as <- <-.
    cbn [fmap list_fmap]. f_equal; [by eapply Hc|].
    eapply IH; [|done|done|exact Hrs].
    etrans; [exact Hpre|]. by eapply pass_extends.
Qed.

Lemma pass_refines tree :
  ∀ tt1 r tt2, tt0 `prefix_of` tt1 → ids_below (length tt0) tree →
    Forall good (nodes tree) →
    pass tree tt1 = OK (r, tt2) →
    erase_from (length tt0) r = spec tree.
Proof.
  induction tree as [tree IH] using SyntaxNode_children_ind.
  intros tt1 r tt2 Hpre Hids Hgood Hrun. destruct (overridden tree) eqn:Ho.
  - eapply rule_refines; [done| |exact Hpre| |exact Hrun].
    + rewrite Forall_forall in Hgood. apply Hgood.
      apply elem_of_nodes_children. by left.
    + by apply ids_below_here.
  - apply pass_children_inv in Hrun as (cs & Hcs & ->); [|done].
    destruct (ids_below_here _ _ Hids) as (i & Hid & Hi).
    rewrite (erase_from_rebuild _ _ _ i) by
      (done || by (erewrite mapM_inv by exact Hcs)).
    rewrite spec_below, <- rebuild_map_children by done. f_equal.
    eapply mapM_refines; [|exact Hpre| | |exact Hcs].
    + by rewrite fold_order_children.
    + rewrite fold_order_children. apply Forall_forall. intros c Hc.
      by eapply ids_below_child.
    + rewrite fold_order_children. apply Forall_forall. intros c Hc.
      rewrite Forall_forall in Hgood |- *. intros node Hnode.
      apply Hgood. apply elem_of_nodes_children. eauto.
Qed.
End refines.

(** *** An overridden node that throws makes the pass throw *)
Section throws.
Variable tt0 : TypeTable Ty.
Variable sites : SyntaxNode → list SyntaxNode.
Variable bad : SyntaxNode → Prop.
Hypothesis sites_here : ∀ tree node, overridden tree = true →
  node ∈ sites tree → node = tree.
Hypothesis sites_below : ∀ tree node, overridden tree = false →
  node ∈ sites tree → ∃ c, c ∈ child_nodes tree ∧ node ∈ sites c.
Hypothesis rule_throws : ∀ tree, overridden tree = true → bad tree →
  ∀ tt1 res, tt0 `prefix_of` tt1 → pass tree tt1 ≠ OK res.

Lemma mapM_throws (cs : list SyntaxNode) :
  Forall (λ c, ∀ node tt1 res, node ∈ sites c → bad node →
            tt0 `prefix_of` tt1 → pass c tt1 ≠ OK res) cs →
  ∀ c node tt1 res, c ∈ cs → node ∈ sites c → bad node →
    tt0 `prefix_of` tt1 → mapM pass cs tt1 ≠ OK res.
Proof.
  induction 1 as [|c' cs Hc _ IH]; intros c node tt1 [rs tt2] Hin Hnode Hbad Hpre Hrun.
  - by apply elem_of_nil in Hin.
  - cbn [mapM] in Hrun. apply bind_inv in Hrun as (r & tt3 & Hr & Hrun).
    apply bind_inv in Hrun as (rs' & tt4 & Hrs & _).
    apply elem_of_cons in Hin as [->|Hin].
    + by eapply (Hc node tt1 (r, tt3)).
    + eapply (IH c node tt3 (rs', tt4)); try done.
      etrans; [exact Hpre|]. by eapply pass_extends.
Qed.

Lemma pass_throws tree :
  ∀ node tt1 res, node ∈ sites tree → bad node → tt0 `prefix_of` tt1 →
    pass tree tt1 ≠ OK res.
Proof.
  induction tree as [tree IH] using SyntaxNode_children_ind.
  intros node tt1 [r tt2] Hnode Hbad Hpre Hrun. destruct (overridden tree) eqn:Ho.
  - apply sites_here in Hnode as ->; [|done].
    by eapply (rule_throws tree Ho Hbad tt1 (r, tt2)).
  - apply sites_below in Hnode as (c & Hc & Hnode); [|done].
    apply pass_children_inv in Hrun as (cs & Hcs & _); [|done].
    eapply (mapM_throws (fold_order tree)); try done.
    + by rewrite fold_order_children.
    + by rewrite fold_order_children.
Qed.
End throws.

(** *** A pass whose rule changes nothing is the identity *)
Section identity.
Variable tt0 : TypeTable Ty.
Variable good : SyntaxNode → Prop.
Hypothesis rule_identity : ∀ tree, overridden tree = true → good tree →
  ∀ tt1, tt0 `prefix_of` tt1 → pass tree tt1 = OK (tree, tt1).

Lemma mapM_identity (cs : list SyntaxNode) :
  Forall (λ c, Forall (λ node, overridden node = true → good node) (nodes c) →
            ∀ tt1, tt0 `prefix_of` tt1 → pass c tt1 = OK (c, tt1)) cs →
  Forall (λ c, Forall (λ node, overridden node = true → good node) (nodes c)) cs →
  ∀ tt1, tt0 `prefix_of` tt1 → mapM pass cs tt1 = OK (cs, tt1).
Proof.
  induction 1 as [|c cs Hc _ IH]; intros Hgood tt1 Hpre; [done|].
  apply Forall_cons in Hgood as [Hg Hgood].
  cbn [mapM]. erewrite bind_OK by (by apply Hc).
  erewrite bind_OK by (by apply IH). done.
Qed.

Lemma pass_identity tree :
  Forall (λ node, overridden node = true → good node) (nodes tree) →
  ∀ tt1, tt0 `prefix_of` tt1 → pass tree tt1 = OK (tree, tt1).
Proof.
  induction tree as [tree IH] using SyntaxNode_children_ind.
  intros Hgood tt1 Hpre. destruct (overridden tree) eqn:Ho.
  - apply rule_identity; [done| |done].
    rewrite Forall_forall in Hgood. apply Hgood; [|done].
    apply elem_of_nodes_children. by left.
  - rewrite pass_children by done.
    erewrite bind_OK.
    2:{ apply mapM_identity; [by rewrite fold_order_children| |done].
        rewrite fold_order_children. apply Forall_forall. intros c Hc.
        rewrite Forall_forall in Hgood |- *. intros node Hnode.
        apply Hgood. apply elem_of_nodes_children. eauto. }
    unfold ret. by rewrite rebuild_fold_order.
Qed.
End identity.
End generic_pass.

(** ** Stage distances *)

Lemma stack_lookup_index {T} (mapstack : list (gmap string T)) ident k :
  (stack_lookup mapstack ident).2 = Some k ↔
  (∃ map v, mapstack !! k = Some map ∧ map !! ident = Some v)
  ∧ (∀ j map, j < k → mapstack !! j = Some map → map !! ident = None).
Proof.
  revert k. induction mapstack as [|m rest IH]; intros k.
  - simpl. split; [done|]. intros [(map & v & Hm & _) _].
    by rewrite lookup_nil in Hm.
  - cbn [stack_lookup]. destruct (m !! ident) as [v'|] eqn:Hm.
    + cbn [snd]. split.
      * intros [= <-]. split; [by exists m, v'|]. intros j map Hj. lia.
      * intros [(map & v & Hk & Hv) Hnone]. destruct k as [|k]; [done|].
        specialize (Hnone 0 m (Nat.lt_0_succ k) eq_refl). congruence.
    + cbn [snd]. split.
      * destruct (stack_lookup rest ident).2 as [k'|]; [|done].
        intros [= <-]. destruct (proj1 (IH k') eq_refl) as [Hhit Hnone].
        split; [done|].
        intros [|j] map Hj Hmap; simpl in Hmap; [congruence|].
        eapply Hnone; [|done]. lia.
      * intros [(map & v & Hk & Hv) Hnone]. destruct k as [|k].
        { simpl in Hk. injection Hk as <-. congruence. }
        rewrite (proj2 (IH k)); [done|].
        split; [by exists map, v|]. intros j map' Hj Hmap'.
        apply (Hnone (S j) map'); [lia|done].
Qed.

Lemma stack_lookup_miss {T} (mapstack : list (gmap string T)) ident :
  (stack_lookup mapstack ident).2 = None ↔
  Forall (λ map, map !! ident = None) mapstack.
Proof.
  induction mapstack as [|m rest IH]; [done|].
  cbn [stack_lookup]. rewrite Forall_cons. destruct (m !! ident) as [v|] eqn:Hm.
  - split; [done|]. by intros [? _].
  - cbn [snd]. rewrite <- IH. destruct (stack_lookup rest ident).2; simpl.
    + split; [done|]. by intros [_ ?].
    + done.
Qed.

(** ** The elaborator's entry point *)

Section elaborate.
Context {Ty : Type}.
Implicit Types (tt : TypeTable Ty) (check : TypeCheck Ty).

Lemma elaborate_subtree_inv tree env check tt r tt' :
  elaborate_subtree tree env check tt = OK (r, tt') →
  r = (stamp tree (length tt)).1
  ∧ ∃ entries, check r env = OK entries
      ∧ tt' = tt ++ ((λ te, Some (te.1, Some te.2)) <$> entries).
Proof.
  unfold elaborate_subtree.
  destruct (check _ env) as [entries|e] eqn:Hc; [|done].
  intros [= <- <-]. eauto.
Qed.

Lemma elaborate_subtree_extends tree env check tt r tt' :
  elaborate_subtree tree env check tt = OK (r, tt') → tt `prefix_of` tt'.
Proof.
  intros H. apply elaborate_subtree_inv in H as (Hr & entries & Hc & Htt).
  subst tt'. by apply prefix_app_r.
Qed.

Lemma elaborate_subtree_Throw tree env check tt e :
  elaborate_subtree tree env check tt = Throw e →
  check (stamp tree (length tt)).1 env = Throw e.
Proof.
  unfold elaborate_subtree. destruct (check _ env) as [entries|e']; [done|].
  by intros [= ->].
Qed.

Lemma table_get_prefix tt tt' n entry :
  tt `prefix_of` tt' → JSArray.get tt n = Some entry →
  JSArray.get tt' n = Some entry.
Proof.
  intros [k ->] H%get_Some_lookup. apply get_Some_lookup.
  by apply lookup_app_l_Some.
Qed.

Lemma table_get_prefix_below tt tt' n :
  tt `prefix_of` tt' → n < length tt → JSArray.get tt' n = JSArray.get tt n.
Proof.
  intros [k ->] H. unfold JSArray.get. by rewrite lookup_app_l.
Qed.

Lemma prefix_table_grows tt tt' : tt `prefix_of` tt' → table_grows tt tt'.
Proof. intros H n entry. by apply table_get_prefix. Qed.

Lemma env_at_prefix tt tt' i n :
  tt `prefix_of` tt' → i = Some n → n < length tt →
  env_at tt' i = env_at tt i.
Proof.
  intros Hpre -> Hn. unfold env_at. by rewrite (table_get_prefix_below tt tt').
Qed.

Lemma env_at_Some_below tt i env :
  env_at tt i = Some env → ∃ n, i = Some n ∧ n < length tt.
Proof.
  unfold env_at. destruct i as [n|]; [|done].
  destruct (JSArray.get tt n) as [entry|] eqn:H; [|done]. intros _.
  exists n. split; [done|]. apply get_Some_lookup in H.
  by eapply lookup_lt_Some.
Qed.

Lemma env_at_prefix_Some tt tt' i env :
  tt `prefix_of` tt' → env_at tt i = Some env → env_at tt' i = Some env.
Proof.
  intros Hpre H. destruct (env_at_Some_below _ _ _ H) as (n & -> & Hn).
  by rewrite (env_at_prefix tt tt' _ n).
Qed.

(** Reading the entry and its environment, as the rules do first. *)
Lemma read_env_OK {A} tt i env (k : TypeEnv Ty → M Ty A) :
  env_at tt i = Some env →
  (entry <- type_table_get i ;; env <- nonnull entry.2 ;; k env)%M tt = k env tt.
Proof.
  unfold env_at, bind, type_table_get. destruct i as [n|]; [|done].
  destruct (JSArray.get tt n) as [[ty oenv]|]; [|done]. simpl.
  by intros ->.
Qed.

Lemma read_env_inv {A} tt i (k : TypeEnv Ty → M Ty A) res :
  (entry <- type_table_get i ;; env <- nonnull entry.2 ;; k env)%M tt = OK res →
  ∃ env, env_at tt i = Some env ∧ k env tt = OK res.
Proof.
  unfold env_at, bind, type_table_get. destruct i as [n|]; [|done].
  destruct (JSArray.get tt n) as [[ty oenv]|]; [|done]. simpl.
  destruct oenv as [env|]; [|done]. simpl. eauto.
Qed.
End elaborate.

(** ** Auto-persist *)

Section auto_persist.
Context {Ty : Type}.
Implicit Types (tt : TypeTable Ty) (check : TypeCheck Ty) (env : TypeEnv Ty).

Lemma desugar_cross_stage_below check tree :
  is_lookup tree = false →
  ∀ tt, desugar_cross_stage check tree tt
        = gen_translate (desugar_cross_stage check) tree tt.
Proof. by destruct tree. Qed.

Lemma desugar_lookup_unchanged check tt i x env :
  env_at tt i = Some env →
  js_in x (externs env) ∨ stage_distance env x = Some 0 →
  desugar_cross_stage check (LookupNode i x) tt = OK (LookupNode i x, tt).
Proof.
  intros Henv Hcase. cbn [desugar_cross_stage gen_desugar_cross_stage].
  rewrite (read_env_OK tt i env) by done.
  destruct (decide (js_in x (externs env))) as [|Hne]; [done|].
  destruct Hcase as [|Hd]; [done|].
  unfold stage_distance in Hd. by rewrite decide_True.
Qed.

Lemma desugar_lookup_escape check tt i x env :
  env_at tt i = Some env →
  ¬ js_in x (externs env) → stage_distance env x ≠ Some 0 →
  desugar_cross_stage check (LookupNode i x) tt
  = elaborate_subtree
      (EscapeNode None "persist" (LookupNode None x) (stage_distance env x))
      env check tt.
Proof.
  intros Henv Hne Hd. cbn [desugar_cross_stage gen_desugar_cross_stage].
  rewrite (read_env_OK tt i env) by done.
  rewrite decide_False by done.
  unfold stage_distance in Hd |- *. by rewrite decide_False.
Qed.

Lemma desugar_lookup_persist check tt i x env k :
  env_at tt i = Some env →
  ¬ js_in x (externs env) → stage_distance env x = Some k → 0 < k →
  desugar_cross_stage check (LookupNode i x) tt
  = elaborate_subtree (persist_escape x k) env check tt.
Proof.
  intros Henv Hne Hd Hk.
  rewrite (desugar_lookup_escape check tt i x env) by
    (done || (rewrite Hd; intros [= ->]; lia)).
  by rewrite Hd.
Qed.

Lemma desugar_lookup_inv check tt i x r tt' :
  desugar_cross_stage check (LookupNode i x) tt = OK (r, tt') →
  ∃ env, env_at tt i = Some env ∧
    (((js_in x (externs env) ∨ stage_distance env x = Some 0)
      ∧ r = LookupNode i x ∧ tt' = tt)
     ∨ ((¬ js_in x (externs env)) ∧ stage_distance env x ≠ Some 0
          ∧ elaborate_subtree
              (EscapeNode None "persist" (LookupNode None x)
                 (stage_distance env x)) env check tt = OK (r, tt'))).
Proof.
  intros Hrun. pose proof Hrun as Hrun0.
  cbn [desugar_cross_stage gen_desugar_cross_stage] in Hrun0.
  apply read_env_inv in Hrun0 as (env & Henv & _). exists env. split; [done|].
  destruct (decide (js_in x (externs env))) as [Hin|Hne].
  { rewrite (desugar_lookup_unchanged check tt i x env) in Hrun by eauto.
    injection Hrun as <- <-. left. eauto. }
  destruct (decide (stage_distance env x = Some 0)) as [Hd|Hd].
  - rewrite (desugar_lookup_unchanged check tt i x env) in Hrun by eauto.
    injection Hrun as <- <-. left. eauto.
  - right. split_and!; [done|done|].
    by rewrite <- (desugar_lookup_escape check tt i x env).
Qed.

Lemma overridden_lookup tree :
  is_lookup tree = true → ∃ i x, tree = LookupNode i x.
Proof. destruct tree; try done. eauto. Qed.

Lemma erase_from_persist_escape n m x k :
  n ≤ m →
  erase_from n (stamp (persist_escape x k) m).1 = persist_escape x k.
Proof.
  intros Hnm. cbn -[forget_from]. rewrite !forget_from_above by lia. done.
Qed.

Lemma desugar_cross_stage_extends check tree tt r tt' :
  desugar_cross_stage check tree tt = OK (r, tt') → tt `prefix_of` tt'.
Proof.
  revert tree tt r tt'.
  apply (pass_extends (desugar_cross_stage check) is_lookup
           (desugar_cross_stage_below check)).
  intros tree Ho tt r tt' Hrun.
  apply overridden_lookup in Ho as (i & x & ->).
  apply desugar_lookup_inv in Hrun
    as (env & Henv & [(_ & _ & ->)|(_ & _ & Hel)]); [done|].
  by eapply elaborate_subtree_extends.
Qed.

Lemma js_in_plain {V} x (obj : gmap string V) :
  x ∉ dom obj → x ∉ Object_prototype → ¬ js_in x obj.
Proof. by intros ?? [?|?]. Qed.

Lemma desugar_cross_stage_refines check tt tree tree' tt' :
  ids_below (length tt) tree →
  Forall (plain_read tt) (nodes tree) →
  desugar_cross_stage check tree tt = OK (tree', tt') →
  erase_from (length tt) tree' = auto_persist tt tree.
Proof.
  intros Hids Hplain Hrun.
  refine (pass_refines (desugar_cross_stage check) is_lookup
            (desugar_cross_stage_below check) _ (auto_persist tt) tt
            (plain_read tt) _ _
            tree tt tree' tt' _ Hids Hplain Hrun); [|by intros []| |done].
  - intros t Ho t1 r t2 H. by eapply desugar_cross_stage_extends.
  - intros t Ho Hgood tt1 r tt2 Hpre (n & Hid & Hn) Hr.
    apply overridden_lookup in Ho as (i & x & ->). simpl in Hid. subst i.
    apply desugar_lookup_inv in Hr as (env & Henv & Hcase).
    rewrite (env_at_prefix tt tt1 _ n) in Henv by done.
    specialize (Hgood (Some n) x env eq_refl Henv).
    cbn [auto_persist]. unfold auto_persist_lookup. rewrite Henv.
    destruct (decide (x ∈ dom (externs env))) as [Hown|Hown].
    { destruct Hcase as [(_ & -> & ->)|(Hne & _)].
      - cbn -[forget_from]. by rewrite forget_from_below.
      - by destruct Hne; left. }
    destruct Hgood as [?|[Hproto [k Hd]]]; [done|].
    rewrite Hd in Hcase |- *.
    destruct Hcase as [([Hin|Hz] & -> & ->)|(Hne & Hk & Hel)].
    + by destruct (js_in_plain x (externs env)).
    + injection Hz as ->. cbn -[forget_from]. by rewrite forget_from_below.
    + destruct k as [|k]; [done|].
      apply elaborate_subtree_inv in Hel as (-> & _).
      apply (erase_from_persist_escape _ _ x (S k)). by apply prefix_length.
Qed.

Lemma desugar_cross_stage_identity check tt tree :
  Forall (current_stage_read tt) (nodes tree) →
  desugar_cross_stage check tree tt = OK (tree, tt).
Proof.
  intros Hgood.
  refine (pass_identity (desugar_cross_stage check) is_lookup
            (desugar_cross_stage_below check) tt (current_stage_read tt) _
            tree _ tt _); [| |done].
  - intros t Ho Hg tt1 Hpre.
    apply overridden_lookup in Ho as (i & x & ->).
    destruct (Hg i x eq_refl) as (env & Henv & Hcase).
    apply (desugar_lookup_unchanged check tt1 i x env).
    + by eapply env_at_prefix_Some.
    + destruct Hcase as [Hown|Hd]; [left; by left|by right].
  - eapply Forall_impl; [exact Hgood|]. by intros node Hn _.
Qed.
End auto_persist.

(** ** Macro expansion *)

Section macros.
Context {Ty : Type}.
Implicit Types (tt : TypeTable Ty) (check : TypeCheck Ty) (env : TypeEnv Ty).

Lemma desugar_macros_below check tree :
  is_macrocall tree = false →
  ∀ tt, _desugar_macros check tree tt
        = gen_translate (_desugar_macros check) tree tt.
Proof. by destruct tree. Qed.

(** What macro expansion hands to the elaborator. *)
Lemma visit_macrocall_out check tt i m env :
  env_at tt i = Some env →
  visit_macrocall check i m tt
  = elaborate_subtree
      (match stage_distance env m with
       | Some k => macro_out m k
       | None => macro_call m
       end) env check tt.
Proof.
  intros Henv. unfold visit_macrocall.
  rewrite (read_env_OK tt i env) by done.
  unfold stage_distance, macro_out, splice_escape, macro_call.
  destruct (stack_lookup (stack env) m).2 as [k|]; [|done].
  cbn [greater_than_0]. by case_bool_decide; case_decide.
Qed.

Lemma visit_macrocall_resolved check tt i m env k :
  env_at tt i = Some env → stage_distance env m = Some k →
  visit_macrocall check i m tt = elaborate_subtree (macro_out m k) env check tt.
Proof.
  intros Henv Hd. rewrite (visit_macrocall_out check tt i m env) by done.
  by rewrite Hd.
Qed.

Lemma visit_macrocall_inv check tt i m r tt' :
  visit_macrocall check i m tt = OK (r, tt') →
  ∃ env, env_at tt i = Some env
    ∧ elaborate_subtree
        (match stage_distance env m with
         | Some k => macro_out m k
         | None => macro_call m
         end) env check tt = OK (r, tt').
Proof.
  intros Hrun. pose proof Hrun as Hrun0. unfold visit_macrocall in Hrun0.
  apply read_env_inv in Hrun0 as (env & Henv & _). exists env.
  split; [done|]. by rewrite <- (visit_macrocall_out check tt i m env).
Qed.

Lemma overridden_macrocall tree :
  is_macrocall tree = true → ∃ i m args, tree = MacroCallNode i m args.
Proof. destruct tree; try done. eauto. Qed.

Lemma erase_from_macro_out n n' m k :
  n ≤ n' → erase_from n (stamp (macro_out m k) n').1 = macro_out m k.
Proof.
  intros Hnm. unfold macro_out. case_decide.
  - cbn -[forget_from]. rewrite !forget_from_above by lia. done.
  - cbn -[forget_from]. rewrite !forget_from_above by lia. done.
Qed.

Lemma desugar_macros_extends check tree tt r tt' :
  _desugar_macros check tree tt = OK (r, tt') → tt `prefix_of` tt'.
Proof.
  revert tree tt r tt'.
  apply (pass_extends (_desugar_macros check) is_macrocall
           (desugar_macros_below check)).
  intros tree Ho tt r tt' Hrun.
  apply overridden_macrocall in Ho as (i & m & args & ->).
  apply visit_macrocall_inv in Hrun as (env & _ & Hel).
  by eapply elaborate_subtree_extends.
Qed.

Lemma expand_macrocall_out tt i m args env :
  env_at tt i = Some env →
  expand_macrocall tt i m args
  = match stage_distance env m with
    | Some k => macro_out m k
    | None => macro_call m
    end.
Proof.
  intros Henv. unfold expand_macrocall, macro_out. rewrite Henv.
  destruct (stage_distance env m) as [[|k]|]; [done| |done].
  by rewrite decide_True by lia.
Qed.

Lemma erase_from_macro_call n n' m :
  n ≤ n' → erase_from n (stamp (macro_call m) n').1 = macro_call m.
Proof.
  intros Hnm. cbn -[forget_from]. rewrite !forget_from_above by lia. done.
Qed.

Lemma desugar_macros_refines check tt tree tree' tt' :
  ids_below (length tt) tree →
  _desugar_macros check tree tt = OK (tree', tt') →
  erase_from (length tt) tree' = expand_macros tt tree.
Proof.
  intros Hids Hrun.
  refine (pass_refines (_desugar_macros check) is_macrocall
            (desugar_macros_below check) _ (expand_macros tt) tt
            (λ _, True) _ _
            tree tt tree' tt' _ Hids _ Hrun); [|by intros []| |done|].
  - intros t Ho t1 r t2 H. by eapply desugar_macros_extends.
  - intros t Ho _ tt1 r tt2 Hpre (n & Hid & Hn) Hr.
    apply overridden_macrocall in Ho as (i & m & args & ->).
    simpl in Hid. subst i.
    apply visit_macrocall_inv in Hr as (env & Henv & Hel).
    rewrite (env_at_prefix tt tt1 _ n) in Henv by done.
    cbn [expand_macros].
    rewrite (expand_macrocall_out tt _ m args env) by done.
    apply elaborate_subtree_inv in Hel as (-> & _).
    destruct (stage_distance env m) as [k|].
    + apply erase_from_macro_out. by apply prefix_length.
    + apply erase_from_macro_call. by apply prefix_length.
  - by apply Forall_true.
Qed.

Lemma macro_sites_here tree node :
  is_macrocall tree = true → node ∈ macro_sites tree → node = tree.
Proof.
  intros (i & m & args & ->)%overridden_macrocall Hn. simpl in Hn.
  by apply list_elem_of_singleton in Hn.
Qed.

Lemma macro_sites_below tree node :
  is_macrocall tree = false → node ∈ macro_sites tree →
  ∃ c, c ∈ child_nodes tree ∧ node ∈ macro_sites c.
Proof.
  intros Ho Hn. destruct tree; simpl in Ho, Hn; try done;
    try (by apply elem_of_nil in Hn);
    try (eexists; split; [by apply list_elem_of_here|done]).
  - apply elem_of_app in Hn as [Hn|Hn];
      eexists; (split; [|exact Hn]); set_solver.
  - apply elem_of_app in Hn as [Hn|Hn];
      eexists; (split; [|exact Hn]); set_solver.
  - apply elem_of_app in Hn as [Hn|Hn].
    + eexists; (split; [|exact Hn]); set_solver.
    + apply list_elem_of_bind in Hn as (c & Hn & Hc).
      exists c. split; [|done]. by apply list_elem_of_further.
Qed.
End macros.

(** ** Semantic analysis *)

Section analysis_lemmas.
Context {Ty : Type}.
Variable find_scopes : SyntaxNode → result (list (option nat)).
Variable find_def_use :
  SyntaxNode → list (string * nat) → result (list (option nat)).
Variable index_tree : SyntaxNode → result (list (option SyntaxNode)).
Variable lift :
  SyntaxNode → list (option nat) → list (option nat) →
  list (option SyntaxNode) → result lifted.

Lemma semantically_analyze_inv tree (tt : TypeTable Ty) its ir :
  semantically_analyze find_scopes find_def_use index_tree lift tree tt its
    = OK ir →
  ∃ scopes defuse index procs main progs toplevel quoted,
    find_scopes tree = OK scopes
    ∧ find_def_use tree (register_intrinsics tt its).2 = OK defuse
    ∧ index_tree tree = OK index
    ∧ lift tree defuse scopes index = OK (procs, main, progs)
    ∧ group_by_prog procs progs scopes = OK (toplevel, quoted)
    ∧ ir = mkIR defuse procs progs main toplevel quoted
             (register_intrinsics tt its).1
             (add_intrinsics (find_externs tree [])
                             (register_intrinsics tt its).2)
             scopes.
Proof.
  unfold semantically_analyze.
  destruct (register_intrinsics tt its) as [tt' imap].
  destruct (find_scopes tree) as [scopes|] eqn:Hs; [|done].
  destruct (find_def_use tree imap) as [defuse|] eqn:Hd; [|done].
  destruct (index_tree tree) as [index|] eqn:Hi; [|done].
  destruct (lift tree defuse scopes index) as [[[procs main] progs]|] eqn:Hl;
    [|done].
  destruct (group_by_prog procs progs scopes) as [[toplevel quoted]|] eqn:Hg;
    [|done].
  intros [= <-].
  exists scopes, defuse, index, procs, main, progs, toplevel, quoted.
  split_and!; done.
Qed.

Lemma semantically_analyze_OK tree (tt : TypeTable Ty) its
    scopes defuse index procs main progs toplevel quoted :
  find_scopes tree = OK scopes →
  find_def_use tree (register_intrinsics tt its).2 = OK defuse →
  index_tree tree = OK index →
  lift tree defuse scopes index = OK (procs, main, progs) →
  group_by_prog procs progs scopes = OK (toplevel, quoted) →
  semantically_analyze find_scopes find_def_use index_tree lift tree tt its
  = OK (mkIR defuse procs progs main toplevel quoted
             (register_intrinsics tt its).1
             (add_intrinsics (find_externs tree [])
                             (register_intrinsics tt its).2)
             scopes).
Proof.
  unfold semantically_analyze.
  destruct (register_intrinsics tt its) as [tt' imap]. simpl.
  by intros -> -> -> -> ->.
Qed.
End analysis_lemmas.

Lemma find_externs_nothing_else tree a n :
  is_Some (JSArray.get (find_externs tree a) n) →
  n ∈ extern_ids tree ∨ is_Some (JSArray.get a n).
Proof.
  intros H. destruct (decide (n ∈ extern_ids tree)) as [|Hn]; [by left|].
  right. by rewrite find_externs_frame in H.
Qed.

(** * The statements of the specification *)

(** C1.  Auto-persist on a read of a name that objects inherit.  In
    [var toString = 1; < let y = 1; y + toString >] the read of [toString]
    lies in the quotation, its name is not an external reference of the
    captured environment and its stage distance is 1, so the rule of
    section 4.1 makes it a persist escape with count 1 around a read of
    [toString].  The pass returns the tree and the table it was given,
    whatever the checker: [tree.ident in env.externs] holds of a name that
    the plain object [env.externs] inherits, and the read is taken for an
    extern access. *)
Theorem inherited_name_read_is_not_persisted (check : TypeCheck string) :
  env_at Sample.inherited_table (Some 6) = Some Sample.inherited_env_in
  ∧ ("toString" ∉ dom (externs Sample.inherited_env_in))
  ∧ stage_distance Sample.inherited_env_in "toString" = Some 1
  ∧ auto_persist Sample.inherited_table Sample.inherited_tree
    = Sample.inherited_tree_persisted
  ∧ desugar_cross_stage check Sample.inherited_tree Sample.inherited_table
    = OK (Sample.inherited_tree, Sample.inherited_table).
Proof.
  split_and!.
  - reflexivity.
  - apply not_elem_of_dom. vm_compute. reflexivity.
  - vm_compute. reflexivity.
  - vm_compute. reflexivity.
  - vm_compute. reflexivity.
Qed.

(** C2.  Macro expansion, invocation by invocation.  For an invocation
    whose captured environment binds the macro's name at stage distance k,
    the pass returns what the elaborator makes of a call with no arguments
    whose callee is a read of the macro's name, bare when k = 0 and wrapped
    in a splice escape with count k when k > 0; over a whole elaborated tree
    the result is, up to the fresh identities, the tree in which every
    invocation has been rewritten by this rule. *)
Theorem macro_expansion_rewrites_calls {Ty} (check : TypeCheck Ty) (tt : TypeTable Ty) :
  (∀ i m args env k, env_at tt i = Some env → stage_distance env m = Some k →
     desugar_macros (MacroCallNode i m args) tt check
     = elaborate_subtree
         (if decide (0 < k)
          then EscapeNode None "splice" (CallNode None (LookupNode None m) [])
                 (Some k)
          else CallNode None (LookupNode None m) [])
         env check tt
     ∧ ∀ r tt', desugar_macros (MacroCallNode i m args) tt check = OK (r, tt') →
         (k = 0 → r = CallNode (Some (length tt))
                        (LookupNode (Some (S (length tt))) m) [])
         ∧ (0 < k → r = EscapeNode (Some (length tt)) "splice"
                          (CallNode (Some (S (length tt)))
                             (LookupNode (Some (S (S (length tt)))) m) [])
                          (Some k)))
  ∧ (∀ tree tree' tt', ids_below (length tt) tree →
       desugar_macros tree tt check = OK (tree', tt') →
       erase_from (length tt) tree' = expand_macros tt tree).
Proof.
  split.
  - intros i m args env k Henv Hd.
    assert (desugar_macros (MacroCallNode i m args) tt check
            = elaborate_subtree (macro_out m k) env check tt) as Heq
      by (by apply visit_macrocall_resolved).
    split; [exact Heq|].
    intros r tt' Hrun. rewrite Heq in Hrun.
    apply elaborate_subtree_inv in Hrun as [-> _]. unfold macro_out. split.
    + intros ->. done.
    + intros Hk. by rewrite decide_True.
  - intros tree tree' tt'. apply desugar_macros_refines.
Qed.

Lemma macro_expansion_rewrites_calls_witness :
  desugar_macros Sample.macro_tree Sample.macro_table Sample.check_int
    = OK (Sample.macro_tree_desugared, Sample.macro_table_desugared)
  ∧ erase_from (length Sample.macro_table) Sample.macro_tree_desugared
    = expand_macros Sample.macro_table Sample.macro_tree.
Proof.
  split; [vm_compute; reflexivity|].
  apply (proj2 (macro_expansion_rewrites_calls Sample.check_int Sample.macro_table)
           Sample.macro_tree Sample.macro_tree_desugared
           Sample.macro_table_desugared).
  - ids_below_by_computation.
  - vm_compute. reflexivity.
Defined.

(** C3.  Grouping is a partition.  [group_by_prog] returns when every quote
    parent of a defined Procedure is the identity of a defined Staged
    Program, and whenever it returns, every
    defined Procedure without a quote parent is in the top-level list, every
    defined Procedure whose quote parent is [q] is in the list that the
    quoted table holds at [q], which is the identity of a defined Staged
    Program; the lists hold nothing else, so the top-level list together with
    all the lists of the quoted table is a rearrangement of the identities of
    the defined Procedures: none is left out, and none occurs twice unless it
    occurs twice among the Procedures. *)
Theorem group_by_prog_partition procs progs scopes :
  (quote_parents_known procs progs →
   ∃ toplevel quoted, group_by_prog procs progs scopes = OK (toplevel, quoted))
  ∧ ∀ toplevel quoted,
      group_by_prog procs progs scopes = OK (toplevel, quoted) →
      (∀ p : Proc, p ∈ JSArray.defined procs → quote_parent p = None →
         scope_id p ∈ toplevel)
      ∧ (∀ (p : Proc) q, p ∈ JSArray.defined procs → quote_parent p = Some q →
           q ∈ prog_ids progs ∧
           ∃ l, JSArray.get quoted q = Some l ∧ scope_id p ∈ l)
      ∧ toplevel = toplevel_of procs
      ∧ (∀ q l, JSArray.get quoted q = Some l →
           q ∈ prog_ids progs ∧ l = quoted_of q procs)
      ∧ toplevel ++ concat (JSArray.defined quoted) ≡ₚ proc_ids procs
      ∧ (NoDup (proc_ids procs) →
         NoDup (toplevel ++ concat (JSArray.defined quoted))).
Proof.
  split.
  { intros Hk. destruct (group_by_prog_known procs progs scopes Hk)
      as (quoted & Hrun & _). eauto. }
  intros toplevel quoted Hrun.
  pose proof (group_by_prog_ok_known _ _ _ _ Hrun) as Hk.
  destruct (group_by_prog_known procs progs scopes Hk)
    as (quoted' & Hrun' & Hget & Hperm).
  rewrite Hrun in Hrun'. injection Hrun' as -> <-.
  assert (toplevel_of procs ++ concat (JSArray.defined quoted) ≡ₚ proc_ids procs)
    as Hall.
  { rewrite Hperm. apply toplevel_quoted_partition. }
  split_and!.
  - intros p Hp Hq. unfold toplevel_of. apply list_elem_of_fmap.
    exists p. split; [done|]. by apply list_elem_of_filter.
  - intros p q Hp Hq.
    assert (q ∈ prog_ids progs) as Hin.
    { unfold quote_parents_known in Hk. rewrite Forall_forall in Hk.
      specialize (Hk p Hp). unfold quote_parent_known in Hk. by rewrite Hq in Hk. }
    split; [done|]. exists (quoted_of q procs). split.
    + rewrite Hget. by rewrite decide_True.
    + unfold quoted_of. apply list_elem_of_fmap.
      exists p. split; [done|]. by apply list_elem_of_filter.
  - done.
  - intros q l. rewrite Hget. case_decide; [|done]. by intros [= <-].
  - done.
  - intros Hnd. by rewrite Hall.
Qed.

Lemma group_by_prog_partition_witness :
  group_by_prog Sample.procs Sample.progs []
    = OK ([Some 1], [Some [Some 2; Some 4]; None; None; Some []])
  ∧ [Some 1] ++ concat (JSArray.defined [Some [Some 2; Some 4]; None; None; Some []])
    ≡ₚ proc_ids Sample.procs
  ∧ NoDup ([Some 1] ++
           concat (JSArray.defined [Some [Some 2; Some 4]; None; None; Some []])).
Proof.
  split; [vm_compute; reflexivity|].
  destruct (proj2 (group_by_prog_partition Sample.procs Sample.progs [])
              [Some 1] [Some [Some 2; Some 4]; None; None; Some []])
    as (_ & _ & _ & _ & Hperm & Hnd); [vm_compute; reflexivity|].
  split; [exact Hperm|]. apply Hnd. compute_done.
Defined.

(** C4.  The type table only grows.  When a desugaring pass returns, the
    table it returns starts with the table it was given, so every identity
    that was a key is still a key with the same (type, environment) entry;
    the same holds of the table of the IR that semantic analysis returns
    after registering the intrinsics. *)
Theorem type_table_only_grows {Ty} (check : TypeCheck Ty) (tree : SyntaxNode)
    (tt : TypeTable Ty) :
  (∀ tree' tt', desugar_cross_stage check tree tt = OK (tree', tt') →
     tt `prefix_of` tt' ∧ table_grows tt tt')
  ∧ (∀ tree' tt', desugar_macros tree tt check = OK (tree', tt') →
       tt `prefix_of` tt' ∧ table_grows tt tt')
  ∧ (∀ find_scopes find_def_use index_tree lift intrinsics ir,
       semantically_analyze find_scopes find_def_use index_tree lift
         tree tt intrinsics = OK ir →
       tt `prefix_of` ir_type_table ir ∧ table_grows tt (ir_type_table ir)).
Proof.
  split_and!.
  - intros tree' tt' Hrun%desugar_cross_stage_extends.
    split; [done|by apply prefix_table_grows].
  - intros tree' tt' Hrun%desugar_macros_extends.
    split; [done|by apply prefix_table_grows].
  - intros fs fd it lf its ir Hrun.
    apply semantically_analyze_inv in Hrun
      as (scopes & defuse & index & procs & main & progs & toplevel & quoted
          & _ & _ & _ & _ & _ & ->).
    cbn [ir_type_table]. rewrite register_intrinsics_table.
    split; [by apply prefix_app_r|]. apply prefix_table_grows. by apply prefix_app_r.
Qed.

Lemma type_table_only_grows_witness :
  desugar_cross_stage Sample.check_int Sample.quote_tree Sample.quote_table
    = OK (Sample.quote_tree_desugared, Sample.quote_table_desugared)
  ∧ Sample.quote_table `prefix_of` Sample.quote_table_desugared
  ∧ table_grows Sample.quote_table Sample.quote_table_desugared.
Proof.
  split; [vm_compute; reflexivity|].
  apply (proj1 (type_table_only_grows Sample.check_int Sample.quote_tree
                  Sample.quote_table) Sample.quote_tree_desugared).
  vm_compute. reflexivity.
Defined.


(** C6.  Stage-0 invariance.  When every read of an elaborated tree is of a
    name that is not external and is bound in the current stage, auto-persist
    returns the tree it was given, and the table it was given: no escape is
    introduced. *)
Theorem auto_persist_stage0_noop {Ty} (check : TypeCheck Ty) (tt : TypeTable Ty)
    (tree : SyntaxNode) :
  Forall (stage0_read tt) (nodes tree) →
  desugar_cross_stage check tree tt = OK (tree, tt).
Proof.
  intros Hall. apply desugar_cross_stage_identity.
  eapply Forall_impl; [exact Hall|]. intros node Hnode i x Heq.
  destruct (Hnode i x Heq) as (env & Henv & _ & Hd). eauto.
Qed.

Lemma auto_persist_stage0_noop_witness :
  desugar_cross_stage Sample.check_int Sample.stage0_tree Sample.quote_table
  = OK (Sample.stage0_tree, Sample.quote_table).
Proof.
  apply auto_persist_stage0_noop. simpl.
  repeat (apply Forall_cons; split;
          [intros i x Heq;
           first [discriminate Heq
                 |injection Heq as <- <-; exists Sample.env_in;
                  split_and!;
                  [reflexivity
                  |apply not_elem_of_dom; vm_compute; reflexivity
                  |vm_compute; reflexivity]]|]).
  apply Forall_nil_2.
Defined.

(** C7.  The assembled extern table.  For an elaborated tree (the
    identities of its extern nodes are distinct and have entries in the type
    table) and intrinsics with distinct names: the slot of every extern node
    holds the node's expansion when that is a non-empty string and the
    node's declared name otherwise; the k-th intrinsic gets the identity
    [length type_table + k], which was free, and at that identity the extern
    table holds its name and the type table its type with a null
    environment; the entries of the type table below are as they were. *)
Theorem assembled_extern_table {Ty}
    find_scopes find_def_use index_tree lift
    (tree : SyntaxNode) (tt : TypeTable Ty) (intrinsics : list (string * Ty)) ir :
  NoDup (extern_ids tree) →
  Forall (λ n, n < length tt) (extern_ids tree) →
  NoDup intrinsics.*1 →
  semantically_analyze find_scopes find_def_use index_tree lift tree tt intrinsics
    = OK ir →
  (∀ n name expansion, ExternNode (Some n) name expansion ∈ nodes tree →
     JSArray.get (ir_externs ir) n
     = Some (match expansion with
             | Some e => if decide (e = "") then name else e
             | None => name
             end))
  ∧ (∀ k name ty, intrinsics !! k = Some (name, ty) →
       JSArray.get tt (length tt + k) = None
       ∧ JSArray.get (ir_externs ir) (length tt + k) = Some name
       ∧ JSArray.get (ir_type_table ir) (length tt + k) = Some (ty, None))
  ∧ (∀ n, n < length tt →
       JSArray.get (ir_type_table ir) n = JSArray.get tt n).
Proof.
  intros Hnd Hbelow Hnames Hrun.
  apply semantically_analyze_inv in Hrun
    as (scopes & defuse & index & procs & main & progs & toplevel & quoted
        & _ & _ & _ & _ & _ & ->).
  cbn [ir_externs ir_type_table].
  rewrite register_intrinsics_table, register_intrinsics_map by done.
  split_and!.
  - intros n name expansion Hin. rewrite add_intrinsics_get.
    assert (n < length tt) as Hn.
    { rewrite Forall_forall in Hbelow. apply Hbelow.
      apply elem_of_extern_ids. eauto. }
    rewrite decide_False by lia.
    by rewrite (find_externs_hit tree [] n name expansion).
  - intros k name ty Hk. pose proof (lookup_lt_Some _ _ _ Hk) as Hlt.
    split_and!.
    + apply get_ge. lia.
    + rewrite add_intrinsics_get, decide_True by lia.
      replace (length tt + k - length tt) with k by lia. by rewrite Hk.
    + apply get_Some_lookup. rewrite lookup_app_r by lia.
      replace (length tt + k - length tt) with k by lia.
      by rewrite list_lookup_fmap, Hk.
  - intros n Hn. unfold JSArray.get. by rewrite lookup_app_l.
Qed.

Lemma assembled_extern_table_witness :
  ∃ ir,
    semantically_analyze Sample.no_scopes Sample.no_def_use Sample.no_index
      Sample.lift_nothing Sample.extern_tree Sample.extern_table
      Sample.intrinsics = OK ir
    ∧ ir_externs ir = [None; Some "sin"; Some "Math.abs"; Some "vtx"; Some "frag"]
    ∧ JSArray.get (ir_externs ir) 1 = Some "sin"
    ∧ JSArray.get (ir_externs ir) 2 = Some "Math.abs"
    ∧ JSArray.get (ir_externs ir) 3 = Some "vtx"
    ∧ JSArray.get (ir_externs ir) 4 = Some "frag".
Proof.
  eexists. split; [vm_compute; reflexivity|]. split; [reflexivity|].
  edestruct (assembled_extern_table Sample.no_scopes Sample.no_def_use
               Sample.no_index Sample.lift_nothing Sample.extern_tree
               Sample.extern_table Sample.intrinsics) as (Hext & Hintr & _).
  - compute_done.
  - compute_done.
  - compute_done.
  - vm_compute. reflexivity.
  - split_and!.
    + apply (Hext 1 "sin" None). simpl.
      apply list_elem_of_further, list_elem_of_here.
    + apply (Hext 2 "abs" (Some "Math.abs")). simpl.
      do 2 apply list_elem_of_further. apply list_elem_of_here.
    + apply (Hintr 0 "vtx" "<Int> -> Int"). reflexivity.
    + apply (Hintr 1 "frag" "<Int> -> Int"). reflexivity.
Defined.

(** C7, as it is worded, fails on an extern whose rename is the empty
    string: the rename was given at the reference site, and the table holds
    the declared name. *)
Lemma empty_rename_keeps_declared_name :
  ∃ ir,
    semantically_analyze Sample.no_scopes Sample.no_def_use Sample.no_index
      Sample.lift_nothing Sample.empty_rename_tree Sample.extern_table
      (@nil (string * string)) = OK ir
    ∧ ExternNode (Some 0) "f" (Some "") ∈ nodes Sample.empty_rename_tree
    ∧ JSArray.get (ir_externs ir) 0 = Some "f"
    ∧ JSArray.get (ir_externs ir) 0 ≠ Some "".
Proof.
  eexists. split; [vm_compute; reflexivity|].
  split_and!; [apply list_elem_of_here|reflexivity|discriminate].
Qed.

(** C9.  The extern fold writes to no array it was given.  Called with a
    reference to an array, [find_externs] returns a reference to an array
    that holds the fold's result, and every array that existed before the
    call, the caller's among them, has the contents it had; on an extern
    node the returned reference is to a new array object, the copy. *)
Theorem find_externs_ref_frame tree (externs : nat) (h : heap) a :
  h !! externs = Some a →
  ∃ r' h',
    find_externs_ref tree (ref_ret externs) h = (r', h')
    ∧ h' !! externs = Some a
    ∧ heap_preserved h h'
    ∧ h' !! r' = Some (find_externs tree a)
    ∧ (∀ i name expansion, tree = ExternNode i name expansion →
         r' = fresh (dom h) ∧ h !! r' = None).
Proof.
  intros Ha.
  destruct (find_externs_ref_ok tree (ref_ret externs) h externs h a eq_refl Ha)
    as (r' & h' & Hrun & Hpres & Hres).
  exists r', h'. split_and!; [done|by apply Hpres|done|done|].
  intros i name expansion ->.
  destruct (visit_extern_ref_spec i name expansion (ref_ret externs) h externs h a
              eq_refl Ha) as (h1 & Hrun1 & _).
  change (find_externs_ref (ExternNode i name expansion) (ref_ret externs) h)
    with (visit_extern_ref i name expansion (ref_ret externs) h) in Hrun.
  rewrite Hrun1 in Hrun. injection Hrun as <- <-. split; [done|].
  apply not_elem_of_dom. apply is_fresh.
Qed.

Lemma find_externs_ref_frame_witness :
  ∃ r' h',
    find_externs_ref Sample.extern_tree (ref_ret 0) {[ 0 := [] ]} = (r', h')
    ∧ h' !! 0 = Some []
    ∧ h' !! r' = Some (find_externs Sample.extern_tree []).
Proof.
  edestruct (find_externs_ref_frame Sample.extern_tree 0 {[ 0 := [] ]} [])
    as (r' & h' & Hrun & Hsame & _ & Hres & _); [vm_compute; reflexivity|].
  exists r', h'. split; [exact Hrun|]. split; [exact Hsame|exact Hres].
Defined.

(** C10.  Holes and totality of grouping.  The result of [group_by_prog]
    is the result on the arrays with their holes removed; after the first
    loop the quoted table holds an empty list at the identity of every
    defined Staged Program; when every quote parent of a defined Procedure is
    the identity of a defined Staged Program the function returns, the quoted
    table holds at each such identity the Procedures that belong to it, an
    empty list when none does; otherwise it throws a [TypeError]. *)
Theorem group_by_prog_holes procs progs scopes :
  group_by_prog procs progs scopes
    = group_by_prog (Some <$> JSArray.defined procs)
                    (Some <$> JSArray.defined progs) scopes
  ∧ (∀ q, q ∈ prog_ids progs → JSArray.get (init_quoted progs) q = Some [])
  ∧ (quote_parents_known procs progs →
       ∃ toplevel quoted,
         group_by_prog procs progs scopes = OK (toplevel, quoted)
         ∧ (∀ q, q ∈ prog_ids progs →
              JSArray.get quoted q = Some (quoted_of q procs))
         ∧ (∀ q, q ∈ prog_ids progs →
              (∀ p : Proc, p ∈ JSArray.defined procs → quote_parent p ≠ Some q) →
              JSArray.get quoted q = Some []))
  ∧ (¬ quote_parents_known procs progs →
       group_by_prog procs progs scopes = Throw TypeError).
Proof.
  split_and!.
  - unfold group_by_prog. by rewrite init_quoted_defined, insert_procs_defined.
  - intros q Hq. rewrite init_quoted_get. by rewrite decide_True.
  - intros Hk. destruct (group_by_prog_known procs progs scopes Hk)
      as (quoted & Hrun & Hget & _).
    exists (toplevel_of procs), quoted. split_and!; [done| |].
    + intros q Hq. rewrite Hget. by rewrite decide_True.
    + intros q Hq Hnone. rewrite Hget, decide_True by done. f_equal.
      unfold quoted_of.
      rewrite filter_none; [done|].
      apply Forall_forall. intros p Hp. by apply Hnone.
  - intros Hk. unfold group_by_prog. apply insert_procs_throw.
    by rewrite <- quote_parents_known_init.
Qed.

Lemma group_by_prog_holes_witness :
  (∃ toplevel quoted,
     group_by_prog Sample.procs Sample.progs [] = OK (toplevel, quoted)
     ∧ JSArray.get quoted 0 = Some [Some 2; Some 4]
     ∧ JSArray.get quoted 3 = Some [])
  ∧ group_by_prog Sample.orphan_procs Sample.progs [] = Throw TypeError.
Proof.
  destruct (group_by_prog_holes Sample.procs Sample.progs [])
    as (_ & _ & Hok & _).
  destruct (group_by_prog_holes Sample.orphan_procs Sample.progs [])
    as (_ & _ & _ & Hthrow).
  split.
  - destruct Hok as (toplevel & quoted & Hrun & Hget & _); [compute_done|].
    exists toplevel, quoted. split; [exact Hrun|].
    split; [apply (Hget 0)|apply (Hget 3)]; compute_done.
  - apply Hthrow. compute_done.
Defined.

(** * Further properties of the code *)

(** ** Desugaring a tree that was not elaborated *)

Section unelaborated.
Context {Ty : Type}.
Implicit Types (tt : TypeTable Ty) (check : TypeCheck Ty).

Lemma read_env_Throw {A} tt i (k : TypeEnv Ty → M Ty A) :
  env_at tt i = None →
  (entry <- type_table_get i ;; env <- nonnull entry.2 ;; k env)%M tt
  = Throw TypeError.
Proof.
  unfold env_at, bind, type_table_get. destruct i as [n|]; [|done].
  destruct (JSArray.get tt n) as [[ty oenv]|]; [|done]. simpl.
  by intros ->.
Qed.

Lemma no_env_at_prefix tt tt' i :
  no_env_at tt i → tt `prefix_of` tt' → env_at tt' i = None.
Proof.
  destruct i as [n|]; [|done]. intros [Hn Hnone] Hpre.
  by rewrite (env_at_prefix tt tt' _ n).
Qed.

Lemma unelaborated_read_throws check tt tree node res :
  node ∈ nodes tree → unelaborated_read tt node →
  desugar_cross_stage check tree tt ≠ OK res.
Proof.
  intros Hnode Hbad.
  refine (pass_throws (desugar_cross_stage check) is_lookup
            (desugar_cross_stage_below check) _ tt
            (λ t, filter (λ n, is_lookup n = true) (nodes t))
            (unelaborated_read tt) _ _ _ tree node tt res _ Hbad _); [| | | | |done].
  - intros t Ho t1 r t2 H. by eapply desugar_cross_stage_extends.
  - intros t n Ho Hn. apply overridden_lookup in Ho as (i & x & ->).
    simpl in Hn. by apply list_elem_of_singleton in Hn.
  - intros t n Ho [Hl Hn]%list_elem_of_filter.
    apply elem_of_nodes_children in Hn as [->|(c & Hc & Hn)]; [congruence|].
    exists c. split; [done|]. by apply list_elem_of_filter.
  - intros t Ho (i & x & -> & Hno) tt1 res1 Hpre.
    cbn [desugar_cross_stage gen_desugar_cross_stage].
    rewrite read_env_Throw; [done|]. by eapply no_env_at_prefix.
  - apply list_elem_of_filter. split; [|done].
    by destruct Hbad as (i & x & -> & _).
Qed.

Lemma unelaborated_macrocall_throws check tt tree node res :
  node ∈ macro_sites tree → unelaborated_macrocall tt node →
  _desugar_macros check tree tt ≠ OK res.
Proof.
  intros Hnode Hbad.
  refine (pass_throws (_desugar_macros check) is_macrocall
            (desugar_macros_below check) _ tt macro_sites
            (unelaborated_macrocall tt) macro_sites_here macro_sites_below _
            tree node tt res Hnode Hbad _); [| |done].
  - intros t Ho t1 r t2 H. by eapply desugar_macros_extends.
  - intros t Ho (i & m & args & -> & Hno) tt1 res1 Hpre.
    change (_desugar_macros check (MacroCallNode i m args) tt1)
      with (visit_macrocall check i m tt1).
    unfold visit_macrocall.
    rewrite read_env_Throw; [done|]. by eapply no_env_at_prefix.
Qed.

End unelaborated.

(** X1.  Desugaring needs an elaborated tree.  On a read, and on a macro
    invocation, whose identity has no environment in the type table (the
    node has no identity, its slot is a hole or lies past the end, or the
    entry holds the null environment of an intrinsic) the rule throws a
    [TypeError], whatever the layer below it does; a pass over a tree that
    comes to such a node, when the node has no identity or its slot lies
    below the length of the table, throws and returns no tree. *)
Theorem desugaring_needs_elaborated_nodes {Ty} (check : TypeCheck Ty)
    (tt : TypeTable Ty) :
  (∀ fsuper i x, env_at tt i = None →
     gen_desugar_cross_stage check fsuper (LookupNode i x) tt = Throw TypeError)
  ∧ (∀ i m args, env_at tt i = None →
       desugar_macros (MacroCallNode i m args) tt check = Throw TypeError)
  ∧ (∀ tree node, node ∈ nodes tree → unelaborated_read tt node →
       ∃ e, desugar_cross_stage check tree tt = Throw e)
  ∧ (∀ tree node, node ∈ macro_sites tree → unelaborated_macrocall tt node →
       ∃ e, desugar_macros tree tt check = Throw e).
Proof.
  split_and!.
  - intros fsuper i x Hnone. cbn [gen_desugar_cross_stage].
    by rewrite read_env_Throw.
  - intros i m args Hnone. unfold desugar_macros.
    change (_desugar_macros check (MacroCallNode i m args) tt)
      with (visit_macrocall check i m tt).
    unfold visit_macrocall. by rewrite read_env_Throw.
  - intros tree node Hnode Hbad.
    destruct (desugar_cross_stage check tree tt) as [res|e] eqn:Hrun; [|eauto].
    by destruct (unelaborated_read_throws check tt tree node res Hnode Hbad).
  - intros tree node Hnode Hbad. unfold desugar_macros.
    destruct (_desugar_macros check tree tt) as [res|e] eqn:Hrun; [|eauto].
    by destruct (unelaborated_macrocall_throws check tt tree node res Hnode Hbad).
Qed.

Lemma desugaring_needs_elaborated_nodes_witness :
  gen_desugar_cross_stage Sample.check_int ret (LookupNode (Some 0) "x")
    Raw.intrinsic_table = Throw TypeError
  ∧ desugar_macros (MacroCallNode (Some 9) "m" []) Sample.macro_table
      Sample.check_int = Throw TypeError
  ∧ (∃ e, desugar_cross_stage Sample.check_int Raw.sum_tree Sample.quote_table
          = Throw e)
  ∧ (∃ e, desugar_macros Raw.macro_tree Sample.macro_table Sample.check_int
          = Throw e).
Proof.
  split_and!.
  - apply (proj1 (desugaring_needs_elaborated_nodes Sample.check_int
                    Raw.intrinsic_table)). reflexivity.
  - apply (proj1 (proj2 (desugaring_needs_elaborated_nodes Sample.check_int
                           Sample.macro_table))). reflexivity.
  - apply (proj1 (proj2 (proj2 (desugaring_needs_elaborated_nodes
                                  Sample.check_int Sample.quote_table)))
             Raw.sum_tree (LookupNode None "y")).
    + simpl. apply list_elem_of_further, list_elem_of_here.
    + exists None, "y". split; reflexivity.
  - apply (proj2 (proj2 (proj2 (desugaring_needs_elaborated_nodes
                                  Sample.check_int Sample.macro_table)))
             Raw.macro_tree (MacroCallNode None "m" [])).
    + simpl. apply list_elem_of_here.
    + exists None, "m", []. split; reflexivity.
Defined.

(** X2.  Macro expansion leaves a tree without macro invocations alone:
    it returns the tree and the table it was given, whatever the table
    holds. *)
Theorem desugar_macros_without_invocations {Ty} (check : TypeCheck Ty)
    (tt : TypeTable Ty) (tree : SyntaxNode) :
  Forall (λ node, is_macrocall node = false) (nodes tree) →
  desugar_macros tree tt check = OK (tree, tt).
Proof.
  intros Hnone. unfold desugar_macros.
  refine (pass_identity (_desugar_macros check) is_macrocall
            (desugar_macros_below check) tt (λ _, False) _
            tree _ tt _); [done| |done].
  eapply Forall_impl; [exact Hnone|]. intros node Hn Ho. congruence.
Qed.

Lemma desugar_macros_without_invocations_witness :
  desugar_macros Sample.quote_tree [] Sample.check_int
  = OK (Sample.quote_tree, []).
Proof.
  apply (desugar_macros_without_invocations Sample.check_int []
           Sample.quote_tree).
  simpl. repeat constructor.
Defined.

(** ** The extern fold *)

Lemma array_ext {A} (a b : list (option A)) :
  length a = length b → (∀ n, JSArray.get a n = JSArray.get b n) → a = b.
Proof.
  intros Hlen Hget. apply list_eq. intros i.
  specialize (Hget i). unfold JSArray.get in Hget.
  destruct (a !! i) as [x|] eqn:Ha, (b !! i) as [y|] eqn:Hb; simpl in Hget.
  - by rewrite Hget.
  - apply lookup_lt_Some in Ha. apply lookup_ge_None in Hb. lia.
  - apply lookup_lt_Some in Hb. apply lookup_ge_None in Ha. lia.
  - done.
Qed.

Lemma length_for_app ids1 ids2 :
  length_for (ids1 ++ ids2) = length_for ids1 `max` length_for ids2.
Proof.
  unfold length_for. induction ids1 as [|i ids1 IH]; [done|].
  simpl. rewrite IH. lia.
Qed.

Lemma not_extern_id tree :
  (∀ i s x, tree ≠ ExternNode i s x) → extern_id tree = None.
Proof. intros Hne. destruct tree; try done. by destruct (Hne id name expansion). Qed.

Lemma foldl_find_externs_length (cs : list SyntaxNode) :
  Forall (λ c, ∀ a, length (find_externs c a)
                    = length a `max` length_for (extern_ids c)) cs →
  ∀ a, length (foldl (λ p c, find_externs c p) a cs)
       = length a `max` length_for (cs ≫= extern_ids).
Proof.
  induction 1 as [|c cs Hc _ IH]; intros a.
  - simpl. unfold length_for. simpl. lia.
  - cbn [foldl]. rewrite IH, Hc, bind_cons, length_for_app. lia.
Qed.

Lemma find_externs_length tree : ∀ a,
  length (find_externs tree a) = length a `max` length_for (extern_ids tree).
Proof.
  induction tree as [tree IH] using SyntaxNode_children_ind. intros a.
  destruct (extern_or_not tree) as [(i & s & x & ->)|Hne].
  - rewrite find_externs_extern. unfold visit_extern. destruct i as [m|].
    + rewrite length_store. unfold length_for, extern_ids. simpl. lia.
    + unfold length_for, extern_ids. simpl. lia.
  - rewrite find_externs_children by done.
    rewrite foldl_find_externs_length.
    + rewrite extern_ids_children, not_extern_id by done. simpl.
      unfold length_for. by rewrite (fold_order_children tree).
    + by rewrite fold_order_children.
Qed.

Lemma foldl_find_externs_value n s (cs : list SyntaxNode) :
  Forall (λ c, ∀ a, JSArray.get (find_externs c a) n = Some s →
             JSArray.get a n = Some s
             ∨ ∃ name x, ExternNode (Some n) name x ∈ nodes c ∧ s = js_or x name) cs →
  ∀ a, JSArray.get (foldl (λ p c, find_externs c p) a cs) n = Some s →
    JSArray.get a n = Some s
    ∨ ∃ c name x, c ∈ cs ∧ ExternNode (Some n) name x ∈ nodes c ∧ s = js_or x name.
Proof.
  induction 1 as [|c cs Hc _ IH]; intros a Hget; [by left|].
  cbn [foldl] in Hget. apply IH in Hget as [Hget|(c' & name & x & Hin & Hnode & ->)].
  - apply Hc in Hget as [Hget|(name & x & Hnode & ->)]; [by left|].
    right. exists c, name, x. split; [by left|done].
  - right. exists c', name, x. split; [by right|done].
Qed.

(** A name in a slot was there before or is that of an extern node with the
    identity of the slot. *)
Lemma find_externs_value tree : ∀ a n s,
  JSArray.get (find_externs tree a) n = Some s →
  JSArray.get a n = Some s
  ∨ ∃ name x, ExternNode (Some n) name x ∈ nodes tree ∧ s = js_or x name.
Proof.
  induction tree as [tree IH] using SyntaxNode_children_ind. intros a n s Hget.
  destruct (extern_or_not tree) as [(i & name & x & ->)|Hne].
  - rewrite find_externs_extern in Hget. unfold visit_extern in Hget.
    destruct i as [m|]; [|by left].
    rewrite get_store in Hget. case_decide as Hm; [|by left].
    subst m. injection Hget as <-. right. exists name, x. split; [|done].
    simpl. by left.
  - rewrite find_externs_children in Hget by done.
    apply foldl_find_externs_value in Hget
      as [Hget|(c & name & x & Hc & Hnode & ->)]; [by left| |].
    + right. exists name, x. split; [|done].
      apply elem_of_nodes_children. right. exists c. split; [|done].
      by rewrite <- fold_order_children.
    + rewrite fold_order_children. eapply Forall_impl; [exact IH|]. naive_solver.
Qed.

(** X3.  The extern fold writes the slots of extern nodes only.  A slot
    that is not the identity of an extern node holds what the given array
    held; the result is as long as the given array or as the largest
    identity of an extern node requires, whichever is more; on a tree
    without an extern node that has an identity the result is the given
    array; and a name in a slot of the result was in that slot before or is
    the expansion, or else the name, of an extern node with that
    identity. *)
Theorem find_externs_writes_extern_slots_only tree (a : list (option string)) :
  (∀ n, n ∉ extern_ids tree →
     JSArray.get (find_externs tree a) n = JSArray.get a n)
  ∧ length (find_externs tree a) = length a `max` length_for (extern_ids tree)
  ∧ (extern_ids tree = [] → find_externs tree a = a)
  ∧ (∀ n s, JSArray.get (find_externs tree a) n = Some s →
       JSArray.get a n = Some s
       ∨ ∃ name expansion,
           ExternNode (Some n) name expansion ∈ nodes tree
           ∧ s = js_or expansion name).
Proof.
  split_and!.
  - intros n Hn. by apply find_externs_frame.
  - apply find_externs_length.
  - intros Hnone. apply array_ext.
    + rewrite find_externs_length, Hnone. unfold length_for. simpl. lia.
    + intros n. apply find_externs_frame. rewrite Hnone. apply not_elem_of_nil.
  - apply find_externs_value.
Qed.

Lemma find_externs_writes_extern_slots_only_witness :
  JSArray.get (find_externs Sample.extern_tree [Some "z"]) 0 = Some "z"
  ∧ length (find_externs Sample.extern_tree [Some "z"]) = 3
  ∧ find_externs Sample.quote_tree [Some "z"] = [Some "z"].
Proof.
  destruct (find_externs_writes_extern_slots_only Sample.extern_tree [Some "z"])
    as (Hframe & Hlen & _ & _).
  destruct (find_externs_writes_extern_slots_only Sample.quote_tree [Some "z"])
    as (_ & _ & Hnone & _).
  split_and!.
  - apply (Hframe 0). compute_done.
  - exact Hlen.
  - apply Hnone. reflexivity.
Defined.

(** ** The assembled IR *)

(** X4.  The grouping of an assembled IR agrees with its procedures.
    In every IR that the semantic analysis returns, the quote parent of
    every defined Procedure is the identity of a defined Staged Program of
    the IR; [toplevel_procs] lists the Procedures without a quote parent in
    array order, [quoted_procs] holds at the identity of each Staged Program
    the Procedures quoted by it and a hole elsewhere; grouping the IR's own
    procedures and programs again gives the same two fields. *)
Theorem analysis_groups_the_procedures {Ty}
    find_scopes find_def_use index_tree lift
    (tree : SyntaxNode) (tt : TypeTable Ty) (intrinsics : list (string * Ty)) ir :
  semantically_analyze find_scopes find_def_use index_tree lift tree tt intrinsics
    = OK ir →
  quote_parents_known (ir_procs ir) (ir_progs ir)
  ∧ ir_toplevel_procs ir = toplevel_of (ir_procs ir)
  ∧ (∀ q, JSArray.get (ir_quoted_procs ir) q
          = if decide (q ∈ prog_ids (ir_progs ir))
            then Some (quoted_of q (ir_procs ir)) else None)
  ∧ group_by_prog (ir_procs ir) (ir_progs ir) (ir_scopes ir)
    = OK (ir_toplevel_procs ir, ir_quoted_procs ir).
Proof.
  intros Hrun.
  apply semantically_analyze_inv in Hrun
    as (scopes & defuse & index & procs & main & progs & toplevel & quoted
        & _ & _ & _ & _ & Hgroup & ->).
  cbn [ir_procs ir_progs ir_toplevel_procs ir_quoted_procs ir_scopes].
  pose proof (group_by_prog_ok_known _ _ _ _ Hgroup) as Hk.
  destruct (group_by_prog_known procs progs scopes Hk)
    as (quoted' & Hrun' & Hget & _).
  rewrite Hgroup in Hrun'. injection Hrun' as -> <-.
  split_and!; done.
Qed.

Lemma analysis_groups_the_procedures_witness :
  ∃ ir,
    semantically_analyze Sample.no_scopes Sample.no_def_use Sample.no_index
      Analysis.lift_procs Sample.extern_tree Sample.extern_table
      Sample.intrinsics = OK ir
    ∧ ir_toplevel_procs ir = toplevel_of (ir_procs ir)
    ∧ ir_toplevel_procs ir = [Some 1]
    ∧ quote_parents_known (ir_procs ir) (ir_progs ir).
Proof.
  eexists. split; [vm_compute; reflexivity|].
  edestruct (analysis_groups_the_procedures Sample.no_scopes Sample.no_def_use
               Sample.no_index Analysis.lift_procs Sample.extern_tree
               Sample.extern_table Sample.intrinsics) as (Hk & Htop & _);
    [vm_compute; reflexivity|].
  split; [exact Htop|]. split; [reflexivity|exact Hk].
Defined.

(** X5.  When the semantic analysis returns.  If the four passes it
    calls return, the analysis returns an IR that carries their results
    exactly when every quote parent of a lifted Procedure is the identity
    of a lifted Staged Program, and throws a [TypeError] otherwise. *)
Theorem analysis_outcome {Ty}
    find_scopes find_def_use index_tree lift
    (tree : SyntaxNode) (tt : TypeTable Ty) (intrinsics : list (string * Ty))
    scopes defuse index procs main progs :
  find_scopes tree = OK scopes →
  find_def_use tree (register_intrinsics tt intrinsics).2 = OK defuse →
  index_tree tree = OK index →
  lift tree defuse scopes index = OK (procs, main, progs) →
  (quote_parents_known procs progs →
     ∃ ir, semantically_analyze find_scopes find_def_use index_tree lift
             tree tt intrinsics = OK ir
           ∧ ir_defuse ir = defuse ∧ ir_scopes ir = scopes
           ∧ ir_procs ir = procs ∧ ir_main ir = main ∧ ir_progs ir = progs)
  ∧ (¬ quote_parents_known procs progs →
       semantically_analyze find_scopes find_def_use index_tree lift
         tree tt intrinsics = Throw TypeError).
Proof.
  intros Hs Hd Hi Hl. split.
  - intros Hk. destruct (group_by_prog_known procs progs scopes Hk)
      as (quoted & Hgroup & _).
    eexists. split; [by eapply semantically_analyze_OK|]. done.
  - intros Hk. unfold semantically_analyze.
    destruct (register_intrinsics tt intrinsics) as [tt' imap]. simpl in Hd.
    rewrite Hs, Hd, Hi, Hl.
    unfold group_by_prog. rewrite insert_procs_throw; [done|].
    by rewrite <- quote_parents_known_init.
Qed.

Lemma analysis_outcome_witness :
  (∃ ir, semantically_analyze Sample.no_scopes Sample.no_def_use Sample.no_index
           Analysis.lift_procs Sample.extern_tree Sample.extern_table
           Sample.intrinsics = OK ir
         ∧ ir_procs ir = Sample.procs)
  ∧ semantically_analyze Sample.no_scopes Sample.no_def_use Sample.no_index
      Analysis.lift_orphan Sample.extern_tree Sample.extern_table
      Sample.intrinsics = Throw TypeError.
Proof.
  split.
  - destruct (proj1 (analysis_outcome Sample.no_scopes Sample.no_def_use
                       Sample.no_index Analysis.lift_procs Sample.extern_tree
                       Sample.extern_table Sample.intrinsics
                       [] [] [] Sample.procs (Sample.main_proc Sample.extern_tree)
                       Sample.progs eq_refl eq_refl eq_refl eq_refl))
      as (ir & Hrun & _ & _ & Hprocs & _); [compute_done|].
    exists ir. split; [exact Hrun|exact Hprocs].
  - apply (proj2 (analysis_outcome Sample.no_scopes Sample.no_def_use
                    Sample.no_index Analysis.lift_orphan Sample.extern_tree
                    Sample.extern_table Sample.intrinsics
                    [] [] [] Sample.orphan_procs
                    (Sample.main_proc Sample.extern_tree)
                    Sample.progs eq_refl eq_refl eq_refl eq_refl)).
    compute_done.
Defined.

(** X6.  The extern table of an IR holds nothing but externs and
    intrinsics.  With intrinsics of distinct names (the properties of an
    object), every name in a slot of the table is the expansion, or
    else the name, of an extern node of the tree with that identity, or the
    name of the k-th intrinsic, the slot being [length type_table + k]. *)
Theorem extern_table_holds_nothing_else {Ty}
    find_scopes find_def_use index_tree lift
    (tree : SyntaxNode) (tt : TypeTable Ty) (intrinsics : list (string * Ty)) ir :
  NoDup intrinsics.*1 →
  semantically_analyze find_scopes find_def_use index_tree lift tree tt intrinsics
    = OK ir →
  ∀ n s, JSArray.get (ir_externs ir) n = Some s →
    (∃ name expansion,
       ExternNode (Some n) name expansion ∈ nodes tree
       ∧ s = js_or expansion name)
    ∨ (∃ k ty, n = length tt + k ∧ intrinsics !! k = Some (s, ty)).
Proof.
  intros Hnames Hrun n s.
  apply semantically_analyze_inv in Hrun
    as (scopes & defuse & index & procs & main & progs & toplevel & quoted
        & _ & _ & _ & _ & _ & ->).
  cbn [ir_externs]. rewrite register_intrinsics_map by done.
  rewrite add_intrinsics_get. case_decide as Hn.
  - intros Hk. right. exists (n - length tt).
    destruct (intrinsics !! (n - length tt)) as [[name ty]|] eqn:Hit; [|done].
    injection Hk as ->. exists ty. split; [lia|done].
  - intros [Hnil|Hnode]%find_externs_value; [done|by left].
Qed.

Lemma extern_table_holds_nothing_else_witness :
  ∃ ir,
    semantically_analyze Sample.no_scopes Sample.no_def_use Sample.no_index
      Sample.lift_nothing Sample.extern_tree Sample.extern_table
      Sample.intrinsics = OK ir
    ∧ JSArray.get (ir_externs ir) 2 = Some "Math.abs"
    ∧ ((∃ name expansion,
          ExternNode (Some 2) name expansion ∈ nodes Sample.extern_tree
          ∧ "Math.abs" = js_or expansion name)
       ∨ (∃ k ty, 2 = length Sample.extern_table + k
                  ∧ Sample.intrinsics !! k = Some ("Math.abs", ty))).
Proof.
  eexists. split; [vm_compute; reflexivity|]. split; [reflexivity|].
  eapply (extern_table_holds_nothing_else Sample.no_scopes Sample.no_def_use
            Sample.no_index Sample.lift_nothing Sample.extern_tree
            Sample.extern_table Sample.intrinsics).
  - compute_done.
  - vm_compute. reflexivity.
  - reflexivity.
Defined.

(** ** Grouping and the set of program identities *)

Lemma length_for_le ids n : length_for ids ≤ n ↔ ∀ i, i ∈ ids → i < n.
Proof.
  unfold length_for. induction ids as [|i ids IH]; simpl.
  - split; [|lia]. intros _ i Hi. by apply elem_of_nil in Hi.
  - split.
    + intros Hle j [->|Hj]%elem_of_cons; [lia|]. apply IH; [lia|done].
    + intros Hall. apply Nat.max_lub.
      * apply Hall. by left.
      * apply IH. intros j Hj. apply Hall. by right.
Qed.

Lemma length_for_same_elements ids ids' :
  (∀ i, i ∈ ids ↔ i ∈ ids') → length_for ids = length_for ids'.
Proof.
  intros Hsame. apply Nat.le_antisymm.
  - apply length_for_le. intros i Hi%Hsame.
    by apply (proj1 (length_for_le ids' _)).
  - apply length_for_le. intros i Hi%Hsame.
    by apply (proj1 (length_for_le ids _)).
Qed.

Lemma init_quoted_fold_length (progs : list (option Prog)) acc :
  length (foldl init_quoted_step acc progs)
  = length acc `max` length_for (prog_ids progs).
Proof.
  revert acc. induction progs as [|o progs IH]; intros acc.
  - unfold length_for. simpl. lia.
  - destruct o as [p|]; cbn [foldl]; rewrite IH.
    + rewrite prog_ids_cons. unfold init_quoted_step.
      destruct (scope_id p) as [i|]; [|done].
      rewrite length_store. unfold length_for. simpl. lia.
    + by rewrite prog_ids_cons_hole.
Qed.

Lemma insert_procs_length (procs : list (option Proc)) toplevel quoted st :
  insert_procs (toplevel, quoted) procs = OK st → length st.2 = length quoted.
Proof.
  revert toplevel quoted. induction procs as [|o procs IH]; intros toplevel quoted.
  - by intros [= <-].
  - cbn [insert_procs insert_proc]. destruct o as [p|]; [|apply IH].
    destruct (quote_parent p) as [q|]; [|apply IH].
    destruct (JSArray.get quoted q) as [l|] eqn:Hl; [|done].
    intros Hrun%IH. rewrite Hrun, length_store.
    apply get_Some_lookup, lookup_lt_Some in Hl. lia.
Qed.

Lemma group_by_prog_length procs progs scopes toplevel quoted :
  group_by_prog procs progs scopes = OK (toplevel, quoted) →
  length quoted = length_for (prog_ids progs).
Proof.
  unfold group_by_prog. intros Hrun%insert_procs_length. simpl in Hrun.
  rewrite Hrun. unfold init_quoted. by rewrite init_quoted_fold_length.
Qed.

Lemma quote_parents_known_same_ids procs progs progs' :
  (∀ q, q ∈ prog_ids progs ↔ q ∈ prog_ids progs') →
  quote_parents_known procs progs → quote_parents_known procs progs'.
Proof.
  intros Hsame Hk. unfold quote_parents_known.
  eapply Forall_impl; [exact Hk|].
  intros p. unfold quote_parent_known. destruct (quote_parent p); [|done].
  apply Hsame.
Qed.

(** X7.  Grouping depends on the programs through the set of their
    identities only.  Two arrays of programs with the same identities give
    the same result, whatever their order, their holes and the scopes
    argument; and the quoted table is exactly as long as the largest
    identity of a program requires. *)
Theorem group_by_prog_depends_on_prog_ids procs progs progs' scopes scopes' :
  (∀ q, q ∈ prog_ids progs ↔ q ∈ prog_ids progs') →
  group_by_prog procs progs scopes = group_by_prog procs progs' scopes'
  ∧ ∀ toplevel quoted,
      group_by_prog procs progs scopes = OK (toplevel, quoted) →
      length quoted = length_for (prog_ids progs).
Proof.
  intros Hsame. split; [|apply group_by_prog_length].
  destruct (decide (quote_parents_known procs progs)) as [Hk|Hk].
  - pose proof (quote_parents_known_same_ids _ _ _ Hsame Hk) as Hk'.
    destruct (group_by_prog_known procs progs scopes Hk)
      as (quoted & Hrun & Hget & _).
    destruct (group_by_prog_known procs progs' scopes' Hk')
      as (quoted' & Hrun' & Hget' & _).
    rewrite Hrun, Hrun'. do 2 f_equal. apply array_ext.
    + rewrite (group_by_prog_length _ _ _ _ _ Hrun),
        (group_by_prog_length _ _ _ _ _ Hrun').
      by apply length_for_same_elements.
    + intros q. rewrite Hget, Hget'.
      destruct (decide (q ∈ prog_ids progs)) as [Hq|Hq].
      * rewrite decide_True; [done|]. by apply Hsame.
      * rewrite decide_False; [done|]. by rewrite <- Hsame.
  - assert (¬ quote_parents_known procs progs') as Hk'.
    { intros H. apply Hk. eapply quote_parents_known_same_ids; [|exact H].
      intros q. by rewrite Hsame. }
    unfold group_by_prog.
    rewrite !insert_procs_throw; [done|by rewrite <- quote_parents_known_init..].
Qed.

Lemma group_by_prog_depends_on_prog_ids_witness :
  group_by_prog Sample.procs Sample.progs []
  = group_by_prog Sample.procs (reverse Sample.progs) [Some 7]
  ∧ prog_ids Sample.progs = [0; 3]
  ∧ prog_ids (reverse Sample.progs) = [3; 0].
Proof.
  split; [|split; reflexivity].
  apply (group_by_prog_depends_on_prog_ids Sample.procs Sample.progs
           (reverse Sample.progs) [] [Some 7]).
  intros q. change (prog_ids Sample.progs) with [0; 3].
  change (prog_ids (reverse Sample.progs)) with [3; 0].
  rewrite !elem_of_cons, !elem_of_nil. intuition.
Defined.

(** ** Copies made by the extern fold *)

Lemma extern_count_children tree :
  extern_count tree
  = (if is_extern tree then 1 else 0)
    + sum_list (extern_count <$> fold_order tree).
Proof.
  unfold extern_count at 1. rewrite nodes_children, filter_cons.
  assert (length (filter (λ node, is_extern node = true)
                         (child_nodes tree ≫= nodes))
          = sum_list (extern_count <$> fold_order tree)) as Hsum.
  { rewrite (fold_order_children tree).
    induction (child_nodes tree) as [|c cs IH]; [done|].
    rewrite bind_cons, filter_app, length_app, IH. done. }
  destruct (is_extern tree).
  - rewrite decide_True by done. cbn [length]. by rewrite Hsum.
  - rewrite decide_False by done. by rewrite Hsum.
Qed.

Lemma extern_count_extern i s x : extern_count (ExternNode i s x) = 1.
Proof. done. Qed.

Lemma not_extern_is_extern tree :
  (∀ i s x, tree ≠ ExternNode i s x) → is_extern tree = false.
Proof. intros Hne. destruct tree; try done. by destruct (Hne id name expansion). Qed.

Lemma visit_extern_ref_allocates i s x (p : Ref) h r0 h0 :
  p h = (r0, h0) → is_Some (h0 !! r0) →
  ∃ h1,
    visit_extern_ref i s x p h = (fresh (dom h0), h1)
    ∧ is_Some (h1 !! fresh (dom h0))
    ∧ dom h1 = {[ fresh (dom h0) ]} ∪ dom h0.
Proof.
  intros Hp [a0 Ha]. unfold visit_extern_ref, slice0. rewrite Hp, Ha. simpl.
  destruct i as [n|]; eexists; (split; [reflexivity|]); split.
  - unfold store_at. rewrite lookup_alter_eq, lookup_insert_eq. by eexists.
  - unfold store_at. by rewrite dom_alter_L, dom_insert_L.
  - rewrite lookup_insert_eq. by eexists.
  - by rewrite dom_insert_L.
Qed.

Lemma foldl_find_externs_ref_allocates (cs : list SyntaxNode) :
  Forall ref_fold_allocates cs →
  ∀ (p : Ref) h r0 h0,
    p h = (r0, h0) → is_Some (h0 !! r0) →
    ∃ r1 h1,
      foldl (λ p1 c, find_externs_ref c p1) p cs h = (r1, h1)
      ∧ is_Some (h1 !! r1)
      ∧ dom h0 ⊆ dom h1
      ∧ size (dom h1) = size (dom h0) + sum_list (extern_count <$> cs)
      ∧ ((sum_list (extern_count <$> cs) = 0 ∧ r1 = r0 ∧ h1 = h0)
         ∨ (0 < sum_list (extern_count <$> cs) ∧ h0 !! r1 = None)).
Proof.
  induction 1 as [|c cs Hc _ IH]; intros p h r0 h0 Hp Ha.
  - exists r0, h0. cbn [foldl fmap list_fmap sum_list sum_list_with id].
    split_and!; [done|done|done|lia|].
    left. by split_and!.
  - destruct (Hc p h r0 h0 Hp Ha) as (r1 & h1 & Hrun1 & Ha1 & Hsub1 & Hsize1 & Hcase1).
    destruct (IH _ h r1 h1 Hrun1 Ha1)
      as (r2 & h2 & Hrun2 & Ha2 & Hsub2 & Hsize2 & Hcase2).
    exists r2, h2. cbn [foldl fmap list_fmap sum_list sum_list_with id].
    split_and!; [done|done|by etrans|lia|].
    destruct Hcase2 as [(H0 & -> & ->)|(Hpos & Hnew)].
    + destruct Hcase1 as [(H0' & -> & ->)|(Hpos' & Hnew')].
      * left. split_and!; [lia|done|done].
      * right. split; [lia|done].
    + right. split; [lia|].
      apply not_elem_of_dom. apply not_elem_of_dom in Hnew.
      intros Hin. apply Hnew. by apply Hsub1.
Qed.

Lemma find_externs_ref_allocates tree : ref_fold_allocates tree.
Proof.
  induction tree as [tree IH] using SyntaxNode_children_ind.
  intros p h r0 h0 Hp Ha.
  destruct (extern_or_not tree) as [(i & s & x & ->)|Hne].
  - destruct (visit_extern_ref_allocates i s x p h r0 h0 Hp Ha)
      as (h1 & Hrun & Hnew & Hdom).
    exists (fresh (dom h0)), h1. rewrite extern_count_extern.
    pose proof (is_fresh (dom h0)) as Hfresh.
    split_and!; [done|done| | |].
    + rewrite Hdom. apply union_subseteq_r.
    + rewrite Hdom, size_union, size_singleton
        by (by apply disjoint_singleton_l).
      lia.
    + right. split; [lia|]. by apply not_elem_of_dom.
  - rewrite find_externs_ref_children by done.
    rewrite extern_count_children, not_extern_is_extern by done.
    assert (Forall ref_fold_allocates (fold_order tree)) as Hall
      by (by rewrite fold_order_children).
    exact (foldl_find_externs_ref_allocates _ Hall p h r0 h0 Hp Ha).
Qed.

(** X8.  The extern fold copies the array once per extern node.
    Called with a reference to an array, the fold allocates one new array
    for each extern node of the tree; on a tree without extern nodes it
    allocates nothing and returns the very reference it was given, and
    otherwise the reference it returns is to an array that did not exist
    before. *)
Theorem find_externs_copies_once_per_extern tree (externs : nat) (h : heap) a :
  h !! externs = Some a →
  ∃ r' h',
    find_externs_ref tree (ref_ret externs) h = (r', h')
    ∧ size (dom h') = size (dom h) + extern_count tree
    ∧ (extern_count tree = 0 → r' = externs ∧ h' = h)
    ∧ (0 < extern_count tree → h !! r' = None).
Proof.
  intros Ha.
  destruct (find_externs_ref_allocates tree (ref_ret externs) h externs h
              eq_refl) as (r' & h' & Hrun & _ & _ & Hsize & Hcase); [by eexists|].
  exists r', h'. split_and!; [done|done| |].
  - intros H0. destruct Hcase as [(_ & -> & ->)|[Hpos _]]; [done|lia].
  - intros Hpos. destruct Hcase as [(H0 & _)|[_ Hnew]]; [lia|done].
Qed.

Lemma find_externs_copies_once_per_extern_witness :
  ∃ r' h',
    find_externs_ref Sample.extern_tree (ref_ret 0) {[ 0 := [] ]} = (r', h')
    ∧ size (dom h') = 3
    ∧ find_externs_ref Sample.quote_tree (ref_ret 0) {[ 0 := [] ]}
      = (0, {[ 0 := [] ]}).
Proof.
  edestruct (find_externs_copies_once_per_extern Sample.extern_tree 0
               {[ 0 := [] ]} []) as (r' & h' & Hrun & Hsize & _);
    [vm_compute; reflexivity|].
  edestruct (find_externs_copies_once_per_extern Sample.quote_tree 0
               {[ 0 := [] ]} []) as (r'' & h'' & Hrun' & _ & Hsame & _);
    [vm_compute; reflexivity|].
  exists r', h'. split; [exact Hrun|]. split; [exact Hsize|].
  rewrite Hrun'. destruct Hsame as [-> ->]; reflexivity.
Defined.

(** ** Running the extern fold again *)

Lemma foldl_find_externs_determined n (cs : list SyntaxNode) :
  Forall (λ c, ∀ a b, n ∈ extern_ids c →
             JSArray.get (find_externs c a) n = JSArray.get (find_externs c b) n) cs →
  ∀ a b, n ∈ cs ≫= extern_ids →
    JSArray.get (foldl (λ p c, find_externs c p) a cs) n
    = JSArray.get (foldl (λ p c, find_externs c p) b cs) n.
Proof.
  induction cs as [|c cs IH] using rev_ind; intros Hall a b Hn.
  - by apply elem_of_nil in Hn.
  - apply Forall_app in Hall as [Hall Hc]. apply Forall_cons in Hc as [Hc _].
    rewrite !foldl_app. cbn [foldl].
    destruct (decide (n ∈ extern_ids c)) as [Hin|Hout].
    + by apply Hc.
    + rewrite !find_externs_frame by done. apply IH; [done|].
      rewrite bind_app in Hn. apply elem_of_app in Hn as [Hn|Hn]; [done|].
      rewrite bind_cons in Hn. simpl in Hn. by rewrite app_nil_r in Hn.
Qed.

(** The slot of an extern identity is determined by the tree. *)
Lemma find_externs_determined tree : ∀ a b n,
  n ∈ extern_ids tree →
  JSArray.get (find_externs tree a) n = JSArray.get (find_externs tree b) n.
Proof.
  induction tree as [tree IH] using SyntaxNode_children_ind. intros a b n Hn.
  destruct (extern_or_not tree) as [(i & s & x & ->)|Hne].
  - rewrite !find_externs_extern. unfold visit_extern. destruct i as [m|].
    + unfold extern_ids in Hn. simpl in Hn. apply list_elem_of_singleton in Hn.
      subst. by rewrite !get_store_eq.
    + unfold extern_ids in Hn. simpl in Hn. by apply elem_of_nil in Hn.
  - rewrite !find_externs_children by done.
    apply foldl_find_externs_determined.
    + rewrite fold_order_children. eapply Forall_impl; [exact IH|]. naive_solver.
    + rewrite extern_ids_children, not_extern_id in Hn by done. simpl in Hn.
      by rewrite (fold_order_children tree).
Qed.

(** X9.  Running the extern fold again changes nothing: the fold of a
    tree over its own result is that result; and the slot of an extern
    identity is determined by the tree alone, whatever array the fold
    started from. *)
Theorem find_externs_idempotent tree (a : list (option string)) :
  find_externs tree (find_externs tree a) = find_externs tree a
  ∧ ∀ b n, n ∈ extern_ids tree →
      JSArray.get (find_externs tree a) n = JSArray.get (find_externs tree b) n.
Proof.
  split; [|intros b n; apply find_externs_determined].
  apply array_ext.
  - rewrite !find_externs_length. lia.
  - intros n. destruct (decide (n ∈ extern_ids tree)) as [Hin|Hout].
    + by apply find_externs_determined.
    + by rewrite find_externs_frame.
Qed.

Lemma find_externs_idempotent_witness :
  JSArray.get (find_externs Sample.extern_tree []) 2
  = JSArray.get (find_externs Sample.extern_tree [Some "z"; None; Some "w"]) 2
  ∧ JSArray.get (find_externs Sample.extern_tree []) 2 = Some "Math.abs".
Proof.
  split; [|reflexivity].
  apply (proj2 (find_externs_idempotent Sample.extern_tree [])). compute_done.
Defined.

(** ** Grouping more procedures *)

Lemma defined_app {A} (a b : list (option A)) :
  JSArray.defined (a ++ b) = JSArray.defined a ++ JSArray.defined b.
Proof. unfold JSArray.defined. apply omap_app. Qed.

Lemma toplevel_of_app procs1 procs2 :
  toplevel_of (procs1 ++ procs2) = toplevel_of procs1 ++ toplevel_of procs2.
Proof. unfold toplevel_of. by rewrite defined_app, filter_app, fmap_app. Qed.

Lemma quoted_of_app q procs1 procs2 :
  quoted_of q (procs1 ++ procs2) = quoted_of q procs1 ++ quoted_of q procs2.
Proof. unfold quoted_of. by rewrite defined_app, filter_app, fmap_app. Qed.

Lemma quote_parents_known_app procs1 procs2 progs :
  quote_parents_known (procs1 ++ procs2) progs
  ↔ quote_parents_known procs1 progs ∧ quote_parents_known procs2 progs.
Proof. unfold quote_parents_known. by rewrite defined_app, Forall_app. Qed.

(** X10.  Grouping more procedures.  When two arrays of procedures are
    grouped against the same programs, grouping their concatenation gives
    the concatenation of the two top-level lists and, at each program
    identity, of the two quoted lists; and it throws a [TypeError] when
    grouping either part does. *)
Theorem group_by_prog_app procs1 procs2 progs scopes :
  (∀ toplevel1 quoted1 toplevel2 quoted2,
     group_by_prog procs1 progs scopes = OK (toplevel1, quoted1) →
     group_by_prog procs2 progs scopes = OK (toplevel2, quoted2) →
     ∃ quoted,
       group_by_prog (procs1 ++ procs2) progs scopes
       = OK (toplevel1 ++ toplevel2, quoted)
       ∧ ∀ q, JSArray.get quoted q
              = match JSArray.get quoted1 q, JSArray.get quoted2 q with
                | Some l1, Some l2 => Some (l1 ++ l2)
                | _, _ => None
                end)
  ∧ (group_by_prog procs1 progs scopes = Throw TypeError
     ∨ group_by_prog procs2 progs scopes = Throw TypeError →
     group_by_prog (procs1 ++ procs2) progs scopes = Throw TypeError).
Proof.
  split.
  - intros toplevel1 quoted1 toplevel2 quoted2 Hrun1 Hrun2.
    pose proof (group_by_prog_ok_known _ _ _ _ Hrun1) as Hk1.
    pose proof (group_by_prog_ok_known _ _ _ _ Hrun2) as Hk2.
    destruct (group_by_prog_known procs1 progs scopes Hk1)
      as (q1 & Hrun1' & Hget1 & _).
    destruct (group_by_prog_known procs2 progs scopes Hk2)
      as (q2 & Hrun2' & Hget2 & _).
    rewrite Hrun1 in Hrun1'. injection Hrun1' as -> <-.
    rewrite Hrun2 in Hrun2'. injection Hrun2' as -> <-.
    destruct (group_by_prog_known (procs1 ++ procs2) progs scopes)
      as (quoted & Hrun & Hget & _).
    { by apply quote_parents_known_app. }
    exists quoted. rewrite <- toplevel_of_app. split; [done|].
    intros q. rewrite Hget, Hget1, Hget2. case_decide; [|done].
    by rewrite quoted_of_app.
  - intros Hthrow.
    assert (¬ quote_parents_known (procs1 ++ procs2) progs) as Hk.
    { intros [Hk1 Hk2]%quote_parents_known_app.
      destruct Hthrow as [Hthrow|Hthrow].
      - destruct (group_by_prog_known procs1 progs scopes Hk1) as (q & Hrun & _).
        by rewrite Hrun in Hthrow.
      - destruct (group_by_prog_known procs2 progs scopes Hk2) as (q & Hrun & _).
        by rewrite Hrun in Hthrow. }
    unfold group_by_prog. apply insert_procs_throw.
    by rewrite <- quote_parents_known_init.
Qed.

Lemma group_by_prog_app_witness :
  (∃ quoted,
     group_by_prog (Sample.procs ++ Sample.procs) Sample.progs []
     = OK ([Some 1] ++ [Some 1], quoted)
     ∧ JSArray.get quoted 0 = Some ([Some 2; Some 4] ++ [Some 2; Some 4]))
  ∧ group_by_prog (Sample.procs ++ Sample.orphan_procs) Sample.progs []
    = Throw TypeError.
Proof.
  destruct (group_by_prog_app Sample.procs Sample.procs Sample.progs [])
    as (Hok & _).
  destruct (group_by_prog_app Sample.procs Sample.orphan_procs Sample.progs [])
    as (_ & Hthrow).
  split.
  - destruct (Hok [Some 1] [Some [Some 2; Some 4]; None; None; Some []]
                [Some 1] [Some [Some 2; Some 4]; None; None; Some []])
      as (quoted & Hrun & Hget); [vm_compute; reflexivity..|].
    exists quoted. split; [exact Hrun|]. exact (Hget 0).
  - apply Hthrow. right. vm_compute. reflexivity.
Defined.

(** ** Names of shader variables *)

Lemma avoids_pretty_N_go c x s :
  (∀ d, pretty_N_char d ≠ c) → avoids c s → avoids c (pretty_N_go x s).
Proof.
  intros Hc. revert s. induction (N.lt_wf_0 x) as [x _ IH]; intros s Hs.
  assert (x = 0 ∨ 0 < x)%N as [->|?] by lia.
  - by rewrite pretty_N_go_0.
  - rewrite pretty_N_go_step by done. apply IH.
    + by apply N.div_lt.
    + split; [apply Hc|done].
Qed.

Lemma avoids_pretty_nat c (n : nat) :
  (∀ d, pretty_N_char d ≠ c) → avoids c (pretty n).
Proof.
  intros Hc. unfold pretty, pretty_nat, pretty, pretty_N.
  case_decide.
  - split; [|done]. apply (Hc 0%N).
  - by apply avoids_pretty_N_go.
Qed.

Lemma digit_not_v d : pretty_N_char d ≠ "v"%char.
Proof. unfold pretty_N_char. by repeat case_match. Qed.

Lemma digit_not_n d : pretty_N_char d ≠ "n"%char.
Proof. unfold pretty_N_char. by repeat case_match. Qed.

Lemma avoids_v_id_toString i : avoids "v" (id_toString i).
Proof.
  destruct i as [n|]; simpl.
  - apply avoids_pretty_nat, digit_not_v.
  - by repeat split.
Qed.

Lemma id_toString_inj i j : id_toString i = id_toString j → i = j.
Proof.
  destruct i as [n|], j as [m|]; simpl; intros Heq.
  - f_equal. by apply (inj pretty).
  - pose proof (avoids_pretty_nat "n" n digit_not_n) as Hn.
    rewrite Heq in Hn. by destruct Hn.
  - pose proof (avoids_pretty_nat "n" m digit_not_n) as Hn.
    rewrite <- Heq in Hn. by destruct Hn.
  - done.
Qed.

(** Two strings cut at the first occurrence of a character. *)
Lemma append_separator_inj c a a' b b' :
  avoids c a → avoids c a' →
  a +:+ String c b = a' +:+ String c b' → a = a' ∧ b = b'.
Proof.
  revert a'. induction a as [|x a IH]; intros [|x' a'] Ha Ha' Heq; simpl in *.
  - by injection Heq as ->.
  - injection Heq as -> _. by destruct Ha'.
  - injection Heq as -> _. by destruct Ha.
  - injection Heq as -> Heq. destruct Ha as [_ Ha], Ha' as [_ Ha'].
    destruct (IH a' Ha Ha' Heq) as [-> ->]. done.
Qed.

(** X11.  Shader variable names do not collide.  Two names built by
    [shadervarsym] are equal only if they were built from the same scope
    (a program identity, or null) and the same variable identity. *)
Theorem shadervarsym_inj scopeid varid scopeid' varid' :
  GLSL.shadervarsym scopeid varid = GLSL.shadervarsym scopeid' varid' →
  scopeid = scopeid' ∧ varid = varid'.
Proof.
  unfold GLSL.shadervarsym. simpl. intros [= Heq].
  apply append_separator_inj in Heq as [Hs Hv];
    [|apply avoids_v_id_toString..].
  split; [by apply id_toString_inj|by apply (inj pretty)].
Qed.

Lemma shadervarsym_inj_witness :
  GLSL.shadervarsym (Some 1) 23 = "s1v23"
  ∧ GLSL.shadervarsym (Some 12) 3 = "s12v3"
  ∧ (Some 1 = Some 1 ∧ 23 = 23).
Proof.
  split; [reflexivity|]. split; [reflexivity|].
  apply (shadervarsym_inj (Some 1) 23 (Some 1) 23). reflexivity.
Defined.

(** ** Outcomes *)

Lemma outcome_bind_Return {A B} (m : GLSL.outcome A) (f : A → GLSL.outcome B) b :
  GLSL.outcome_bind m f = GLSL.Return b →
  ∃ a, m = GLSL.Return a ∧ f a = GLSL.Return b.
Proof. destruct m as [a|e]; [|done]. simpl. eauto. Qed.

Lemma for_each_Return {A B} (f : A → GLSL.outcome B) l rs :
  GLSL.for_each f l = GLSL.Return rs →
  Forall2 (λ x r, f x = GLSL.Return r) l rs.
Proof.
  revert rs. induction l as [|x l IH]; intros rs Hrun.
  - injection Hrun as <-. constructor.
  - cbn [GLSL.for_each] in Hrun.
    apply outcome_bind_Return in Hrun as (r & Hr & Hrun).
    apply outcome_bind_Return in Hrun as (rs' & Hrs & Hret).
    injection Hret as <-. constructor; [done|by apply IH].
Qed.

Lemma for_each_Return_elem {A B} (f : A → GLSL.outcome B) l rs x :
  GLSL.for_each f l = GLSL.Return rs → x ∈ l → ∃ r, f x = GLSL.Return r.
Proof.
  intros Hrun%for_each_Return Hx. revert Hx.
  induction Hrun as [|y r l rs Hy _ IH]; intros Hx.
  - by apply elem_of_nil in Hx.
  - apply elem_of_cons in Hx as [->|Hx]; eauto.
Qed.

Lemma for_each_Raise {A B} (f : A → GLSL.outcome B) l :
  l ≠ [] → (∀ x, x ∈ l → ∃ e, f x = GLSL.Raise e) →
  ∃ e, GLSL.for_each f l = GLSL.Raise e.
Proof.
  destruct l as [|x l]; [done|]. intros _ Hf.
  destruct (Hf x) as [e He]; [by left|].
  exists e. cbn [GLSL.for_each]. by rewrite He.
Qed.

(** ** The kind of a program *)

(** X12.  The kind of a program and the kind of its parent.  The parent
    of a vertex shader that has one is a render program; a shader whose
    parent is any other program, a shader or an ordinary quotation, is a
    fragment shader, so the parent of a fragment shader is never a render
    program.  [prog_kind] returns for every defined program when each quote
    parent in the table is a defined program, and throws a [TypeError] on
    an identity that is no program. *)
Theorem prog_kind_nesting {Ty} (ir : CompilerIR Ty) (progid : nat) :
  (∀ (prog : Prog) q,
     JSArray.get (ir_progs ir) progid = Some prog →
     quote_parent prog = Some q →
     GLSL.prog_kind ir progid = GLSL.Return GLSL.vertex →
     GLSL.prog_kind ir q = GLSL.Return GLSL.render)
  ∧ (∀ (prog parprog : Prog) q,
       JSArray.get (ir_progs ir) progid = Some prog →
       annotation prog = "s" →
       quote_parent prog = Some q →
       JSArray.get (ir_progs ir) q = Some parprog →
       GLSL.prog_kind ir progid
       = GLSL.Return (if decide (annotation parprog = "f")
                      then GLSL.vertex else GLSL.fragment))
  ∧ (GLSL.prog_kind ir progid = GLSL.Return GLSL.fragment →
       ∃ (prog parprog : Prog) q,
         JSArray.get (ir_progs ir) progid = Some prog
         ∧ annotation prog = "s"
         ∧ quote_parent prog = Some q
         ∧ JSArray.get (ir_progs ir) q = Some parprog
         ∧ annotation parprog ≠ "f"
         ∧ GLSL.prog_kind ir q ≠ GLSL.Return GLSL.render)
  ∧ (progs_closed (ir_progs ir) →
       is_Some (JSArray.get (ir_progs ir) progid) →
       ∃ kind, GLSL.prog_kind ir progid = GLSL.Return kind)
  ∧ (JSArray.get (ir_progs ir) progid = None →
       GLSL.prog_kind ir progid = GLSL.Raise (GLSL.Exception TypeError)).
Proof.
  split_and!.
  - intros prog q Hprog Hq. unfold GLSL.prog_kind. rewrite Hprog.
    repeat case_decide; try done. rewrite Hq.
    destruct (JSArray.get (ir_progs ir) q) as [parprog|]; [|done].
    by repeat case_decide.
  - intros prog parprog q Hprog Hs Hq Hpar. unfold GLSL.prog_kind.
    rewrite Hprog. rewrite decide_False by (by rewrite Hs).
    rewrite decide_True by done. rewrite Hq, Hpar. by case_decide.
  - unfold GLSL.prog_kind.
    destruct (JSArray.get (ir_progs ir) progid) as [prog|] eqn:Hprog; [|done].
    repeat case_decide; try done.
    destruct (quote_parent prog) as [q|] eqn:Hq; [|done].
    destruct (JSArray.get (ir_progs ir) q) as [parprog|] eqn:Hpar; [|done].
    case_decide; [done|]. intros _.
    exists prog, parprog, q. split_and!; try done.
    rewrite Hpar, decide_False by done. by repeat case_match.
  - intros Hclosed [prog Hprog]. unfold GLSL.prog_kind. rewrite Hprog.
    repeat case_decide; eauto.
    destruct (quote_parent prog) as [q|] eqn:Hq; [|eauto].
    destruct (Hclosed progid prog q Hprog Hq) as [parprog ->].
    case_decide; eauto.
  - intros Hnone. unfold GLSL.prog_kind. by rewrite Hnone.
Qed.

Lemma prog_kind_nesting_witness :
  GLSL.prog_kind Shader.ir 1 = GLSL.Return GLSL.vertex
  ∧ GLSL.prog_kind Shader.ir 0 = GLSL.Return GLSL.render
  ∧ GLSL.prog_kind Shader.ir 2 = GLSL.Return GLSL.fragment
  ∧ GLSL.prog_kind Shader.ir 1 ≠ GLSL.Return GLSL.render
  ∧ (∃ kind, GLSL.prog_kind Shader.ir 2 = GLSL.Return kind)
  ∧ GLSL.prog_kind Shader.ir 7 = GLSL.Raise (GLSL.Exception TypeError).
Proof.
  destruct (prog_kind_nesting Shader.ir 1) as (Hvertex & _ & _ & _ & _).
  destruct (prog_kind_nesting Shader.ir 2) as (_ & _ & Hfragment & Htotal & _).
  destruct (prog_kind_nesting Shader.ir 7) as (_ & _ & _ & _ & Hnone).
  split; [reflexivity|]. split.
  { apply (Hvertex Shader.vertex_prog 0); reflexivity. }
  split; [reflexivity|]. split.
  { destruct Hfragment as (prog & parprog & q & Hprog & _ & Hq & _ & _ & Hkind);
      [reflexivity|].
    injection Hprog as <-. injection Hq as <-. exact Hkind. }
  split.
  { apply Htotal; [|by eexists].
    intros i p q Hp Hq.
    do 3 (destruct i as [|i];
          [injection Hp as <-;
           first [discriminate Hq | injection Hq as <-; by eexists]|]).
    rewrite get_ge in Hp; [discriminate Hp|simpl; lia]. }
  apply Hnone. reflexivity.
Defined.

(** ** Types and declarations *)

Lemma TYPE_NAMES_Some name glsl :
  GLSL.TYPE_NAMES !! name = Some glsl →
  (name, glsl) ∈ [ ("Int", "int"); ("Int3", "ivec3"); ("Int4", "ivec4");
                   ("Float", "float"); ("Float3", "vec3"); ("Float4", "vec4");
                   ("Float3x3", "mat3"); ("Float4x4", "mat4") ].
Proof. intros H. by apply elem_of_list_to_map_2 in H. Qed.

Lemma emit_type_Return t glsl :
  GLSL.emit_type t = GLSL.Return glsl →
  ∃ name, t = PrimitiveType name ∧ GLSL.TYPE_NAMES !! name = Some glsl.
Proof.
  destruct t as [name| | |]; try done. simpl.
  destruct (GLSL.TYPE_NAMES !! name) as [glsl'|] eqn:Hn; [|done].
  intros [= ->]. eauto.
Qed.

(** X13.  GLSL type names.  [emit_type] returns only for a primitive
    type whose name is in [TYPE_NAMES], and two types with the same GLSL
    name are the same type; every numeric type of [NUMERIC_TYPES] has a
    GLSL name, and so has every type of [GL_TYPES] but the array
    constructor and [Mesh]. *)
Theorem emit_type_names_types_apart :
  (∀ t glsl, GLSL.emit_type t = GLSL.Return glsl →
     ∃ name, t = PrimitiveType name ∧ GLSL.TYPE_NAMES !! name = Some glsl)
  ∧ (∀ t1 t2 glsl, GLSL.emit_type t1 = GLSL.Return glsl →
       GLSL.emit_type t2 = GLSL.Return glsl → t1 = t2)
  ∧ Forall (λ t, ∃ glsl, GLSL.emit_type t = GLSL.Return glsl) GLSL.NUMERIC_TYPES
  ∧ (∀ name t, GL_TYPES !! name = Some t →
       (∃ glsl, GLSL.emit_type t = GLSL.Return glsl)
       ∨ t = ARRAY ∨ t = PrimitiveType "Mesh").
Proof.
  split_and!.
  - apply emit_type_Return.
  - intros t1 t2 glsl (n1 & -> & H1%TYPE_NAMES_Some)%emit_type_Return
      (n2 & -> & H2%TYPE_NAMES_Some)%emit_type_Return.
    repeat (apply elem_of_cons in H1 as [H1|H1]; [injection H1 as -> ->|]);
      try (by apply elem_of_nil in H1);
      repeat (apply elem_of_cons in H2 as [H2|H2]; [by injection H2 as ->|]);
      by apply elem_of_nil in H2.
  - repeat constructor; by eexists.
  - intros name t H. apply elem_of_list_to_map_2 in H.
    repeat (apply elem_of_cons in H as [H|H];
            [injection H as -> ->;
             first [by left; eexists | by right; left | by right; right]|]).
    by apply elem_of_nil in H.
Qed.

Lemma emit_type_names_types_apart_witness :
  GL_TYPES !! "Vec3" = Some FLOAT3
  ∧ GLSL.emit_type FLOAT3 = GLSL.Return "vec3"
  ∧ (∃ name, FLOAT3 = PrimitiveType name
             ∧ GLSL.TYPE_NAMES !! name = Some "vec3")
  ∧ PrimitiveType "Float3" = FLOAT3.
Proof.
  destruct emit_type_names_types_apart as (Hprim & Hinj & _ & _).
  split; [reflexivity|]. split; [reflexivity|].
  split; [apply Hprim; reflexivity|].
  apply (Hinj (PrimitiveType "Float3") FLOAT3 "vec3"); reflexivity.
Defined.

Lemma instance_not_its_arg c t : InstanceType c t ≠ t.
Proof.
  revert c. induction t as [| |c' IHc t IHt|]; intros c; try done.
  intros [= -> Heq]. by apply (IHt c').
Qed.

Lemma unwrap_array_changes t :
  GLSL._unwrap_array t ≠ t ↔ ∃ arg, t = InstanceType ARRAY arg.
Proof.
  split.
  - destruct t as [| |c arg|]; try done. simpl. case_decide; [|done].
    subst. eauto.
  - intros [arg ->]. unfold GLSL._unwrap_array. rewrite decide_True by done.
    intros Heq. by apply (instance_not_its_arg ARRAY arg).
Qed.

Lemma type_at_Return {Ty} (ir : CompilerIR Ty) id t :
  GLSL.type_at ir id = GLSL.Return t →
  ∃ env, at_id (ir_type_table ir) id = Some (t, env).
Proof.
  unfold GLSL.type_at.
  destruct (at_id (ir_type_table ir) id) as [[t' env]|]; [|done].
  intros [= <-]. eauto.
Qed.

(** X14.  What [persist_decl] declares.  When it returns, the type of
    the value, with one level of array unwrapped, is a primitive type with
    a GLSL name, and the declaration is the qualifier, that name and the
    variable's [shadervarsym] name; the qualifier is [varying] for an output
    of a vertex shader and for an input of a fragment shader, [attribute]
    for an input of a vertex shader whose type is an array of a primitive
    type and [uniform] for one whose type is primitive.  It never returns
    for an output of a fragment shader nor for a program of another
    kind. *)
Theorem persist_decl_declares ir progid valueid varid kind out s :
  GLSL.persist_decl ir progid valueid varid kind out = GLSL.Return s →
  ∃ type env name glsl qual,
    at_id (ir_type_table ir) valueid = Some (type, env)
    ∧ GLSL._unwrap_array type = PrimitiveType name
    ∧ GLSL.TYPE_NAMES !! name = Some glsl
    ∧ s = qual +:+ " " +:+ glsl +:+ " " +:+ GLSL.shadervarsym progid varid +:+ ";"
    ∧ ((kind = GLSL.vertex ∧ out = true ∧ qual = "varying")
       ∨ (kind = GLSL.vertex ∧ out = false ∧ qual = "attribute"
          ∧ type = InstanceType ARRAY (PrimitiveType name))
       ∨ (kind = GLSL.vertex ∧ out = false ∧ qual = "uniform"
          ∧ type = PrimitiveType name)
       ∨ (kind = GLSL.fragment ∧ out = false ∧ qual = "varying")).
Proof.
  unfold GLSL.persist_decl. intros Hrun.
  apply outcome_bind_Return in Hrun as (type & Htype & Hrun).
  apply type_at_Return in Htype as [env Htype].
  apply outcome_bind_Return in Hrun as (qual & Hqual & Hrun).
  apply outcome_bind_Return in Hrun as (glsl & Hglsl & Hret).
  apply emit_type_Return in Hglsl as (name & Hname & Hglsl).
  injection Hret as <-.
  exists type, env, name, glsl, qual. split_and!; try done.
  destruct kind; try done.
  - destruct out.
    + injection Hqual as <-. by left.
    + case_bool_decide as Hattr.
      * injection Hqual as <-. right; left. split_and!; try done.
        apply unwrap_array_changes in Hattr as [arg ->].
        unfold GLSL._unwrap_array in Hname.
        rewrite decide_True in Hname by done. by subst.
      * injection Hqual as <-. right; right; left. split_and!; try done.
        by rewrite <- Hattr.
  - destruct out; [done|]. injection Hqual as <-. by repeat right.
Qed.

Lemma persist_decl_declares_witness :
  GLSL.persist_decl Shader.ir (Some 1) (Some 6) 5 GLSL.vertex false
  = GLSL.Return "attribute vec3 s1v5;"
  ∧ ∃ type env name glsl qual,
      at_id (ir_type_table Shader.ir) (Some 6) = Some (type, env)
      ∧ GLSL._unwrap_array type = PrimitiveType name
      ∧ GLSL.TYPE_NAMES !! name = Some glsl
      ∧ "attribute vec3 s1v5;"
        = qual +:+ " " +:+ glsl +:+ " " +:+ GLSL.shadervarsym (Some 1) 5 +:+ ";".
Proof.
  split; [reflexivity|].
  destruct (persist_decl_declares Shader.ir (Some 1) (Some 6) 5 GLSL.vertex false
              "attribute vec3 s1v5;" eq_refl)
    as (type & env & name & glsl & qual & H1 & H2 & H3 & H4 & _).
  exists type, env, name, glsl, qual. split_and!; assumption.
Defined.

Lemma persist_decl_fragment_out ir progid valueid varid :
  ∃ e, GLSL.persist_decl ir progid valueid varid GLSL.fragment true = GLSL.Raise e.
Proof.
  unfold GLSL.persist_decl.
  destruct (GLSL.type_at ir valueid) as [type|e]; simpl; eauto.
Qed.

(** ** Compiling a shader program *)

Lemma prog_kind_shader {Ty} (ir : CompilerIR Ty) progid (prog : Prog) kind :
  JSArray.get (ir_progs ir) progid = Some prog →
  GLSL.prog_kind ir progid = GLSL.Return kind →
  kind = GLSL.vertex ∨ kind = GLSL.fragment → annotation prog = "s".
Proof.
  intros Hprog. unfold GLSL.prog_kind. rewrite Hprog.
  repeat case_decide; try done; intros [= <-]; intros [?|?]; done.
Qed.

(** X15.  What [compile_prog] accepts.  When it returns, the program
    is defined and annotated as a shader, its kind is vertex or fragment,
    it has at most one subprogram, every variable it binds has a primitive
    type with a GLSL name (the type itself, with no array unwrapped), and
    the text starts with the precision declaration. *)
Theorem compile_prog_accepts_shaders_only emit_body indent compile ir progid s :
  GLSL.compile_prog emit_body indent compile ir progid = GLSL.Return s →
  ∃ (prog : Prog) kind,
    JSArray.get (ir_progs ir) progid = Some prog
    ∧ GLSL.prog_kind ir progid = GLSL.Return kind
    ∧ (kind = GLSL.vertex ∨ kind = GLSL.fragment)
    ∧ annotation prog = "s"
    ∧ length (quote_children prog) ≤ 1
    ∧ (∀ id, id ∈ bound prog →
         ∃ env name glsl,
           JSArray.get (ir_type_table ir) id = Some (PrimitiveType name, env)
           ∧ GLSL.TYPE_NAMES !! name = Some glsl)
    ∧ ∃ rest, s = "precision mediump float;" +:+ newline +:+ rest.
Proof.
  unfold GLSL.compile_prog. intros Hrun.
  apply outcome_bind_Return in Hrun as (kind & Hkind & Hrun).
  case_decide as Hk; [done|].
  destruct (JSArray.get (ir_progs ir) progid) as [prog|] eqn:Hprog; [|done].
  apply outcome_bind_Return in Hrun as (d1 & Hd1 & Hrun).
  apply outcome_bind_Return in Hrun as (d2 & Hd2 & Hrun).
  apply outcome_bind_Return in Hrun as (decls_out & Hout & Hrun).
  apply outcome_bind_Return in Hrun as (local_decls & Hloc & Hrun).
  apply outcome_bind_Return in Hrun as (code & Hcode & Hrun).
  apply outcome_bind_Return in Hrun as (indented & Hind & Hret).
  injection Hret as <-.
  assert (kind = GLSL.vertex ∨ kind = GLSL.fragment) as Hshader.
  { destruct kind; try (by left); try (by right);
      destruct Hk; by split. }
  exists prog, kind. split_and!; try done.
  - by eapply prog_kind_shader.
  - destruct (quote_children prog) as [|c [|c' l]]; simpl; try lia. done.
  - intros id Hid.
    destruct (for_each_Return_elem _ _ _ id Hloc Hid) as [r Hr].
    apply outcome_bind_Return in Hr as (t & Ht & Hr).
    apply outcome_bind_Return in Hr as (glsl & Hglsl & _).
    apply type_at_Return in Ht as [env Ht].
    apply emit_type_Return in Hglsl as (name & -> & Hglsl).
    exists env, name, glsl. done.
  - case_decide; eexists; simpl; reflexivity.
Qed.

Lemma compile_prog_accepts_shaders_only_witness :
  ∃ s,
    GLSL.compile_prog Shader.emit_body Shader.indent Shader.compile Shader.ir 1
    = GLSL.Return s
    ∧ (∃ rest, s = "precision mediump float;" +:+ newline +:+ rest)
    ∧ GLSL.compile_prog Shader.emit_body Shader.indent Shader.compile Shader.ir 0
      = GLSL.Raise (GLSL.Message "error: unexpected program kind").
Proof.
  eexists. split; [vm_compute; reflexivity|]. split; [|reflexivity].
  edestruct (compile_prog_accepts_shaders_only Shader.emit_body Shader.indent
               Shader.compile Shader.ir 1)
    as (prog & kind & _ & _ & _ & _ & _ & _ & Hrest);
    [vm_compute; reflexivity|].
  exact Hrest.
Defined.

(** X16.  A fragment shader cannot pass anything on.  Compiling a
    fragment shader whose subprogram has a persist or a free variable
    throws: each of them would be declared as an output of the fragment
    shader. *)
Theorem fragment_shader_has_no_outputs emit_body indent compile ir progid
    (prog subprog : Prog) child :
  GLSL.prog_kind ir progid = GLSL.Return GLSL.fragment →
  JSArray.get (ir_progs ir) progid = Some prog →
  quote_children prog = [child] →
  JSArray.get (ir_progs ir) child = Some subprog →
  persist subprog ≠ [] ∨ free subprog ≠ [] →
  ∃ e, GLSL.compile_prog emit_body indent compile ir progid = GLSL.Raise e.
Proof.
  intros Hkind Hprog Hchild Hsub Hne. unfold GLSL.compile_prog.
  rewrite Hkind. cbn [GLSL.outcome_bind].
  rewrite decide_False by (intros [_ ?]; done). rewrite Hprog.
  destruct (GLSL.for_each _ (persist prog)) as [d1|e]; [|by eexists].
  cbn [GLSL.outcome_bind].
  destruct (GLSL.for_each _ (free prog)) as [d2|e]; [|by eexists].
  cbn [GLSL.outcome_bind]. rewrite Hchild, Hsub.
  destruct (GLSL.for_each _ (persist subprog)) as [d3|e] eqn:H3; [|by eexists].
  cbn [GLSL.outcome_bind].
  destruct (GLSL.for_each _ (free subprog)) as [d4|e] eqn:H4; [|by eexists].
  exfalso. destruct Hne as [Hp|Hf].
  - destruct (persist subprog) as [|esc escs]; [done|].
    destruct (for_each_Return_elem _ _ _ esc H3) as [r Hr]; [by left|].
    destruct (persist_decl_fragment_out ir (scope_id subprog)
                (node_id (escape_body esc)) (escape_id esc)) as [e He].
    simpl in Hr. by rewrite He in Hr.
  - destruct (free subprog) as [|fv fvs]; [done|].
    destruct (for_each_Return_elem _ _ _ fv H4) as [r Hr]; [by left|].
    destruct (persist_decl_fragment_out ir (scope_id subprog) (Some fv) fv)
      as [e He].
    simpl in Hr. by rewrite He in Hr.
Qed.

Lemma fragment_shader_has_no_outputs_witness :
  ∃ e, GLSL.compile_prog Shader.emit_body Shader.indent Shader.compile
         Shader.ir' 2 = GLSL.Raise e.
Proof.
  apply (fragment_shader_has_no_outputs Shader.emit_body Shader.indent
           Shader.compile Shader.ir' 2 Shader.fragment_prog' Shader.inner_prog 3);
    try reflexivity.
  right. discriminate.
Defined.

(** ** What a vertex shader hands to its fragment shader *)

Lemma for_each_ext {A B} (f g : A → GLSL.outcome B) l :
  (∀ x, f x = g x) → GLSL.for_each f l = GLSL.for_each g l.
Proof.
  intros Hfg. induction l as [|x l IH]; [done|].
  cbn [GLSL.for_each]. by rewrite Hfg, IH.
Qed.

Lemma persist_decl_varying ir progid valueid varid :
  GLSL.persist_decl ir progid valueid varid GLSL.vertex true
  = GLSL.persist_decl ir progid valueid varid GLSL.fragment false.
Proof. unfold GLSL.persist_decl. by destruct (GLSL.type_at ir valueid). Qed.

(** X17.  What a vertex shader hands to its fragment shader.  For a
    program that carries the identity of its slot, the declaration that
    [persist_decl] makes of one of its variables as an output of the
    enclosing vertex shader is, text for text, the declaration it makes of
    it as an input of the program itself as a fragment shader, a [varying]
    under the same name; so the two loops of [compile_prog] over the
    persists and over the free variables give the same declarations, or the
    same failure, on either side. *)
Theorem vertex_outputs_are_fragment_inputs ir (subprog : Prog) child :
  scope_id subprog = Some child →
  (∀ valueid varid s,
     GLSL.persist_decl ir (scope_id subprog) valueid varid GLSL.vertex true
     = GLSL.Return s →
     GLSL.persist_decl ir (Some child) valueid varid GLSL.fragment false
     = GLSL.Return s
     ∧ ∃ glsl, s = "varying " +:+ glsl +:+ " "
                   +:+ GLSL.shadervarsym (Some child) varid +:+ ";")
  ∧ GLSL.for_each
      (λ esc, GLSL.persist_decl ir (scope_id subprog) (node_id (escape_body esc))
                (escape_id esc) GLSL.vertex true) (persist subprog)
    = GLSL.for_each
        (λ esc, GLSL.persist_decl ir (Some child) (node_id (escape_body esc))
                  (escape_id esc) GLSL.fragment false) (persist subprog)
  ∧ GLSL.for_each
      (λ fv, GLSL.persist_decl ir (scope_id subprog) (Some fv) fv
               GLSL.vertex true) (free subprog)
    = GLSL.for_each
        (λ fv, GLSL.persist_decl ir (Some child) (Some fv) fv
                 GLSL.fragment false) (free subprog).
Proof.
  intros ->. split_and!.
  - intros valueid varid s Hrun. split; [by rewrite <- persist_decl_varying|].
    unfold GLSL.persist_decl in Hrun.
    apply outcome_bind_Return in Hrun as (type & _ & Hrun).
    cbn [GLSL.outcome_bind] in Hrun.
    apply outcome_bind_Return in Hrun as (glsl & _ & Hret).
    injection Hret as <-. by exists glsl.
  - apply for_each_ext. intros esc. apply persist_decl_varying.
  - apply for_each_ext. intros fv. apply persist_decl_varying.
Qed.

Lemma vertex_outputs_are_fragment_inputs_witness :
  GLSL.persist_decl Shader.ir (Some 2) (Some 7) 7 GLSL.vertex true
  = GLSL.Return "varying vec4 s2v7;"
  ∧ GLSL.persist_decl Shader.ir (Some 2) (Some 7) 7 GLSL.fragment false
    = GLSL.Return "varying vec4 s2v7;".
Proof.
  split; [reflexivity|].
  apply (proj1 (vertex_outputs_are_fragment_inputs Shader.ir
                  Shader.fragment_prog 2 eq_refl) (Some 7) 7).
  reflexivity.
Defined.

(** ** Literals *)

Lemma index_dot_appended s : String.index 0 "." (s +:+ ".0") ≠ None.
Proof.
  induction s as [|c s IH]; [done|].
  change (String c s +:+ ".0") with (String c (s +:+ ".0")).
  cbn [String.index].
  destruct (String.prefix "." (String c (s +:+ ".0"))); [done|].
  by destruct (String.index 0 "." (s +:+ ".0")).
Qed.

Lemma indexOf_found s sub : indexOf s sub ≠ (-1)%Z ↔ String.index 0 sub s ≠ None.
Proof.
  unfold indexOf. destruct (String.index 0 sub s); [|done].
  split; [done|]. intros _. lia.
Qed.

(** X18.  Literals.  A literal of type [INT] is emitted as its number
    prints; a literal of type [FLOAT] (a type other than [INT]) is emitted
    with a decimal point in it, the printed number when that has one and
    the printed number followed by [.0] otherwise; a literal of any other
    type is rejected. *)
Theorem float_literals_carry_a_point {number} (toString : number → string)
    (INT FLOAT : Type_) ir id value t env :
  at_id (ir_type_table ir) id = Some (t, env) →
  (t = INT →
     GLSL.visit_literal toString INT FLOAT ir id value
     = GLSL.Return (toString value))
  ∧ (t = FLOAT → INT ≠ FLOAT →
       ∃ s, GLSL.visit_literal toString INT FLOAT ir id value = GLSL.Return s
            ∧ indexOf s "." ≠ (-1)%Z
            ∧ (s = toString value
               ∨ (indexOf (toString value) "." = (-1)%Z
                  ∧ s = toString value +:+ ".0")))
  ∧ (t ≠ INT → t ≠ FLOAT →
       GLSL.visit_literal toString INT FLOAT ir id value
       = GLSL.Raise (GLSL.Message "error: unknown literal type")).
Proof.
  intros Ht. unfold GLSL.visit_literal, GLSL.type_at. rewrite Ht.
  cbn [GLSL.outcome_bind fst]. split_and!.
  - intros ->. by rewrite decide_True.
  - intros -> Hne. rewrite decide_False, decide_True by done.
    case_decide as Hdot.
    + eexists. split; [done|]. split; [|by right].
      apply indexOf_found, index_dot_appended.
    + eexists. split; [done|]. split; [done|by left].
  - intros H1 H2. by rewrite !decide_False.
Qed.

Lemma float_literals_carry_a_point_witness :
  GLSL.visit_literal (pretty : Z → string) Shader.INT Shader.FLOAT
    Shader.literal_ir (Some 0) 2%Z = GLSL.Return "2"
  ∧ ∃ s, GLSL.visit_literal (pretty : Z → string) Shader.INT Shader.FLOAT
           Shader.literal_ir (Some 1) 2%Z = GLSL.Return s
         ∧ s = "2.0" ∧ indexOf s "." ≠ (-1)%Z.
Proof.
  destruct (float_literals_carry_a_point (pretty : Z → string) Shader.INT
              Shader.FLOAT Shader.literal_ir (Some 0) 2%Z Shader.INT None
              eq_refl) as (Hint & _ & _).
  destruct (float_literals_carry_a_point (pretty : Z → string) Shader.INT
              Shader.FLOAT Shader.literal_ir (Some 1) 2%Z Shader.FLOAT None
              eq_refl) as (_ & Hfloat & _).
  split; [apply Hint; reflexivity|].
  destruct Hfloat as (s & Hs & Hdot & _); [reflexivity|discriminate|].
  exists s. split; [exact Hs|]. split; [|exact Hdot].
  vm_compute in Hs. by injection Hs as <-.
Defined.

(** ** Extern references *)

(** X19.  An extern reference compiles to the name in the assembled
    table.  In the IR of an elaborated tree, the rule for extern nodes
    emits, for a node that the def/use table sends to an extern node, that
    node's expansion when it is a non-empty string and its name otherwise,
    and for one that it sends to the identity of an intrinsic, the
    intrinsic's name; where the def/use table has no entry the rule yields
    [undefined] and does not throw. *)
Theorem extern_reference_compiles_to_its_name {Ty}
    find_scopes find_def_use index_tree lift
    (tree : SyntaxNode) (tt : TypeTable Ty) (intrinsics : list (string * Ty)) ir :
  NoDup (extern_ids tree) →
  Forall (λ n, n < length tt) (extern_ids tree) →
  NoDup intrinsics.*1 →
  semantically_analyze find_scopes find_def_use index_tree lift tree tt intrinsics
    = OK ir →
  (∀ i d name expansion,
     JSArray.get (ir_defuse ir) i = Some d →
     ExternNode (Some d) name expansion ∈ nodes tree →
     GLSL.visit_extern ir (Some i) = Some (js_or expansion name))
  ∧ (∀ i k name ty,
       JSArray.get (ir_defuse ir) i = Some (length tt + k) →
       intrinsics !! k = Some (name, ty) →
       GLSL.visit_extern ir (Some i) = Some name)
  ∧ (∀ i, at_id (ir_defuse ir) i = None → GLSL.visit_extern ir i = None).
Proof.
  intros Hnd Hbelow Hnames Hrun.
  apply semantically_analyze_inv in Hrun
    as (scopes & defuse & index & procs & main & progs & toplevel & quoted
        & _ & _ & _ & _ & _ & ->).
  unfold GLSL.visit_extern, GLSL.emit_extern. cbn [ir_externs ir_defuse].
  rewrite register_intrinsics_map by done.
  split_and!.
  - intros i d name expansion Hd Hin. cbn [at_id]. rewrite Hd. cbn [at_id].
    rewrite add_intrinsics_get.
    assert (d < length tt) as Hlt.
    { rewrite Forall_forall in Hbelow. apply Hbelow.
      apply elem_of_extern_ids. eauto. }
    rewrite decide_False by lia.
    by apply find_externs_hit.
  - intros i k name ty Hd Hk. cbn [at_id]. rewrite Hd. cbn [at_id].
    pose proof (lookup_lt_Some _ _ _ Hk) as Hlt.
    rewrite add_intrinsics_get, decide_True by lia.
    replace (length tt + k - length tt) with k by lia. by rewrite Hk.
  - intros i Hnone. by rewrite Hnone.
Qed.

Lemma extern_reference_compiles_to_its_name_witness :
  ∃ ir,
    semantically_analyze Sample.no_scopes Analysis.def_use Sample.no_index
      Sample.lift_nothing Sample.extern_tree Sample.extern_table
      Sample.intrinsics = OK ir
    ∧ GLSL.visit_extern ir (Some 1) = Some "sin"
    ∧ GLSL.visit_extern ir (Some 2) = Some "Math.abs"
    ∧ GLSL.visit_extern ir (Some 3) = Some "vtx"
    ∧ GLSL.visit_extern ir (Some 0) = None.
Proof.
  eexists. split; [vm_compute; reflexivity|].
  edestruct (extern_reference_compiles_to_its_name Sample.no_scopes
               Analysis.def_use Sample.no_index Sample.lift_nothing
               Sample.extern_tree Sample.extern_table Sample.intrinsics)
    as (Hext & Hintr & Hnone).
  - compute_done.
  - compute_done.
  - compute_done.
  - vm_compute. reflexivity.
  - split_and!.
    + apply (Hext 1 1 "sin" None); [reflexivity|]. simpl.
      apply list_elem_of_further, list_elem_of_here.
    + apply (Hext 2 2 "abs" (Some "Math.abs")); [reflexivity|]. simpl.
      do 2 apply list_elem_of_further. apply list_elem_of_here.
    + apply (Hintr 3 0 "vtx" "<Int> -> Int"); reflexivity.
    + apply (Hnone (Some 0)). reflexivity.
Defined.

(** ** Calls *)

(** X20.  Calls.  A call whose callee is not a variable read is
    rejected as higher-order.  A call to [frag] is never emitted as a call:
    with no argument it throws a [TypeError], with a first argument that is
    not a quotation it is rejected, with a quotation that is no program of
    the IR it throws a [TypeError]; otherwise it yields the empty text when
    the quotation's program has neither persists nor free variables, and a
    text that starts with the comment line only when it has some. *)
Theorem visit_call_static_or_frag {Ty} (paren : string → GLSL.outcome string)
    (fself : GLSL.Compile) (ir : CompilerIR Ty) id fn args :
  ((∀ i x, fn ≠ LookupNode i x) →
     GLSL.visit_call paren fself ir id fn args
     = GLSL.Raise (GLSL.Message "error: GLSL backend is not higher-order"))
  ∧ (∀ i,
       fn = LookupNode i "frag" →
       match args with
       | [] =>
           GLSL.visit_call paren fself ir id fn args
           = GLSL.Raise (GLSL.Exception TypeError)
       | QuoteNode qid e ann :: _ =>
           match at_id (ir_progs ir) qid with
           | None =>
               GLSL.visit_call paren fself ir id fn args
               = GLSL.Raise (GLSL.Exception TypeError)
           | Some subprog =>
               (persist subprog = [] → free subprog = [] →
                GLSL.visit_call paren fself ir id fn args = GLSL.Return "")
               ∧ (∀ s, GLSL.visit_call paren fself ir id fn args = GLSL.Return s →
                    s ≠ "" →
                    (persist subprog ≠ [] ∨ free subprog ≠ [])
                    ∧ ∃ rest, s = "/* pass to fragment shader */" +:+ newline
                                  +:+ rest)
           end
       | _ :: _ =>
           GLSL.visit_call paren fself ir id fn args
           = GLSL.Raise (GLSL.Message "error: non-quote used with frag")
       end).
Proof.
  split.
  - intros Hne. unfold GLSL.visit_call, GLSL.frag_expr. simpl.
    destruct fn; try done. by destruct (Hne id0 ident).
  - intros i ->. unfold GLSL.visit_call, GLSL.frag_expr. simpl.
    destruct args as [|arg args]; [done|]. simpl.
    destruct arg; try done.
    destruct (at_id (ir_progs ir) id0) as [subprog|]; [|done].
    split.
    + intros Hp Hf. by rewrite Hp, Hf.
    + intros s Hrun Hs.
      apply outcome_bind_Return in Hrun as (a1 & Ha1 & Hrun).
      apply outcome_bind_Return in Hrun as (a2 & Ha2 & Hret).
      case_decide as Hne; [|by injection Hret as <-].
      injection Hret as <-. split; [|by eexists].
      destruct (persist subprog) as [|esc escs] eqn:Hp; [|by left].
      destruct (free subprog) as [|fv fvs] eqn:Hf; [|by right].
      injection Ha1 as <-. by injection Ha2 as <-.
Qed.

Lemma visit_call_static_or_frag_witness :
  GLSL.visit_call Shader.paren Shader.compile Shader.ir None
    (LiteralNode None 1) []
  = GLSL.Raise (GLSL.Message "error: GLSL backend is not higher-order")
  ∧ GLSL.visit_call Shader.paren Shader.compile Shader.ir None
      (LookupNode None "frag") []
    = GLSL.Raise (GLSL.Exception TypeError)
  ∧ GLSL.visit_call Shader.paren Shader.compile Shader.ir None
      (LookupNode None "frag") [LiteralNode None 1]
    = GLSL.Raise (GLSL.Message "error: non-quote used with frag")
  ∧ GLSL.visit_call Shader.paren Shader.compile Shader.ir None
      (LookupNode None "frag") [QuoteNode (Some 0) (LiteralNode None 1) "s"]
    = GLSL.Return "".
Proof.
  split_and!.
  - apply (proj1 (visit_call_static_or_frag Shader.paren Shader.compile
                    Shader.ir None (LiteralNode None 1) [])).
    discriminate.
  - apply (proj2 (visit_call_static_or_frag Shader.paren Shader.compile
                    Shader.ir None (LookupNode None "frag") []) None eq_refl).
  - apply (proj2 (visit_call_static_or_frag Shader.paren Shader.compile
                    Shader.ir None (LookupNode None "frag")
                    [LiteralNode None 1]) None eq_refl).
  - apply (proj2 (visit_call_static_or_frag Shader.paren Shader.compile
                    Shader.ir None (LookupNode None "frag")
                    [QuoteNode (Some 0) (LiteralNode None 1) "s"]) None eq_refl);
      reflexivity.
Defined.

(** ** Auto-persist, read by read *)

(** X21.  Auto-persist, read by read, with [in] as JavaScript has it.  For
    a read whose captured environment is [env]: when the name is a property
    of [env.externs], own or inherited from [Object.prototype], or its stage
    distance is 0, the pass returns the node as it is and leaves the table
    alone; when the name is no property of [env.externs] and its stage
    distance is k > 0 the pass returns what the elaborator makes of a
    persist escape with count k around a read of the same name, and the
    elaborated node is that escape with fresh identities.  Over an
    elaborated tree whose reads are of names declared external, or of names
    that objects do not inherit and that some stage binds, the result is, up
    to the fresh identities, the tree in which every read has been rewritten
    by the rule of section 4.1 and nothing else has changed. *)
Theorem auto_persist_rule_for_plain_names {Ty} (check : TypeCheck Ty)
    (tt : TypeTable Ty) :
  (∀ i x env, env_at tt i = Some env →
     (js_in x (externs env) ∨ stage_distance env x = Some 0 →
        desugar_cross_stage check (LookupNode i x) tt = OK (LookupNode i x, tt))
     ∧ (∀ k, ¬ js_in x (externs env) → stage_distance env x = Some k → 0 < k →
          desugar_cross_stage check (LookupNode i x) tt
          = elaborate_subtree (persist_escape x k) env check tt
          ∧ ∀ r tt', elaborate_subtree (persist_escape x k) env check tt
                       = OK (r, tt') →
              r = EscapeNode (Some (length tt)) "persist"
                    (LookupNode (Some (S (length tt))) x) (Some k)))
  ∧ (∀ tree tree' tt', ids_below (length tt) tree →
       Forall (plain_read tt) (nodes tree) →
       desugar_cross_stage check tree tt = OK (tree', tt') →
       erase_from (length tt) tree' = auto_persist tt tree).
Proof.
  split.
  - intros i x env Henv. split.
    + by apply desugar_lookup_unchanged.
    + intros k Hne Hd Hk. split.
      * by apply desugar_lookup_persist.
      * intros r tt' Hel. by apply elaborate_subtree_inv in Hel as [-> _].
  - intros tree tree' tt'. apply desugar_cross_stage_refines.
Qed.

Lemma auto_persist_rule_for_plain_names_witness :
  desugar_cross_stage Sample.check_int Sample.quote_tree Sample.quote_table
    = OK (Sample.quote_tree_desugared, Sample.quote_table_desugared)
  ∧ erase_from (length Sample.quote_table) Sample.quote_tree_desugared
    = auto_persist Sample.quote_table Sample.quote_tree.
Proof.
  split; [vm_compute; reflexivity|].
  apply (proj2 (auto_persist_rule_for_plain_names Sample.check_int
                  Sample.quote_table)
           Sample.quote_tree Sample.quote_tree_desugared
           Sample.quote_table_desugared).
  - ids_below_by_computation.
  - simpl.
    repeat (apply Forall_cons; split;
            [intros i x env Heq Henv;
             first [discriminate Heq
                   |injection Heq as <- <-; injection Henv as <-;
                    right; split; [compute_done|vm_compute; eauto]]|]).
    apply Forall_nil_2.
  - vm_compute. reflexivity.
Defined.
